(** * A dating-application core: scoring engine and match reconciliation

    Shallow embedding of [project/utils.py], [project/models.py],
    [project/engine.py], [project/storage.py] and [project/main.py], and
    what is proved of them.

    Reading conventions.
    - Python [int] is [Z]; [uuid.UUID] is a 128-bit number, [N];
      [datetime] is a number of ticks, [Z]; [date] is a record.
    - Python [float] is an implementation of the interface [PyFloat]
      below, which has two instances: [Binary64] (IEEE-754 double
      precision, the machine type of CPython, computed by the primitive
      floats and specified by [SpecFloat]) and [Exact] (the real numbers,
      where no operation rounds or overflows).  The program is written once
      and read at either instance.  Statements about formulas and orders
      are proved at [Exact]; statements about exceptions, infinities and
      NaN are proved at [Binary64]; statements that do not depend on the
      arithmetic are proved for every instance.
    - Exceptions are values of [result]: [float(n)] of an [int] that does
      not fit raises [OverflowError], a division by [0.0] raises
      [ZeroDivisionError].
    - [date.today()], [now()], [gen_uuid()] and [random.random()] read the
      environment; their results are explicit arguments.
    - dictionaries are [gmap]s; the loops over [values()] below only look
      for the existence of an entry, so the iteration order is immaterial.
    - [InMemoryDB] is the record of the users, the swipes and the
      matches; the other five dictionaries, which no method reads, are the
      record [Collections].
    - objects are values, except where a method writes to an object that
      another object holds: the photos of a profile are references into a
      store of Photo objects. *)

From Stdlib Require Import Floats.
From Stdlib Require Import ZArith Reals Lra Lia List Sorted.
From stdpp Require Import gmap strings list.
From stdpp Require Import pretty.

Set Warnings "-inexact-float".

(** ** Exceptions *)

Inductive PyError : Type :=
  | ZeroDivisionError
  | OverflowError.

Inductive result (A : Type) : Type :=
  | Ok (a : A)
  | Raise (e : PyError).
Arguments Ok {A} a.
Arguments Raise {A} e.

#[global] Instance result_ret : MRet result := @Ok.
#[global] Instance result_bind : MBind result := λ A B f m,
  match m with
  | Ok a => f a
  | Raise e => Raise e
  end.

(** ** The arithmetic of Python floats *)

Class PyFloat (F : Type) := {
  (** the float nearest to an integer ([float(n)], or an integer literal
      such as [20.0]) *)
  float_of_Z : Z → F;
  (** whether [float(n)] succeeds; [false] is [OverflowError] *)
  float_fits : Z → bool;
  fadd : F → F → F;
  fsub : F → F → F;
  fmul : F → F → F;
  fdiv : F → F → F;
  (** [x ** 0.5] *)
  fsqrt : F → F;
  (** [x < y] *)
  fltb : F → F → bool;
  (** [x == 0.0] *)
  fis_zero : F → bool;
  (** [x > n] for an [int] [n]: Python compares the two exactly *)
  fgt_int : F → Z → bool;
  (** [int(x)]: truncation toward zero *)
  ftrunc : F → Z;
}.

Declare Scope pyfloat_scope.
Delimit Scope pyfloat_scope with f.
Infix "+" := fadd : pyfloat_scope.
Infix "-" := fsub : pyfloat_scope.
Infix "*" := fmul : pyfloat_scope.
Infix "/" := fdiv : pyfloat_scope.
Infix "<?" := fltb : pyfloat_scope.
Notation "'lit' n" := (float_of_Z n%Z) (at level 9, n at level 9) : pyfloat_scope.

(** ** utils.py *)

Abbreviation UUID := N (only parsing).
Abbreviation datetime := Z (only parsing).

Record date : Type := mkdate { year : Z; month : Z; day : Z }.

(** [(m1, d1) < (m2, d2)] on tuples of ints *)
Definition tuple_lt (p q : Z * Z) : bool :=
  (p.1 <? q.1)%Z || ((p.1 =? q.1)%Z && (p.2 <? q.2)%Z).

Definition age_from_birthdate (today bd : date) : Z :=
  let years :=
    (year today - year bd
     - Z.b2z (tuple_lt (month today, day today) (month bd, day bd)))%Z in
  years.

(** ** models.py *)

Inductive Gender : Type := MALE | FEMALE | NONBINARY | OTHER.

#[global] Instance Gender_eq_dec : EqDecision Gender.
Proof. solve_decision. Defined.

Section Program.
Context (F : Type) `{PyFloat F}.

Local Open Scope pyfloat_scope.

(** [float(n)] for an [int] variable, as in [float - int] or [float(n)] *)
Definition float_of_int (n : Z) : result F :=
  if float_fits n then Ok (float_of_Z n) else Raise OverflowError.

(** [x / y] on floats *)
Definition py_truediv (x y : F) : result F :=
  if fis_zero y then Raise ZeroDivisionError else Ok (x / y).

(** [max(0, x)]: the first argument unless the second is greater *)
Definition py_max0 (x : F) : F := if lit 0 <? x then x else lit 0.

Record Location : Type := mkLocation {
  lat : F;
  lon : F;
  city : string;
  country : string;
}.

Definition distance_km_to (self other : Location) : F :=
  let dx := (lat self - lat other) * lit 111 in
  let dy := (lon self - lon other) * lit 111 in
  fsqrt (dx * dx + dy * dy).

Record Photo : Type := mkPhoto {
  photo_id : UUID;
  url : string;
  order : Z;
  uploaded_at : option datetime;
}.

Record Preferences : Type := mkPreferences {
  gender_preference : list Gender;
  age_min : Z;
  age_max : Z;
  max_distance_km : Z;
  interests : list string;
}.

Definition default_Preferences : Preferences :=
  mkPreferences [FEMALE; MALE; NONBINARY] 18 99 100 [].

Definition matches_age (self : Preferences) (age : Z) : bool :=
  (age_min self <=? age)%Z && (age <=? age_max self)%Z.

Record Profile : Type := mkProfile {
  profile_id : UUID;
  display_name : string;
  birthdate : option date;
  gender : option Gender;
  bio : string;
  photos : list Photo;
  location : option Location;
  preferences : Preferences;
  profile_created_at : datetime;
  updated_at : datetime;
}.

(** truthiness of a [str], of a [list] and of an optional object *)
Definition str_truthy (s : string) : bool := negb (String.eqb s "").
Definition list_truthy {A} (l : list A) : bool := negb (Nat.eqb (length l) 0).
Definition opt_truthy {A} (o : option A) : bool :=
  match o with Some _ => true | None => false end.

Definition complete_percentage (self : Profile) : Z :=
  let score := 0%Z in
  let total := 6%Z in
  let score := if str_truthy (display_name self) then (score + 1)%Z else score in
  let score := if opt_truthy (birthdate self) then (score + 1)%Z else score in
  let score := if opt_truthy (gender self) then (score + 1)%Z else score in
  let score := if str_truthy (bio self) then (score + 1)%Z else score in
  let score := if list_truthy (photos self) then (score + 1)%Z else score in
  let score := if opt_truthy (location self) then (score + 1)%Z else score in
  ftrunc ((lit score / lit total) * lit 100).

Definition age (today : date) (self : Profile) : option Z :=
  match birthdate self with
  | None => None
  | Some bd => Some (age_from_birthdate today bd)
  end.

Record User : Type := mkUser {
  user_id : UUID;
  email : string;
  password_hash : string;
  user_created_at : datetime;
  last_login : option datetime;
  user_is_active : bool;
  profile : option Profile;
  email_verified : bool;
}.

Record Swipe : Type := mkSwipe {
  swipe_id : UUID;
  from_user : User;
  to_user : User;
  direction : string;
  timestamp : datetime;
}.

Record Match : Type := mkMatch {
  match_id : UUID;
  user_a : User;
  user_b : User;
  created_at : datetime;
  is_active : bool;
}.

Definition unmatch (self : Match) : Match :=
  mkMatch (match_id self) (user_a self) (user_b self) (created_at self) false.

Definition other (self : Match) (user : User) : option User :=
  if (user_id user =? user_id (user_a self))%N then Some (user_b self)
  else if (user_id user =? user_id (user_b self))%N then Some (user_a self)
  else None.

(** ** engine.py: RecommendationEngine *)

(** lines 25-29: the gender term *)
Definition gender_term (pref : Preferences) (b : Profile) (score : F) : F :=
  if match gender b with
     | Some g => bool_decide (g ∈ gender_preference pref)
     | None => false
     end
  then score + lit 20
  else score - lit 10.

(** lines 31-41: the age term; [if b_age:] is the truth value of an
    [Optional[int]] *)
Definition age_term (pref : Preferences) (b_age : option Z) (score : F)
  : result F :=
  match b_age with
  | Some b_age =>
      if negb (b_age =? 0)%Z then
        if matches_age pref b_age then Ok (score + lit 15)
        else if (b_age <? age_min pref)%Z then
          x ← float_of_int (age_min pref - b_age); Ok (score - x)
        else if (age_max pref <? b_age)%Z then
          x ← float_of_int (b_age - age_max pref); Ok (score - x)
        else Ok score
      else Ok score
  | None => Ok score
  end.

(** lines 43-44: the interest term *)
Definition shared_interests (pref : Preferences) (b : Profile) : gset string :=
  list_to_set (interests pref) ∩ list_to_set (interests (preferences b)).

Definition interest_term (pref : Preferences) (b : Profile) (score : F)
  : result F :=
  n ← float_of_int (Z.of_nat (size (shared_interests pref b)));
  Ok (score + lit 5 * n).

(** line 46: the completeness term; [0.1] is the float nearest to 1/10,
    the quotient of [1.0] by [10.0] *)
Definition completeness_term (b : Profile) (score : F) : result F :=
  c ← float_of_int (complete_percentage b);
  Ok (score + (lit 1 / lit 10) * c).

(** lines 48-53: the distance term *)
Definition distance_term (pref : Preferences) (a b : Profile) (score : F)
  : result F :=
  match location a, location b with
  | Some la, Some lb =>
      let dist := distance_km_to la lb in
      if fgt_int dist (max_distance_km pref) then
        m ← float_of_int (max_distance_km pref);
        Ok (score - (dist - m) * (lit 2 / lit 10))
      else
        m ← float_of_int (max_distance_km pref);
        d ← float_of_int (Z.max 1 (max_distance_km pref));
        q ← py_truediv (m - dist) d;
        Ok (score + py_max0 q * lit 10)
  | _, _ => Ok score
  end.

(** [score(a, b)]; [today] is [date.today()] and [rnd] the value drawn by
    [random.random()] *)
Definition score (today : date) (rnd : F) (a b : User) : result F :=
  match profile a, profile b with
  | Some pa, Some pb =>
      let score := lit 0 in
      let pref := preferences pa in
      let score := gender_term pref pb score in
      score ← age_term pref (age today pb) score;
      score ← interest_term pref pb score;
      score ← completeness_term pb score;
      score ← distance_term pref pa pb score;
      Ok (score + rnd * lit 2)
  | _, _ => Ok (lit (-1))
  end.

(** the loop of [compute_matches]; [rnd i] is the [i]-th value drawn by
    [random.random()], [i] counts the calls of [score] so far *)
Fixpoint scored_loop (today : date) (rnd : nat → F) (i : nat)
    (user : User) (candidates : list User) : result (list (F * User)) :=
  match candidates with
  | [] => Ok []
  | cand :: rest =>
      if (user_id cand =? user_id user)%N then
        scored_loop today rnd i user rest
      else
        s ← score today (rnd i) user cand;
        scored ← scored_loop today rnd (S i) user rest;
        Ok ((s, cand) :: scored)
  end.

(** [scored.sort(key=lambda x: x[0], reverse=True)]: a stable sort that
    compares keys with [<] only; among equal keys the original order is
    kept.  On keys that [<] orders totally every stable sort returns
    this list. *)
Fixpoint insert_desc (x : F * User) (l : list (F * User)) : list (F * User) :=
  match l with
  | [] => [x]
  | y :: l' => if x.1 <? y.1 then y :: insert_desc x l' else x :: l
  end.

Definition sort_desc (l : list (F * User)) : list (F * User) :=
  foldr insert_desc [] l.

(** [l[:k]] for an [int] [k]: a negative [k] counts from the end *)
Definition slice_to {A} (l : list A) (k : Z) : list A :=
  if (0 <=? k)%Z then take (Z.to_nat k) l
  else take (Z.to_nat (Z.of_nat (length l) + k)) l.

(** [scored[:top_k]] after the sort *)
Definition ranked (today : date) (rnd : nat → F) (user : User)
    (candidates : list User) (top_k : Z) : result (list (F * User)) :=
  scored ← scored_loop today rnd 0 user candidates;
  Ok (slice_to (sort_desc scored) top_k).

(** [compute_matches(user, candidates, top_k=10)]; [None] is the call
    that leaves [top_k] out *)
Definition compute_matches (today : date) (rnd : nat → F) (user : User)
    (candidates : list User) (top_k : option Z) : result (list User) :=
  let top_k := default 10%Z top_k in
  r ← ranked today rnd user candidates top_k;
  Ok (r.*2).

(** ** storage.py: InMemoryDB *)

Record InMemoryDB : Type := mkDB {
  users : gmap UUID User;
  swipes : gmap UUID Swipe;
  matches : gmap UUID Match;
}.

(** [InMemoryDB()] *)
Definition new_db : InMemoryDB := mkDB ∅ ∅ ∅.

(** [self.swipes.values()], [self.matches.values()] *)
Definition values {V} (m : gmap UUID V) : list V := (map_to_list m).*2.

Definition add_user (user : User) (self : InMemoryDB) : InMemoryDB :=
  mkDB (<[user_id user := user]> (users self)) (swipes self) (matches self).

Definition match_between (a b : User) (m : Match) : bool :=
  ((user_id (user_a m) =? user_id a)%N && (user_id (user_b m) =? user_id b)%N)
  || ((user_id (user_a m) =? user_id b)%N && (user_id (user_b m) =? user_id a)%N).

Fixpoint match_exists_loop (ms : list Match) (a b : User) : bool :=
  match ms with
  | [] => false
  | m :: ms' => if match_between a b m then true else match_exists_loop ms' a b
  end.

Definition _match_exists_between (self : InMemoryDB) (a b : User) : bool :=
  match_exists_loop (values (matches self)) a b.

(** the condition of line 32 *)
Definition reverse_like (swipe other : Swipe) : bool :=
  (user_id (from_user other) =? user_id (to_user swipe))%N
  && (user_id (to_user other) =? user_id (from_user swipe))%N
  && String.eqb (direction other) "like".

(** the loop of lines 31-36 over the swipes; [mid] and [now] are what
    [gen_uuid()] and [now()] return when [Match(...)] is built *)
Fixpoint add_swipe_loop (others : list Swipe) (swipe : Swipe)
    (mid : UUID) (now : datetime) (self : InMemoryDB)
    : option Match * InMemoryDB :=
  match others with
  | [] => (None, self)
  | other :: rest =>
      if reverse_like swipe other then
        if negb (_match_exists_between self (from_user swipe) (to_user swipe)) then
          let m := mkMatch mid (from_user swipe) (to_user swipe) now true in
          (Some m, mkDB (users self) (swipes self) (<[match_id m := m]> (matches self)))
        else add_swipe_loop rest swipe mid now self
      else add_swipe_loop rest swipe mid now self
  end.

Definition add_swipe (swipe : Swipe) (mid : UUID) (now : datetime)
    (self : InMemoryDB) : option Match * InMemoryDB :=
  let self := mkDB (users self) (<[swipe_id swipe := swipe]> (swipes self))
                   (matches self) in
  if String.eqb (direction swipe) "like" then
    add_swipe_loop (values (swipes self)) swipe mid now self
  else (None, self).

Definition add_match (m : Match) (self : InMemoryDB) : InMemoryDB :=
  mkDB (users self) (swipes self) (<[match_id m := m]> (matches self)).

(** [self.matches[mid].unmatch()] on the match object the store holds *)
Definition unmatch_stored (mid : UUID) (self : InMemoryDB) : InMemoryDB :=
  mkDB (users self) (swipes self) (alter unmatch mid (matches self)).

End Program.

Arguments float_of_int {F _}.
Arguments py_truediv {F _}.
Arguments py_max0 {F _}.
Arguments mkLocation {F}.
Arguments lat {F}.
Arguments lon {F}.
Arguments city {F}.
Arguments country {F}.
Arguments distance_km_to {F _}.
Arguments mkProfile {F}.
Arguments profile_id {F}.
Arguments display_name {F}.
Arguments birthdate {F}.
Arguments gender {F}.
Arguments bio {F}.
Arguments photos {F}.
Arguments location {F}.
Arguments preferences {F}.
Arguments profile_created_at {F}.
Arguments updated_at {F}.
Arguments complete_percentage {F _}.
Arguments age {F}.
Arguments mkUser {F}.
Arguments user_id {F}.
Arguments email {F}.
Arguments password_hash {F}.
Arguments user_created_at {F}.
Arguments last_login {F}.
Arguments user_is_active {F}.
Arguments profile {F}.
Arguments email_verified {F}.
Arguments mkSwipe {F}.
Arguments swipe_id {F}.
Arguments from_user {F}.
Arguments to_user {F}.
Arguments direction {F}.
Arguments timestamp {F}.
Arguments mkMatch {F}.
Arguments match_id {F}.
Arguments user_a {F}.
Arguments user_b {F}.
Arguments created_at {F}.
Arguments is_active {F}.
Arguments unmatch {F}.
Arguments other {F}.
Arguments gender_term {F _}.
Arguments age_term {F _}.
Arguments shared_interests {F}.
Arguments interest_term {F _}.
Arguments completeness_term {F _}.
Arguments distance_term {F _}.
Arguments score {F _}.
Arguments scored_loop {F _}.
Arguments insert_desc {F _}.
Arguments sort_desc {F _}.
Arguments ranked {F _}.
Arguments compute_matches {F _}.
Arguments mkDB {F}.
Arguments users {F}.
Arguments swipes {F}.
Arguments matches {F}.
Arguments new_db {F}.
Arguments add_user {F}.
Arguments match_between {F}.
Arguments match_exists_loop {F}.
Arguments _match_exists_between {F}.
Arguments reverse_like {F}.
Arguments add_swipe_loop {F}.
Arguments add_swipe {F}.
Arguments add_match {F}.
Arguments unmatch_stored {F}.

(** ** Traces of calls on a store *)

Inductive call (F : Type) : Type :=
  | CallAddSwipe (swipe : Swipe F) (mid : UUID) (now : datetime)
  | CallUnmatch (mid : UUID)
  | CallAddMatch (m : Match F).
Arguments CallAddSwipe {F}.
Arguments CallUnmatch {F}.
Arguments CallAddMatch {F}.

Definition do_call {F} (c : call F) (db : InMemoryDB F) : InMemoryDB F :=
  match c with
  | CallAddSwipe swipe mid now => (add_swipe swipe mid now db).2
  | CallUnmatch mid => unmatch_stored mid db
  | CallAddMatch m => add_match m db
  end.

(** the calls are made from left to right *)
Definition run {F} (cs : list (call F)) (db : InMemoryDB F) : InMemoryDB F :=
  foldl (λ db c, do_call c db) db cs.

(** a call that leaves every stored match in the collection: a swipe or a
    deactivation, not [add_match] *)
Definition swipe_or_unmatch {F} (c : call F) : bool :=
  match c with
  | CallAddMatch _ => false
  | _ => true
  end.

(** two matches reference the same unordered pair of user identifiers *)
Definition same_pair {F} (m1 m2 : Match F) : bool :=
  match_between (user_a m2) (user_b m2) m1.

(** at most one stored match per unordered pair *)
Definition unique_pairs {F} (db : InMemoryDB F) : Prop :=
  ∀ i j mi mj,
    matches db !! i = Some mi → matches db !! j = Some mj →
    same_pair mi mj = true → i = j.

(** ** The two readings of [float] *)

Definition Rltb (x y : R) : bool := if Rlt_dec x y then true else false.
Definition Reqb (x y : R) : bool := if Req_dec_T x y then true else false.
Definition Rtrunc (x : R) : Z :=
  if Rlt_dec x 0 then (- Int_part (- x))%Z else Int_part x.

(** exact arithmetic: every [int] fits, no operation rounds; [x ** 0.5]
    is the square root (its operand in [distance_km_to] is a sum of
    squares) *)
#[global] Instance Exact : PyFloat R := {|
  float_of_Z := IZR;
  float_fits := λ _, true;
  fadd := Rplus;
  fsub := Rminus;
  fmul := Rmult;
  fdiv := Rdiv;
  fsqrt := sqrt;
  fltb := Rltb;
  fis_zero := λ x, Reqb x 0;
  fgt_int := λ x n, Rltb (IZR n) x;
  ftrunc := Rtrunc;
|}.

(** binary64: [float(n)] rounds to nearest-even and overflows when the
    rounded value is infinite; [x ** 0.5] is taken as the correctly rounded
    square root *)
Definition b64_of_Z (n : Z) : float :=
  SF2Prim (binary_normalize prec emax n 0 false).

Definition b64_signed (s : bool) (m : positive) : Z :=
  if s then Z.neg m else Z.pos m.

Definition b64_gt_int (x : float) (n : Z) : bool :=
  match Prim2SF x with
  | S754_nan => false
  | S754_infinity s => negb s
  | S754_zero _ => (n <? 0)%Z
  | S754_finite s m e =>
      if (0 <=? e)%Z then (n <? b64_signed s m * 2 ^ e)%Z
      else (n * 2 ^ (- e) <? b64_signed s m)%Z
  end.

(** [int(x)] of a finite [x]; [int] of an infinity or a NaN raises in
    Python and is 0 here: [complete_percentage] truncates a number between
    0 and 100 *)
Definition b64_trunc (x : float) : Z :=
  match Prim2SF x with
  | S754_finite s m e =>
      if (0 <=? e)%Z then (b64_signed s m * 2 ^ e)%Z
      else Z.quot (b64_signed s m) (2 ^ (- e))
  | _ => 0%Z
  end.

#[global] Instance Binary64 : PyFloat float := {|
  float_of_Z := b64_of_Z;
  float_fits := λ n, PrimFloat.is_finite (b64_of_Z n);
  fadd := PrimFloat.add;
  fsub := PrimFloat.sub;
  fmul := PrimFloat.mul;
  fdiv := PrimFloat.div;
  fsqrt := PrimFloat.sqrt;
  fltb := PrimFloat.ltb;
  fis_zero := λ x, PrimFloat.eqb x 0%float;
  fgt_int := b64_gt_int;
  ftrunc := b64_trunc;
|}.

(** ** Sample data, after the helpers of the test suite *)

(** [make_user_with_profile]: a profile with a name, a birthdate, a bio
    and one photo *)
Definition make_user {F} (index : N) (g : option Gender) (bd : option date)
    (tags : list string) (prefs : Preferences) (loc : option (Location F))
    : User F :=
  let prefs := mkPreferences (gender_preference prefs) (age_min prefs)
                 (age_max prefs) (max_distance_km prefs) tags in
  let p := mkProfile (1000 + index)%N "User" bd g "bio"
             [mkPhoto (2000 + index)%N "https://cdn.example.com/photos/1.jpg" 0 (Some 0%Z)]
             loc prefs 0%Z 0%Z in
  mkUser index "u@example.com" "" 0%Z None true (Some p) false.

(** [User(email=...)]: no profile *)
Definition bare_user {F} (index : N) : User F :=
  mkUser index "a@example.com" "" 0%Z None true None false.

Definition today0 : date := mkdate 2024 6 15.

(** the candidate's profile with another list of interest tags, all else
    equal *)
Definition with_interests {F} (tags : list string) (u : User F) : User F :=
  match profile u with
  | None => u
  | Some p =>
      let q := preferences p in
      let q' := mkPreferences (gender_preference q) (age_min q) (age_max q)
                  (max_distance_km q) tags in
      let p' := mkProfile (profile_id p) (display_name p) (birthdate p)
                  (gender p) (bio p) (photos p) (location p) q'
                  (profile_created_at p) (updated_at p) in
      mkUser (user_id u) (email u) (password_hash u) (user_created_at u)
             (last_login u) (user_is_active u) (Some p') (email_verified u)
  end.

(** ** Auxiliary definitions of the statements below *)

(** the store after the first statement of [add_swipe]: the swipe is
    in the log *)
Definition logged {F} (swipe : Swipe F) (db : InMemoryDB F) : InMemoryDB F :=
  mkDB (users db) (<[swipe_id swipe := swipe]> (swipes db)) (matches db).

Definition alice : User float :=
  make_user 1 (Some FEMALE) (Some (mkdate 1996 1 1)) [] default_Preferences None.

Definition bob : User float :=
  make_user 2 (Some MALE) (Some (mkdate 1997 1 1)) [] default_Preferences None.

(** reciprocal likes, a deactivation of the match, and the likes again *)
Definition like_unlike_like : list (call float) :=
  [ CallAddSwipe (mkSwipe 11 alice bob "like" 0%Z) 21 1%Z;
    CallAddSwipe (mkSwipe 12 bob alice "like" 0%Z) 22 2%Z;
    CallUnmatch 22;
    CallAddSwipe (mkSwipe 13 alice bob "like" 0%Z) 23 3%Z;
    CallAddSwipe (mkSwipe 14 bob alice "like" 0%Z) 24 4%Z ].

(** a candidate born on [today0] *)
Definition newborn64 : User float :=
  make_user 4 (Some FEMALE) (Some today0) [] default_Preferences None.

Definition viewer64 : User float :=
  make_user 1 (Some FEMALE) (Some (mkdate 1994 1 1)) ["hiking"; "coffee"]
    default_Preferences None.

Definition cand_shared64 : User float :=
  make_user 2 (Some FEMALE) (Some (mkdate 1994 1 1)) ["hiking"; "coffee"]
    default_Preferences None.

Definition cand_movies64 : User float :=
  make_user 3 (Some FEMALE) (Some (mkdate 1994 1 1)) ["movies"]
    default_Preferences None.

(** the scores of a ranked list descend *)
Definition descending (l : list (R * User R)) : Prop :=
  StronglySorted (λ x y : R, (y <= x)%R) l.*1.

Definition viewerR : User R :=
  make_user 1 (Some FEMALE) (Some (mkdate 1994 1 1)) ["hiking"; "coffee"]
    default_Preferences (Some (mkLocation 37%R (-122)%R "" "")).

Definition candR (index : N) (tags : list string) : User R :=
  make_user index (Some FEMALE) (Some (mkdate 1994 1 1)) tags
    default_Preferences (Some (mkLocation 38%R (-123)%R "" "")).

(** what the age term and the distance term add to the score, in exact
    arithmetic *)
Definition age_delta (pref : Preferences) (b_age : option Z) : R :=
  match age_term pref b_age 0%R with Ok x => x | Raise _ => 0%R end.

Definition distance_delta (pref : Preferences) (pa pb : Profile R) : R :=
  match distance_term pref pa pb 0%R with Ok x => x | Raise _ => 0%R end.

(** the number of tags shared with a list of tags *)
Definition shared_count (pa : Profile R) (tags : list string) : nat :=
  size (list_to_set (interests (preferences pa)) ∩ list_to_set tags : gset string).

Definition origin64 : User float :=
  make_user 1 (Some FEMALE) (Some (mkdate 1994 1 1)) []
    default_Preferences (Some (mkLocation 0%float 0%float "" "")).

Definition far64 : User float :=
  make_user 2 (Some FEMALE) (Some (mkdate 1994 1 1)) []
    default_Preferences (Some (mkLocation 1e200%float 0%float "" "")).

(** ** Magnitudes of binary64 numbers *)

(** [mag_le k x]: [x] is a zero or a finite number with [|x| < 2 ^ k] *)
Definition mag_le (k : Z) (x : spec_float) : Prop :=
  match x with
  | S754_zero _ => True
  | S754_finite _ m e => (Zpos (digits2_pos m) + e <= k)%Z
  | _ => False
  end.

Definition fexp64 : Z → Z := fexp prec emax.

(** [mag_ge1 y]: [y] is finite and [|y| >= 1] *)
Definition mag_ge1 (y : spec_float) : Prop :=
  match y with
  | S754_finite _ m e => (1 <= Zpos (digits2_pos m) + e)%Z
  | _ => False
  end.

(** the sign bit of a finite number that is not negative *)
Definition nonneg (x : spec_float) : Prop :=
  match x with
  | S754_finite s _ _ => s = false
  | _ => True
  end.

(** [b64_below k x]: the float [x] is finite and [|x| < 2 ^ k] *)
Definition b64_below (k : Z) (x : float) : Prop := mag_le k (Prim2SF x).

(** a [date] of Python: the year is between [MINYEAR] and [MAXYEAR] *)
Definition date_ok (d : date) : Prop := (1 <= year d <= 9999)%Z.

(** preferences whose integers are below 2^62 in magnitude and whose
    list of interest tags has fewer than 2^62 entries *)
Definition moderate_prefs (q : Preferences) : Prop :=
  (Z.abs (age_min q) < 2 ^ 62)%Z ∧ (Z.abs (age_max q) < 2 ^ 62)%Z
  ∧ (Z.abs (max_distance_km q) < 2 ^ 62)%Z
  ∧ (Z.of_nat (length (interests q)) < 2 ^ 62)%Z.

(** a profile with such preferences, a birthdate that is a date, and
    coordinates that are finite and below 2^256 in magnitude *)
Definition moderate_profile (p : Profile float) : Prop :=
  moderate_prefs (preferences p)
  ∧ (∀ bd, birthdate p = Some bd → date_ok bd)
  ∧ (∀ l, location p = Some l → b64_below 256 (lat l) ∧ b64_below 256 (lon l)).

Definition moderate_user (u : User float) : Prop :=
  ∀ p, profile u = Some p → moderate_profile p.

(** two users with coordinates in degrees; the first accepts no distance *)
Definition sf64 : User float :=
  make_user 1 (Some FEMALE) (Some (mkdate 1994 1 1)) ["hiking"; "coffee"]
    (mkPreferences [FEMALE] 25 35 0 []) (Some (mkLocation 37%float (-122)%float "" "")).

Definition oakland64 : User float :=
  make_user 2 (Some FEMALE) (Some (mkdate 1990 8 1)) ["coffee"]
    default_Preferences (Some (mkLocation 37.8%float (-122.3)%float "" "")).

(** a viewer whose [age_min] is an integer that no float holds *)
Definition picky64 : User float :=
  make_user 3 (Some FEMALE) (Some (mkdate 1994 1 1)) []
    (mkPreferences [FEMALE] (2 ^ 1024) (2 ^ 1024) 100 []) None.

(** a key that orders the binary64 numbers other than NaN as
    [SFcompare] does: the class, then the exponent and the mantissa,
    negated for negative numbers *)
Definition sf_rank (x : spec_float) : Z * Z * Z :=
  match x with
  | S754_infinity true => (-2, 0, 0)%Z
  | S754_finite true m e => (-1, - e, Z.neg m)%Z
  | S754_zero _ => (0, 0, 0)%Z
  | S754_finite false m e => (1, e, Z.pos m)%Z
  | S754_infinity false => (2, 0, 0)%Z
  | S754_nan => (3, 0, 0)%Z
  end.

Definition lex_compare (t u : Z * Z * Z) : comparison :=
  match (t.1.1 ?= u.1.1)%Z with
  | Eq => match (t.1.2 ?= u.1.2)%Z with
          | Eq => (t.2 ?= u.2)%Z
          | c => c
          end
  | c => c
  end.

(** the scores of a ranked list descend, in binary64 *)
Definition descending64 (l : list (float * User float)) : Prop :=
  StronglySorted (λ x y : float, PrimFloat.leb y x = true) l.*1.

(** ** storage.py: find_user_by_email *)

(** [str.lower()], for a [str] of code points below 256: the letters A-Z
    and the capital letters of Latin-1 (all of 192-222 but the
    multiplication sign) move up by 32, nothing else changes *)
Definition chr_lower (c : Ascii.ascii) : Ascii.ascii :=
  let n := Ascii.N_of_ascii c in
  if ((65 <=? n) && (n <=? 90) || (192 <=? n) && (n <=? 222) && negb (n =? 215))%N
  then Ascii.ascii_of_N (n + 32) else c.

Fixpoint lower (s : string) : string :=
  match s with
  | EmptyString => EmptyString
  | String c s' => String (chr_lower c) (lower s')
  end.

(** [find_user_by_email]; [us] is [self.users.values()], the stored users
    in the order of the dictionary *)
Fixpoint find_user_by_email {F} (us : list (User F)) (addr : string)
    : option (User F) :=
  match us with
  | [] => None
  | u :: rest =>
      if String.eqb (lower (email u)) (lower addr) then Some u
      else find_user_by_email rest addr
  end.

(** [us] lists the users that the store holds, each stored entry once, in
    some order: the order of a dictionary is the order in which its keys
    were first inserted, which the store as a finite map does not keep *)
Definition users_values {F} (db : InMemoryDB F) (us : list (User F)) : Prop :=
  us ≡ₚ values (users db).

(** two accounts whose addresses differ in case only, and a third one *)
Definition carol : User float :=
  mkUser 3 "Carol@Example.com" "" 0%Z None true None false.

Definition carol2 : User float :=
  mkUser 4 "carol@example.COM" "" 0%Z None true None false.

Definition dave : User float :=
  mkUser 5 "dave@example.com" "" 0%Z None true None false.

(** ** Dates and profiles *)

(** [d1 <= d2] on dates: the order of the triples (year, month, day) *)
Definition date_leb (d1 d2 : date) : bool :=
  (year d1 <? year d2)%Z
  || ((year d1 =? year d2)%Z
      && negb (tuple_lt (month d2, day d2) (month d1, day d1))).

(** the number of the six fields that [complete_percentage] finds filled *)
Definition filled_fields {F} (p : Profile F) : Z :=
  Z.b2z (str_truthy (display_name p)) + Z.b2z (opt_truthy (birthdate p))
  + Z.b2z (opt_truthy (gender p)) + Z.b2z (str_truthy (bio p))
  + Z.b2z (list_truthy (photos p)) + Z.b2z (opt_truthy (location p)).

(** ** The candidates that [compute_matches] ranks *)

(** the candidates other than the viewer, in the order of the list *)
Definition others_of {F} (viewer : User F) (candidates : list (User F))
    : list (User F) :=
  filter (λ c, user_id c ≠ user_id viewer) candidates.

(** ** models.py: Photo *)

(** [str(photo_id)]: the 128 bits of a UUID as 32 hexadecimal digits, the
    most significant first, in groups of 8, 4, 4, 4 and 12 digits
    separated by hyphens; the digits 0-9 are the characters 48-57 and the
    digits a-f the characters 97-102 *)
Definition hex_digit (n : N) : Ascii.ascii :=
  Ascii.ascii_of_N (if (n <? 10)%N then 48 + n else 87 + n)%N.

Fixpoint hex_digits (k : nat) (n : N) : list Ascii.ascii :=
  match k with
  | O => []
  | S k' => hex_digits k' (n / 16)%N ++ [hex_digit (n mod 16)%N]
  end.

(** the character [-] *)
Definition hyphen : Ascii.ascii := Ascii.ascii_of_N 45.

(** [f'{x[:8]}-{x[8:12]}-{x[12:16]}-{x[16:20]}-{x[20:]}'] *)
Definition hyphenate (x : list Ascii.ascii) : list Ascii.ascii :=
  take 8 x ++ hyphen :: take 4 (drop 8 x) ++ hyphen :: take 4 (drop 12 x)
  ++ hyphen :: take 4 (drop 16 x) ++ hyphen :: drop 20 x.

Definition uuid_chars (u : UUID) : list Ascii.ascii := hyphenate (hex_digits 32 u).

Definition uuid_str (u : UUID) : string := String.string_of_list_ascii (uuid_chars u).

(** [f"https://cdn.example.com/photos/{self.photo_id}.jpg"] *)
Definition default_url (id : UUID) : string :=
  String.append "https://cdn.example.com/photos/" (String.append (uuid_str id) ".jpg").

(** [upload]; [now] is what [now()] returns *)
Definition upload (now : datetime) (self : Photo) : Photo :=
  let self := mkPhoto (photo_id self) (url self) (order self) (Some now) in
  if negb (str_truthy (url self))
  then mkPhoto (photo_id self) (default_url (photo_id self)) (order self) (uploaded_at self)
  else self.

(** [delete] *)
Definition Photo_delete (self : Photo) : Photo :=
  let self := mkPhoto (photo_id self) "" (order self) (uploaded_at self) in
  mkPhoto (photo_id self) (url self) (order self) None.

(** ** models.py: the photos of a profile *)

(** A profile holds its photos by reference, and [add_photo] and
    [remove_photo] write to the Photo objects themselves.  [objects] is
    the state of every Photo object, under the identity of the object;
    [photo_refs] is the list [self.photos], a list of identities;
    [album_updated_at] is [self.updated_at]. *)
Record ProfilePhotos : Type := mkProfilePhotos {
  objects : gmap N Photo;
  photo_refs : list N;
  album_updated_at : datetime;
}.

(** [p.order = i] *)
Definition set_order (i : Z) (p : Photo) : Photo :=
  mkPhoto (photo_id p) (url p) i (uploaded_at p).

(** [self.photos] as the states of the objects it refers to *)
Definition photos_of (self : ProfilePhotos) : list Photo :=
  omap (λ r, objects self !! r) (photo_refs self).

(** [add_photo(photo)]; [photo] is the identity of the object passed,
    [t_upload] and [t_update] are what the two calls of [now()] return *)
Definition add_photo (photo : N) (t_upload t_update : datetime)
    (self : ProfilePhotos) : ProfilePhotos :=
  let objs := alter (set_order (Z.of_nat (length (photo_refs self)))) photo
                (objects self) in
  let objs := alter (upload t_upload) photo objs in
  mkProfilePhotos objs (photo_refs self ++ [photo]) t_update.

(** [for i, p in enumerate(self.photos): p.order = i], from the index [i] on *)
Fixpoint renumber (i : nat) (refs : list N) (objs : gmap N Photo)
    : gmap N Photo :=
  match refs with
  | [] => objs
  | r :: rest => renumber (S i) rest (alter (set_order (Z.of_nat i)) r objs)
  end.

(** [p.photo_id != photo_id] for the object [r] *)
Definition other_photo (objs : gmap N Photo) (id : UUID) (r : N) : bool :=
  match objs !! r with
  | Some p => negb (photo_id p =? id)%N
  | None => false
  end.

(** [remove_photo(photo_id)] *)
Definition remove_photo (id : UUID) (now : datetime) (self : ProfilePhotos)
    : ProfilePhotos :=
  let refs := filter (λ r, other_photo (objects self) id r = true) (photo_refs self) in
  mkProfilePhotos (renumber 0 refs (objects self)) refs now.

(** the list refers to objects that exist, to none of them twice *)
Definition album_ok (self : ProfilePhotos) : Prop :=
  NoDup (photo_refs self) ∧ ∀ r, r ∈ photo_refs self → is_Some (objects self !! r).

(** every photo of the list has its index as its order *)
Definition numbered (self : ProfilePhotos) : Prop :=
  ∀ i p, photos_of self !! i = Some p → order p = Z.of_nat i.

(** two Photo objects, and the profile without photos that can see them *)
Definition two_photos : ProfilePhotos :=
  mkProfilePhotos {[ 1%N := mkPhoto 101 "" 0 None;
                     2%N := mkPhoto 102 "https://example.com/b.jpg" 0 None ]} [] 0%Z.

(** ** models.py: Message and Conversation *)

(** the exceptions that the methods of the models raise themselves *)
Inductive ModelError : Type :=
  | ValueError (msg : string)
  | TypeError (msg : string).

Record Message (F : Type) : Type := mkMessage {
  message_id : UUID;
  sender : User F;
  content : string;
  sent_at : datetime;
  edited_at : option datetime;
  is_read : bool;
}.
Arguments mkMessage {F}.
Arguments message_id {F}.
Arguments sender {F}.
Arguments content {F}.
Arguments sent_at {F}.
Arguments edited_at {F}.
Arguments is_read {F}.

Record Conversation (F : Type) : Type := mkConversation {
  conversation_id : UUID;
  participants : list (User F);
  conversation_created_at : datetime;
  last_message_at : option datetime;
  messages : list (Message F);
}.
Arguments mkConversation {F}.
Arguments conversation_id {F}.
Arguments participants {F}.
Arguments conversation_created_at {F}.
Arguments last_message_at {F}.
Arguments messages {F}.

(** [any(p.user_id == user.user_id for p in self.participants)] *)
Definition any_participant {F} (self : Conversation F) (user : User F) : bool :=
  existsb (λ p, (user_id p =? user_id user)%N) (participants self).

(** [send_message(m)]: the message returned and the conversation after
    the call, or the exception *)
Definition send_message {F} (m : Message F) (self : Conversation F)
    : ModelError + Message F * Conversation F :=
  if negb (any_participant self (sender m))
  then inl (ValueError "Sender not in conversation participants")
  else
    let self := mkConversation (conversation_id self) (participants self)
                  (conversation_created_at self) (last_message_at self)
                  (messages self ++ [m]) in
    let self := mkConversation (conversation_id self) (participants self)
                  (conversation_created_at self) (Some (sent_at m))
                  (messages self) in
    inr (m, self).

(** [add_participant(user)] *)
Definition add_participant {F} (user : User F) (self : Conversation F)
    : Conversation F :=
  if negb (any_participant self user)
  then mkConversation (conversation_id self) (participants self ++ [user])
         (conversation_created_at self) (last_message_at self) (messages self)
  else self.

(** [Conversation(participants=ps)]; [cid] and [now] are what
    [gen_uuid()] and [now()] return *)
Definition new_conversation {F} (cid : UUID) (now : datetime)
    (ps : list (User F)) : Conversation F :=
  mkConversation cid ps now None [].

(** calls on a conversation; a caller that catches the exception of
    [send_message] goes on with the conversation as it was *)
Inductive conversation_call (F : Type) : Type :=
  | CallSendMessage (m : Message F)
  | CallAddParticipant (user : User F).
Arguments CallSendMessage {F}.
Arguments CallAddParticipant {F}.

Definition do_conversation_call {F} (c : conversation_call F)
    (self : Conversation F) : Conversation F :=
  match c with
  | CallSendMessage m =>
      match send_message m self with
      | inr (_, self') => self'
      | inl _ => self
      end
  | CallAddParticipant user => add_participant user self
  end.

Definition run_conversation {F} (cs : list (conversation_call F))
    (self : Conversation F) : Conversation F :=
  foldl (λ self c, do_conversation_call c self) self cs.

(** every message was sent by a participant, and [last_message_at] is
    the time of the last message, [None] when there is none *)
Definition conversation_ok {F} (self : Conversation F) : Prop :=
  (∀ m, m ∈ messages self → any_participant self (sender m) = true)
  ∧ last_message_at self = sent_at <$> last (messages self).

(** ** models.py: Subscription, Payment, Notification and Report *)

Record Subscription (F : Type) : Type := mkSubscription {
  sub_id : UUID;
  sub_user : User F;
  tier : string;
  started_at : datetime;
  expires_at : option datetime;
}.
Arguments mkSubscription {F}.
Arguments sub_id {F}.
Arguments sub_user {F}.
Arguments tier {F}.
Arguments started_at {F}.
Arguments expires_at {F}.

(** [is_active]; [now] is what [now()] returns; a [datetime] is always
    true, so [not self.expires_at] holds of [None] only *)
Definition Subscription_is_active {F} (now : datetime) (self : Subscription F)
    : bool :=
  if String.eqb (tier self) "free" then true
  else
    match expires_at self with
    | None => false
    | Some e => (now <? e)%Z
    end.

(** the values that the field [amount] may hold: nothing checks the
    annotation [float] *)
Inductive PyValue (F : Type) : Type :=
  | PyInt (n : Z)
  | PyBool (b : bool)
  | PyFloatValue (x : F)
  | PyStr (s : string)
  | PyNone.
Arguments PyInt {F}.
Arguments PyBool {F}.
Arguments PyFloatValue {F}.
Arguments PyStr {F}.
Arguments PyNone {F}.

(** [isinstance(v, (int, float))]; [bool] is a subclass of [int] *)
Definition is_number {F} (v : PyValue F) : bool :=
  match v with
  | PyInt _ | PyBool _ | PyFloatValue _ => true
  | PyStr _ | PyNone => false
  end.

Record Payment (F : Type) : Type := mkPayment {
  payment_id : UUID;
  payment_user : User F;
  amount : PyValue F;
  currency : string;
  status : string;
  payment_created_at : datetime;
}.
Arguments mkPayment {F}.
Arguments payment_id {F}.
Arguments payment_user {F}.
Arguments amount {F}.
Arguments currency {F}.
Arguments status {F}.
Arguments payment_created_at {F}.

(** [charge]; [rnd] is what [random.random()] returns, [0.1] the quotient
    of [1.0] by [10.0] *)
Definition charge {F} `{PyFloat F} (rnd : F) (self : Payment F)
    : ModelError + bool * Payment F :=
  if negb (is_number (amount self))
  then inl (TypeError "amount must be a number")
  else
    let success := fltb (fdiv (float_of_Z 1) (float_of_Z 10)) rnd in
    let self := mkPayment (payment_id self) (payment_user self) (amount self)
                  (currency self) (if success then "succeeded" else "failed")
                  (payment_created_at self) in
    inr (success, self).

Record Notification (F : Type) : Type := mkNotification {
  notification_id : UUID;
  notification_user : User F;
  notification_type : string;
  payload : gmap string (option string);
  notification_sent_at : datetime;
  read_at : option datetime;
}.
Arguments mkNotification {F}.
Arguments notification_id {F}.
Arguments notification_user {F}.
Arguments notification_type {F}.
Arguments payload {F}.
Arguments notification_sent_at {F}.
Arguments read_at {F}.

Record Report (F : Type) : Type := mkReport {
  report_id : UUID;
  reporter : User F;
  reported_user : User F;
  reason : string;
  report_created_at : datetime;
  resolved_at : option datetime;
  resolution : option string;
}.
Arguments mkReport {F}.
Arguments report_id {F}.
Arguments reporter {F}.
Arguments reported_user {F}.
Arguments reason {F}.
Arguments report_created_at {F}.
Arguments resolved_at {F}.
Arguments resolution {F}.

(** ** storage.py: the other five dictionaries of InMemoryDB *)

Record Collections (F : Type) : Type := mkCollections {
  conversations : gmap UUID (Conversation F);
  notifications : gmap UUID (Notification F);
  reports : gmap UUID (Report F);
  subscriptions : gmap UUID (Subscription F);
  payments : gmap UUID (Payment F);
}.
Arguments mkCollections {F}.
Arguments conversations {F}.
Arguments notifications {F}.
Arguments reports {F}.
Arguments subscriptions {F}.
Arguments payments {F}.

Definition new_collections {F} : Collections F := mkCollections ∅ ∅ ∅ ∅ ∅.

Definition add_conversation {F} (conv : Conversation F) (self : Collections F)
    : Collections F :=
  mkCollections (<[conversation_id conv := conv]> (conversations self))
    (notifications self) (reports self) (subscriptions self) (payments self).

Definition add_notification {F} (note : Notification F) (self : Collections F)
    : Collections F :=
  mkCollections (conversations self)
    (<[notification_id note := note]> (notifications self))
    (reports self) (subscriptions self) (payments self).

Definition add_report {F} (report : Report F) (self : Collections F)
    : Collections F :=
  mkCollections (conversations self) (notifications self)
    (<[report_id report := report]> (reports self))
    (subscriptions self) (payments self).

Definition add_subscription {F} (sub : Subscription F) (self : Collections F)
    : Collections F :=
  mkCollections (conversations self) (notifications self) (reports self)
    (<[sub_id sub := sub]> (subscriptions self)) (payments self).

Definition add_payment {F} (payment : Payment F) (self : Collections F)
    : Collections F :=
  mkCollections (conversations self) (notifications self) (reports self)
    (subscriptions self) (<[payment_id payment := payment]> (payments self)).

(** ** models.py: the methods of User *)

(** [User(email=...)]; [uid] and [now] are what [gen_uuid()] and [now()]
    return *)
Definition new_user {F} (uid : UUID) (now : datetime) (addr : string) : User F :=
  mkUser uid addr "" now None true None false.

(** [set_password] and [verify_password]; [hash_password] is the SHA-256
    digest in hexadecimal, taken as a function from strings to strings *)
Definition set_password {F} (hash_password : string → string) (password : string)
    (self : User F) : User F :=
  mkUser (user_id self) (email self) (hash_password password) (user_created_at self)
         (last_login self) (user_is_active self) (profile self) (email_verified self).

Definition verify_password {F} (hash_password : string → string) (password : string)
    (self : User F) : bool :=
  String.eqb (password_hash self) (hash_password password).

(** [verify_email]: the value returned and the user after the call *)
Definition verify_email {F} (self : User F) : bool * User F :=
  let self := mkUser (user_id self) (email self) (password_hash self)
                (user_created_at self) (last_login self) (user_is_active self)
                (profile self) true in
  (email_verified self, self).

(** [update_profile(p)]; [now] is what [now()] returns *)
Definition update_profile {F} (p : Profile F) (now : datetime) (self : User F)
    : User F :=
  let p := mkProfile (profile_id p) (display_name p) (birthdate p) (gender p)
             (bio p) (photos p) (location p) (preferences p)
             (profile_created_at p) now in
  mkUser (user_id self) (email self) (password_hash self) (user_created_at self)
         (last_login self) (user_is_active self) (Some p) (email_verified self).

(** [login] *)
Definition login {F} (now : datetime) (self : User F) : User F :=
  mkUser (user_id self) (email self) (password_hash self) (user_created_at self)
         (Some now) (user_is_active self) (profile self) (email_verified self).

(** ** main.py: demo_setup *)

(** what one turn of the loop of [demo_setup] reads from its
    environment, in the order of the reads: identifiers from [gen_uuid()],
    times from [now()], genders from [random.choice(genders)] *)
Record DemoEnv : Type := mkDemoEnv {
  env_user_id : UUID;
  env_user_created_at : datetime;
  env_gender : Gender;
  env_profile_id : UUID;
  env_profile_created_at : datetime;
  env_profile_updated_at : datetime;
  env_gender_preference : Gender;
  env_photo_id : UUID;
  env_uploaded_at : datetime;
  env_photo_added_at : datetime;
  env_profile_set_at : datetime;
}.

Definition base_lat : float := 37.7749%float.
Definition base_lon : float := (-122.4194)%float.

(** the body of the loop of [demo_setup] for the index [i], up to the
    call of [db.add_user]: the user made; [i * 0.01] converts [i] to a
    float, which raises for an [i] that no float holds.  The list of
    photos of the new profile is empty, and the new Photo object, [Photo()],
    is the object of identity 0. *)
Definition demo_user (hash_password : string → string) (env : DemoEnv) (i : Z)
    : result (User float) :=
  let u := new_user (env_user_id env) (env_user_created_at env)
             ("user" +:+ pretty i +:+ "@example.com") in
  let u := set_password hash_password "password123" u in
  let u := (verify_email u).2 in
  x ← float_of_int i;
  let p := mkProfile (env_profile_id env) ("User" +:+ pretty i)
             (Some (mkdate (1990 + i `mod` 10) (1 + i `mod` 12) (1 + i `mod` 28)))
             (Some (env_gender env))
             ("This is a short bio for user " +:+ pretty i
              +:+ ". Likes hiking and coffee.")
             []
             (Some (mkLocation (base_lat + x * 0.01)%float (base_lon + x * 0.01)%float
                      "DemoCity" "DemoLand"))
             default_Preferences
             (env_profile_created_at env) (env_profile_updated_at env) in
  let prefs := mkPreferences [env_gender_preference env] (20 + i `mod` 5)
                 (40 + i `mod` 10) (50 + i * 5)
                 (if (i `mod` 2 =? 0)%Z then ["hiking"; "coffee"]
                  else ["movies"; "music"]) in
  let album := add_photo 0 (env_uploaded_at env) (env_photo_added_at env)
                 (mkProfilePhotos {[ 0%N := mkPhoto (env_photo_id env) "" 0 None ]}
                    [] (updated_at p)) in
  let p := mkProfile (profile_id p) (display_name p) (birthdate p) (gender p)
             (bio p) (photos_of album) (location p) prefs
             (profile_created_at p) (album_updated_at album) in
  Ok (update_profile p (env_profile_set_at env) u).

(** the loop of [demo_setup] over the indices that are left *)
Fixpoint demo_setup_loop (hash_password : string → string) (envs : nat → DemoEnv)
    (indices : list nat) (db : InMemoryDB float) (sample_users : list (User float))
    : result (list (User float) * InMemoryDB float) :=
  match indices with
  | [] => Ok (sample_users, db)
  | i :: rest =>
      u ← demo_user hash_password (envs i) (Z.of_nat i);
      demo_setup_loop hash_password envs rest (add_user u db) (sample_users ++ [u])
  end.

(** [demo_setup(db, n)]: the list returned and the store after the call;
    [envs i] is the environment of the turn [i] *)
Definition demo_setup (hash_password : string → string) (envs : nat → DemoEnv)
    (db : InMemoryDB float) (n : Z)
    : result (list (User float) * InMemoryDB float) :=
  demo_setup_loop hash_password envs (seq 0 (Z.to_nat n)) db [].

(** an environment and a hash function to run the demo with *)
Definition sample_env (i : nat) : DemoEnv :=
  mkDemoEnv (N.of_nat i + 1) 0%Z (if Nat.even i then FEMALE else MALE)
    (N.of_nat i + 101) 0%Z 0%Z MALE (N.of_nat i + 201) 0%Z 0%Z 0%Z.

Definition sample_hash (s : string) : string := "#" +:+ s.

(** the demo users of a run with three users, and the store *)
Definition sample_demo : list (User float) * InMemoryDB float :=
  match demo_setup sample_hash sample_env new_db 3 with
  | Ok r => r
  | Raise _ => ([], new_db)
  end.

(** ** main.py: demo_run *)

(** [t + timedelta(days=d)]; a tick of a [datetime] is a microsecond, the
    tick 0 is [datetime.min], and a sum after [datetime.max] raises *)
Definition datetime_max : datetime := 315537897599999999%Z.

Definition add_days (t : datetime) (d : Z) : result datetime :=
  let t' := (t + d * 86400000000)%Z in
  if ((0 <=? t') && (t' <=? datetime_max))%Z then Ok t' else Raise OverflowError.

(** the exceptions of a run of the demo *)
Inductive DemoError : Type :=
  | Raised (e : PyError)
  | RaisedByModel (e : ModelError)
  | AttributeError
  | IndexError.

Definition demo_bind {A B} (m : DemoError + A) (f : A → DemoError + B)
    : DemoError + B :=
  match m with
  | inl e => inl e
  | inr a => f a
  end.

Notation "x ⇐ m ; k" := (demo_bind m (λ x, k))
  (at level 20, m at level 100, k at level 200, right associativity, only parsing).

Definition of_result {A} (r : result A) : DemoError + A :=
  match r with
  | Ok a => inr a
  | Raise e => inl (Raised e)
  end.

Definition of_model {A} (r : ModelError + A) : DemoError + A :=
  match r with
  | inr a => inr a
  | inl e => inl (RaisedByModel e)
  end.

(** [l[i]] for an index that is not negative *)
Definition item {A} (l : list A) (i : nat) : DemoError + A :=
  match l !! i with
  | Some a => inr a
  | None => inl IndexError
  end.

(** [u.profile.display_name] *)
Definition profile_display_name {F} (u : User F) : DemoError + string :=
  match profile u with
  | Some p => inr (display_name p)
  | None => inl AttributeError
  end.

(** [[m.profile.display_name for m in matches]] *)
Fixpoint display_names {F} (matches : list (User F)) : DemoError + list string :=
  match matches with
  | [] => inr []
  | m :: rest =>
      name ⇐ profile_display_name m;
      names ⇐ display_names rest;
      inr (name :: names)
  end.

(** what [demo_run] reads from its environment after [demo_setup]:
    today's date and the draws of the scores, then, in the order of the
    reads, identifiers from [gen_uuid()], times from [now()] and the draw
    of [charge] *)
Record RunEnv : Type := mkRunEnv {
  run_today : date;
  run_rnd : nat → float;
  run_swipe1_id : UUID;
  run_swipe1_at : datetime;
  run_match1_id : UUID;
  run_match1_at : datetime;
  run_swipe2_id : UUID;
  run_swipe2_at : datetime;
  run_match2_id : UUID;
  run_match2_at : datetime;
  run_conversation_id : UUID;
  run_conversation_at : datetime;
  run_message_id : UUID;
  run_message_at : datetime;
  run_payment_id : UUID;
  run_payment_at : datetime;
  run_charge_draw : float;
  run_started_at : datetime;
  run_expiry_from : datetime;
  run_sub_id : UUID;
  run_notification_id : UUID;
  run_notification_at : datetime;
}.

(** what a run of the demo leaves: the names printed, the match of the
    second swipe, the conversation, the payment, the subscription, the
    notification, and the store *)
Record DemoRun : Type := mkDemoRun {
  out_viewer_name : string;
  out_names : list string;
  out_match : option (Match float);
  out_conversation : option (Conversation float);
  out_payment : Payment float;
  out_subscription : option (Subscription float);
  out_notification : Notification float;
  out_db : InMemoryDB float;
  out_collections : Collections float;
}.

(** lines 175-180: the conversation opened for a match.  The store holds
    the Conversation object that [send_message] then changes, so it ends
    with the conversation that has the message. *)
Definition demo_conversation (run : RunEnv) (m : Match float)
    (coll : Collections float)
    : DemoError + Conversation float * Collections float :=
  let conv := new_conversation (run_conversation_id run) (run_conversation_at run)
                [user_a m; user_b m] in
  let coll := add_conversation conv coll in
  let msg := mkMessage (run_message_id run) (user_a m) "Hi! Nice to match with you."
               (run_message_at run) None false in
  sent ⇐ of_model (send_message msg conv);
  let conv := sent.2 in
  inr (conv, add_conversation conv coll).

(** [demo_run()]; the calls of [print] are left out, the reads of their
    arguments that can raise are kept *)
Definition demo_run (hash_password : string → string) (envs : nat → DemoEnv)
    (run : RunEnv) : DemoError + DemoRun :=
  let db := new_db in
  let coll := new_collections in
  setup ⇐ of_result (demo_setup hash_password envs db 12);
  let users := setup.1 in
  let db := setup.2 in
  me ⇐ item users 0;
  let candidates := drop 1 users in
  matches ⇐ of_result (compute_matches (run_today run) (run_rnd run) me candidates
                         (Some 5%Z));
  my_name ⇐ profile_display_name me;
  names ⇐ display_names matches;
  u1 ⇐ item users 1;
  u2 ⇐ item users 2;
  let s1 := mkSwipe (run_swipe1_id run) u1 u2 "like" (run_swipe1_at run) in
  let db := (add_swipe s1 (run_match1_id run) (run_match1_at run) db).2 in
  u2' ⇐ item users 2;
  u1' ⇐ item users 1;
  let s2 := mkSwipe (run_swipe2_id run) u2' u1' "like" (run_swipe2_at run) in
  let r := add_swipe s2 (run_match2_id run) (run_match2_at run) db in
  let m := r.1 in
  let db := r.2 in
  opened ⇐ match m with
           | Some m =>
               c ⇐ demo_conversation run m coll;
               inr (Some c.1, c.2)
           | None => inr (None, coll)
           end;
  let conv := opened.1 in
  let coll := opened.2 in
  let pay := mkPayment (run_payment_id run) me (PyFloatValue 9.99%float) "USD" "pending"
               (run_payment_at run) in
  let coll := add_payment pay coll in
  charged ⇐ of_model (charge (run_charge_draw run) pay);
  let pay := charged.2 in
  let coll := add_payment pay coll in
  subscribed ⇐ (if charged.1 then
                  expires ⇐ of_result (add_days (run_expiry_from run) 30);
                  let sub := mkSubscription (run_sub_id run) me "premium"
                               (run_started_at run) (Some expires) in
                  inr (Some sub, add_subscription sub coll)
                else inr (None, coll));
  let sub := subscribed.1 in
  let coll := subscribed.2 in
  let note := mkNotification (run_notification_id run) me "match"
                {[ "match_id" := (λ m : Match float, uuid_str (match_id m)) <$> m ]}
                (run_notification_at run) None in
  let coll := add_notification note coll in
  inr (mkDemoRun my_name names m conv pay sub note db coll).

(** an environment to run the demo in *)
Definition sample_run : RunEnv :=
  mkRunEnv today0 (λ _, 0.5%float) 301 0%Z 401 0%Z 302 0%Z 402 0%Z 501 0%Z 601 0%Z
    701 0%Z 0.5%float 63000000000000000%Z 63000000000000000%Z 801 901 0%Z.

(** * Properties *)

(** ** The store *)

Section Store.
Context {F : Type}.
Implicit Types (db : InMemoryDB F) (m : Match F) (a b : User F) (swipe : Swipe F).

Lemma elem_of_values {V} (d : gmap N V) (v : V) :
  v ∈ values d ↔ ∃ k, d !! k = Some v.
Proof.
  unfold values. rewrite list_elem_of_fmap. split.
  - intros [[k v'] [-> Hin]]. exists k. by apply elem_of_map_to_list.
  - intros [k Hk]. exists (k, v). split; [done|]. by apply elem_of_map_to_list.
Qed.

Lemma match_exists_loop_true ms a b :
  match_exists_loop ms a b = true ↔ ∃ m, m ∈ ms ∧ match_between a b m = true.
Proof.
  induction ms as [|m ms IH]; simpl.
  - split; [done|]. intros [m [Hm _]]. by apply elem_of_nil in Hm.
  - destruct (match_between a b m) eqn:Hm.
    + split; [|done]. intros _. exists m. split; [left|done].
    + rewrite IH. split.
      * intros [m' [Hin Hb]]. exists m'. split; [by right|done].
      * intros [m' [Hin Hb]]. apply elem_of_cons in Hin as [->|Hin]; [congruence|].
        by exists m'.
Qed.

(** [_match_exists_between] answers whether some stored match, active or
    not, references the pair *)
Lemma match_exists_between_true db a b :
  _match_exists_between db a b = true ↔
  ∃ i m, matches db !! i = Some m ∧ match_between a b m = true.
Proof.
  unfold _match_exists_between. rewrite match_exists_loop_true. split.
  - intros [m [Hin Hb]]. apply elem_of_values in Hin as [i Hi]. by exists i, m.
  - intros (i & m & Hi & Hb). exists m. split; [|done]. apply elem_of_values. by exists i.
Qed.

(** the loop of [add_swipe] creates a match exactly when a reverse like
    is in the log and no match references the pair *)
Lemma add_swipe_loop_exists others swipe mid now db :
  _match_exists_between db (from_user swipe) (to_user swipe) = true →
  add_swipe_loop others swipe mid now db = (None, db).
Proof.
  intros Hex. induction others as [|o rest IH]; simpl; [done|].
  rewrite Hex. simpl. by destruct (reverse_like swipe o).
Qed.

Lemma add_swipe_loop_fresh others swipe mid now db :
  _match_exists_between db (from_user swipe) (to_user swipe) = false →
  add_swipe_loop others swipe mid now db =
    if existsb (reverse_like swipe) others then
      let m := mkMatch mid (from_user swipe) (to_user swipe) now true in
      (Some m, mkDB (users db) (swipes db) (<[mid := m]> (matches db)))
    else (None, db).
Proof.
  intros Hex. induction others as [|o rest IH]; simpl; [done|].
  rewrite Hex. simpl. by destruct (reverse_like swipe o).
Qed.

Lemma unique_pairs_new : unique_pairs (@new_db F).
Proof. intros i j mi mj Hi. simpl in Hi. by rewrite lookup_empty in Hi. Qed.

Lemma same_pair_sym m1 m2 : same_pair m1 m2 = same_pair m2 m1.
Proof.
  unfold same_pair, match_between.
  rewrite !(N.eqb_sym (user_id (user_a m1))), !(N.eqb_sym (user_id (user_b m1))).
  destruct (N.eqb_spec (user_id (user_a m2)) (user_id (user_a m1))),
           (N.eqb_spec (user_id (user_b m2)) (user_id (user_b m1))),
           (N.eqb_spec (user_id (user_b m2)) (user_id (user_a m1))),
           (N.eqb_spec (user_id (user_a m2)) (user_id (user_b m1))); simpl; congruence.
Qed.

(** [add_swipe] keeps the store free of duplicate pairs *)
Lemma unique_pairs_add_swipe swipe mid now db :
  unique_pairs db → unique_pairs (add_swipe swipe mid now db).2.
Proof.
  intros Huniq. unfold add_swipe.
  destruct (String.eqb (direction swipe) "like"); [|exact Huniq].
  set (db1 := mkDB _ _ _).
  assert (Huniq1 : unique_pairs db1) by exact Huniq.
  destruct (_match_exists_between db1 (from_user swipe) (to_user swipe)) eqn:Hex.
  - by rewrite add_swipe_loop_exists.
  - rewrite add_swipe_loop_fresh by done.
    destruct (existsb _ _); [|done]. simpl.
    intros i j mi mj Hi Hj Hsame. simpl in Hi, Hj.
    assert (Hno : ∀ k mk, matches db !! k = Some mk →
              match_between (from_user swipe) (to_user swipe) mk = false).
    { intros k mk Hk. destruct (match_between _ _ mk) eqn:Hb; [|done].
      assert (_match_exists_between db1 (from_user swipe) (to_user swipe) = true)
        by (apply match_exists_between_true; by exists k, mk).
      congruence. }
    destruct (decide (i = mid)) as [->|Hi'], (decide (j = mid)) as [->|Hj']; [done|..].
    + rewrite lookup_insert_eq in Hi. rewrite lookup_insert_ne in Hj by done.
      injection Hi as <-. rewrite same_pair_sym in Hsame.
      unfold same_pair in Hsame. simpl in Hsame.
      rewrite (Hno _ _ Hj) in Hsame. done.
    + rewrite lookup_insert_eq in Hj. rewrite lookup_insert_ne in Hi by done.
      injection Hj as <-. unfold same_pair in Hsame. simpl in Hsame.
      rewrite (Hno _ _ Hi) in Hsame. done.
    + rewrite lookup_insert_ne in Hi, Hj by done. by eapply Huniq.
Qed.

Lemma unique_pairs_unmatch mid db :
  unique_pairs db → unique_pairs (unmatch_stored mid db).
Proof.
  intros Huniq i j mi mj. unfold unmatch_stored. simpl.
  rewrite !lookup_alter.
  intros Hi Hj Hsame.
  assert (∃ mi', matches db !! i = Some mi' ∧ same_pair mi' mj = same_pair mi mj) as (mi' & Hi' & Ei).
  { destruct (decide (mid = i)) as [->|]; [|by exists mi].
    destruct (matches db !! i) as [x|]; [|done]. injection Hi as <-. by exists x. }
  assert (∃ mj', matches db !! j = Some mj' ∧ same_pair mi' mj' = same_pair mi' mj) as (mj' & Hj' & Ej).
  { destruct (decide (mid = j)) as [->|]; [|by exists mj].
    destruct (matches db !! j) as [x|]; [|done]. injection Hj as <-. by exists x. }
  apply (Huniq i j mi' mj' Hi' Hj'). congruence.
Qed.

Lemma unique_pairs_run cs db :
  unique_pairs db → forallb swipe_or_unmatch cs = true → unique_pairs (run cs db).
Proof.
  revert db. induction cs as [|c cs IH]; intros db Huniq Hcs; [done|].
  simpl in Hcs. apply andb_true_iff in Hcs as [Hc Hcs].
  unfold run. simpl. apply IH; [|done].
  destruct c as [swipe mid now|mid|m]; simpl.
  - by apply unique_pairs_add_swipe.
  - by apply unique_pairs_unmatch.
  - done.
Qed.

End Store.

Section StoreClaims.
Context {F : Type}.
Implicit Types (db : InMemoryDB F) (m : Match F) (a b u : User F) (swipe : Swipe F).

Lemma add_swipe_unfold swipe mid now db :
  add_swipe swipe mid now db =
    if String.eqb (direction swipe) "like" then
      add_swipe_loop (values (swipes (logged swipe db))) swipe mid now (logged swipe db)
    else (None, logged swipe db).
Proof. reflexivity. Qed.

Lemma match_exists_between_unmatch mid db a b :
  _match_exists_between (unmatch_stored mid db) a b = _match_exists_between db a b.
Proof.
  apply Bool.eq_iff_eq_true. rewrite !match_exists_between_true.
  unfold unmatch_stored. simpl. split.
  - intros (i & m & Hi & Hb). rewrite lookup_alter in Hi.
    destruct (decide (mid = i)) as [->|]; [|by exists i, m].
    destruct (matches db !! i) as [x|] eqn:Hx; [|done].
    injection Hi as <-. by exists i, x.
  - intros (i & m & Hi & Hb).
    destruct (decide (mid = i)) as [->|Hne].
    + exists i, (unmatch m). by rewrite lookup_alter_eq, Hi.
    + exists i, m. by rewrite lookup_alter_ne.
Qed.

Lemma add_swipe_creates swipe mid now db :
  direction swipe = "like" →
  existsb (reverse_like swipe) (values (swipes (logged swipe db))) = true →
  _match_exists_between db (from_user swipe) (to_user swipe) = false →
  let m := mkMatch mid (from_user swipe) (to_user swipe) now true in
  add_swipe swipe mid now db =
    (Some m, mkDB (users db) (swipes (logged swipe db)) (<[mid := m]> (matches db))).
Proof.
  intros Hdir Hrev Hno. rewrite add_swipe_unfold, Hdir. simpl String.eqb. cbv iota.
  rewrite add_swipe_loop_fresh by exact Hno.
  by rewrite Hrev.
Qed.

Lemma add_swipe_matched swipe mid now db :
  _match_exists_between db (from_user swipe) (to_user swipe) = true →
  add_swipe swipe mid now db = (None, logged swipe db).
Proof.
  intros Hex. rewrite add_swipe_unfold.
  destruct (String.eqb _ _); [|done].
  by apply add_swipe_loop_exists.
Qed.

(** a match returned by [add_swipe] references the two users of the
    swipe, in that order *)
Lemma add_swipe_match_users swipe mid now db m :
  (add_swipe swipe mid now db).1 = Some m →
  user_a m = from_user swipe ∧ user_b m = to_user swipe.
Proof.
  rewrite add_swipe_unfold.
  destruct (String.eqb _ _); [|done].
  destruct (_match_exists_between (logged swipe db) (from_user swipe) (to_user swipe)) eqn:Hex.
  - by rewrite add_swipe_loop_exists.
  - rewrite add_swipe_loop_fresh by done. destruct (existsb _ _); [|done].
    simpl. by intros [= <-].
Qed.

Lemma add_swipe_distinct_users swipe mid now db m :
  user_id (from_user swipe) ≠ user_id (to_user swipe) →
  (add_swipe swipe mid now db).1 = Some m →
  user_id (user_a m) ≠ user_id (user_b m).
Proof.
  intros Hne Hm. apply add_swipe_match_users in Hm as [-> ->]. exact Hne.
Qed.

Lemma values_empty {V} : values (∅ : gmap N V) = [].
Proof. unfold values. by rewrite map_to_list_empty. Qed.

Lemma values_singleton {V} (k : N) (v : V) : values (<[k := v]> (∅ : gmap N V)) = [v].
Proof. unfold values. by rewrite insert_empty, map_to_list_singleton. Qed.

End StoreClaims.



Example like_unlike_like_matches :
  matches (run like_unlike_like new_db) = {[ 22%N := mkMatch 22 bob alice 2%Z false ]}.
Proof. vm_compute. reflexivity. Qed.

(** C8, at the failing input: one like of a user for themselves is its own
    reverse like, and [add_swipe] returns a match whose two users are that
    same user. *)
Theorem self_like_creates_self_match {F} (u : User F) (sid mid : N) (t now : Z) :
  (add_swipe (mkSwipe sid u u "like" t) mid now new_db).1
  = Some (mkMatch mid u u now true).
Proof.
  unfold add_swipe. simpl. rewrite values_singleton. simpl.
  unfold reverse_like, _match_exists_between. simpl.
  rewrite N.eqb_refl, values_empty. reflexivity.
Qed.

(** C10. [add_match] stores the match under its [match_id] whatever the
    store holds; two calls of it for the same pair leave two matches for
    that pair, while [add_swipe] keeps a store free of duplicate pairs. *)
Theorem add_match_unchecked {F} :
  (∀ (m : Match F) db,
      add_match m db = mkDB (users db) (swipes db) (<[match_id m := m]> (matches db)))
  ∧ (∀ a b : User F,
      ¬ unique_pairs (run [CallAddMatch (mkMatch 1 a b 0 true);
                           CallAddMatch (mkMatch 2 a b 0 true)] new_db))
  ∧ (∀ (swipe : Swipe F) mid now db,
      unique_pairs db → unique_pairs (add_swipe swipe mid now db).2).
Proof.
  split; [done|]. split.
  - intros a b Huniq.
    specialize (Huniq 1%N 2%N (mkMatch 1 a b 0 true) (mkMatch 2 a b 0 true)).
    assert (1%N = 2%N); [|done].
    apply Huniq.
    + reflexivity.
    + reflexivity.
    + unfold same_pair, match_between. simpl. by rewrite !N.eqb_refl.
  - intros swipe mid now db. apply unique_pairs_add_swipe.
Qed.

Lemma add_match_unchecked_witness :
  unique_pairs (add_swipe (mkSwipe 11 alice bob "like" 0%Z) 21 1%Z new_db).2.
Proof.
  apply (proj2 (proj2 (@add_match_unchecked float))). exact unique_pairs_new.
Defined.

(** ** The scoring engine *)

(** C2. When the viewer or the candidate has no profile, [score] returns
    the sentinel -1.0: it raises nothing and reads nothing else (not the
    date, not the random source). *)
Theorem score_missing_profile {F} `{PyFloat F} (today : date) (rnd : F) (a b : User F) :
  profile a = None ∨ profile b = None →
  score today rnd a b = Ok (float_of_Z (-1)).
Proof.
  unfold score. intros [-> | ->]; [reflexivity|].
  by destruct (profile a).
Qed.

Example minus_one_binary64 : float_of_Z (-1) = (-1)%float.
Proof. vm_compute. reflexivity. Qed.

Lemma score_missing_profile_witness :
  score today0 0.5%float (bare_user 1) (bare_user 2) = Ok (float_of_Z (-1)).
Proof.
  apply (score_missing_profile today0 0.5%float (bare_user 1) (bare_user 2)).
  left. reflexivity.
Defined.

(** *** The age term *)

Lemma age_from_birthdate_spec (today bd : date) :
  age_from_birthdate today bd =
    if tuple_lt (month today, day today) (month bd, day bd)
    then (year today - year bd - 1)%Z
    else (year today - year bd)%Z.
Proof. unfold age_from_birthdate. destruct (tuple_lt _ _); simpl; lia. Qed.

Lemma age_no_birthdate {F} (today : date) (p : Profile F) :
  birthdate p = None → age today p = None.
Proof. unfold age. by intros ->. Qed.

Lemma age_term_no_birthdate {F} `{PyFloat F} (pref : Preferences) (s : F) :
  age_term pref None s = Ok s.
Proof. reflexivity. Qed.

(** what the age term does for an age other than 0, in exact arithmetic *)
Lemma age_term_nonzero (pref : Preferences) (b_age : Z) (s : R) :
  b_age ≠ 0%Z →
  age_term pref (Some b_age) s =
    Ok (if matches_age pref b_age then s + 15
        else if (b_age <? age_min pref)%Z then s - IZR (age_min pref - b_age)
        else s - IZR (b_age - age_max pref))%R.
Proof.
  intros Hne. unfold age_term.
  destruct (Z.eqb_spec b_age 0) as [|_]; [done|]. simpl negb. cbv iota.
  unfold matches_age.
  destruct (Z.leb_spec (age_min pref) b_age), (Z.leb_spec b_age (age_max pref)); simpl;
    try reflexivity.
  - destruct (Z.ltb_spec b_age (age_min pref)); [lia|].
    destruct (Z.ltb_spec (age_max pref) b_age); [reflexivity|lia].
  - destruct (Z.ltb_spec b_age (age_min pref)); [reflexivity|lia].
  - destruct (Z.ltb_spec b_age (age_min pref)); [reflexivity|lia].
Qed.

(** C3, at the failing input: a candidate born on today's date has age 0,
    which [if b_age:] takes for a missing age; the age term leaves the
    score as it is, whatever the viewer's range, where the range
    [18, 99] calls for a penalty of 18: the score is 20 + 8.3 and not
    20 - 18 + 8.3. *)
Theorem age_zero_skips_age_term :
  age_from_birthdate today0 today0 = 0%Z
  ∧ matches_age default_Preferences 0 = false
  ∧ (∀ F (ops : PyFloat F) (pref : Preferences) (s : F),
       age_term pref (Some 0%Z) s = Ok s)
  ∧ age_term (F:=R) default_Preferences (Some 0%Z) 20%R ≠ Ok (20 - 18)%R
  ∧ score today0 0%float viewer64 newborn64 = Ok 28.3%float.
Proof.
  split; [reflexivity|]. split; [reflexivity|]. split; [reflexivity|]. split.
  - simpl. intros [= Heq]. lra.
  - vm_compute. reflexivity.
Qed.

(** *** Slicing and [top_k] *)

Lemma slice_to_zero {A} (l : list A) : slice_to l 0 = [].
Proof. reflexivity. Qed.

Lemma slice_to_pos {A} (l : list A) (k : Z) :
  (0 <= k)%Z → slice_to l k = take (Z.to_nat k) l.
Proof. unfold slice_to. intros Hk. by destruct (Z.leb_spec 0 k); [|lia]. Qed.

Lemma slice_to_neg {A} (l : list A) (k : Z) :
  (k < 0)%Z → slice_to l k = take (length l - Z.to_nat (- k)) l.
Proof.
  unfold slice_to. intros Hk. destruct (Z.leb_spec 0 k); [lia|].
  f_equal. lia.
Qed.

(** leaving [top_k] out is passing 10 *)
Lemma compute_matches_default {F} `{PyFloat F} today rnd (user : User F) candidates :
  compute_matches today rnd user candidates None
  = compute_matches today rnd user candidates (Some 10%Z).
Proof. reflexivity. Qed.

(** [top_k = 0] gives the empty list, unless a score raised *)
Lemma compute_matches_zero {F} `{PyFloat F} today rnd (user : User F) candidates :
  compute_matches today rnd user candidates (Some 0%Z) = Ok []
  ∨ ∃ e, compute_matches today rnd user candidates (Some 0%Z) = Raise e.
Proof.
  unfold compute_matches, ranked. simpl.
  destruct (scored_loop today rnd 0 user candidates); simpl; eauto.
Qed.

(** C4, at the failing input: with [top_k = -1] the slice [scored[:-1]]
    drops the last of the two ranked candidates and keeps the best one. *)
Theorem compute_matches_negative_top_k :
  compute_matches today0 (λ _, 0%float) viewer64 [cand_movies64; cand_shared64] (Some (-1)%Z)
  = Ok [cand_shared64].
Proof. vm_compute. reflexivity. Qed.

(** *** Ranking *)

Section Ranking.
Context {F : Type} `{PyFloat F}.
Implicit Types (l : list (F * User F)) (x : F * User F).

Lemma insert_desc_perm x l : insert_desc x l ≡ₚ x :: l.
Proof.
induction l as [|y l IH]; simpl; [done|].
destruct (fltb x.1 y.1); [|done].
rewrite IH. apply Permutation_swap.
Qed.

Lemma sort_desc_perm l : sort_desc l ≡ₚ l.
Proof.
induction l as [|x l IH]; simpl; [done|].
fold (sort_desc l). by rewrite insert_desc_perm, IH.
Qed.

Lemma length_slice_to {A} (s : list A) (k : Z) :
(0 <= k)%Z → (Z.of_nat (length (slice_to s k)) <= k)%Z ∧ length (slice_to s k) ≤ length s.
Proof.
intros Hk. rewrite slice_to_pos by done. rewrite length_take. lia.
Qed.

Lemma slice_to_subseteq {A} (s : list A) (k : Z) : slice_to s k ⊆ s.
Proof.
unfold slice_to. destruct (0 <=? k)%Z; apply sublist_subseteq, sublist_take.
Qed.

(** what the loop of [compute_matches] collects: one entry for each
  candidate other than the viewer, with the score computed for it *)
Lemma scored_loop_entries today rnd i (user : User F) candidates scored :
scored_loop today rnd i user candidates = Ok scored →
length scored ≤ length candidates
∧ Forall (λ p, p.2 ∈ candidates ∧ user_id p.2 ≠ user_id user
               ∧ ∃ j, score today (rnd j) user p.2 = Ok p.1) scored.
Proof.
revert i scored. induction candidates as [|cand rest IH]; intros i scored; simpl.
- intros [= <-]. split; [done|constructor].
- destruct (N.eqb_spec (user_id cand) (user_id user)) as [Heq|Hne].
  + intros Hrest. destruct (IH _ _ Hrest) as [Hlen Hall]. split; [lia|].
    eapply Forall_impl; [exact Hall|]. simpl. intros p (Hin & Hid & Hsc).
    split; [by right|done].
  + destruct (score today (rnd i) user cand) as [s|e] eqn:Hs; simpl; [|done].
    destruct (scored_loop today rnd (S i) user rest) as [tl|e] eqn:Htl; simpl; [|done].
    intros [= <-]. destruct (IH _ _ Htl) as [Hlen Hall]. split; [simpl; lia|].
    constructor.
    * simpl. split; [left|]. split; [done|]. by exists i.
    * eapply Forall_impl; [exact Hall|]. simpl. intros p (Hin & Hid & Hsc).
      split; [by right|done].
Qed.

End Ranking.

(** whatever the arithmetic, a list returned by [compute_matches] holds
    candidates other than the viewer, no more of them than candidates and,
    for [top_k >= 0], no more than [top_k] *)
Lemma compute_matches_excludes_viewer {F} `{PyFloat F} (today : date) (rnd : nat → F)
    (viewer : User F) (candidates : list (User F)) (top_k : Z) (l : list (User F)) :
  compute_matches today rnd viewer candidates (Some top_k) = Ok l →
  Forall (λ u, user_id u ≠ user_id viewer ∧ u ∈ candidates) l
  ∧ length l ≤ length candidates
  ∧ ((0 <= top_k)%Z → (Z.of_nat (length l) <= top_k)%Z).
Proof.
  unfold compute_matches, ranked.
  destruct (scored_loop today rnd 0 viewer candidates) as [scored|e] eqn:Hsc; [|done].
  intros [= <-].
  destruct (scored_loop_entries _ _ _ _ _ _ Hsc) as [Hlen Hall].
  change (default 10%Z (Some top_k)) with top_k.
  assert (Hsub : slice_to (sort_desc scored) top_k ⊆ scored).
  { intros p Hp. apply slice_to_subseteq in Hp. by rewrite sort_desc_perm in Hp. }
  split; [|split].
  - apply Forall_fmap. rewrite Forall_forall in Hall |- *. intros p Hp.
    destruct (Hall p (Hsub p Hp)) as (Hin & Hid & _). done.
  - rewrite length_fmap.
    assert (length (slice_to (sort_desc scored) top_k) ≤ length (sort_desc scored)).
    { unfold slice_to. destruct (0 <=? top_k)%Z; rewrite length_take; lia. }
    rewrite (Permutation_length (sort_desc_perm scored)) in *. lia.
  - intros Hk. rewrite length_fmap. by apply length_slice_to.
Qed.

(** *** Sorting by a key that [<] orders *)

Section SortedByKey.
Context {F : Type} `{PyFloat F}.
Variable good : F → Prop.
Variable le : F → F → Prop.
Hypothesis le_trans : ∀ x y z, le x y → le y z → le x z.
Hypothesis ltb_le : ∀ x y, good x → good y → fltb x y = true → le x y.
Hypothesis not_ltb_le : ∀ x y, good x → good y → fltb x y = false → le y x.

(** on keys that [<] orders, [insert_desc] keeps a descending list
    descending and [sort_desc] returns one *)
Lemma insert_desc_sorted (x : F * User F) (l : list (F * User F)) :
  good x.1 → Forall good l.*1 →
  StronglySorted (λ a b, le b a) l.*1 →
  StronglySorted (λ a b, le b a) (insert_desc x l).*1.
Proof.
  intros Hx. induction l as [|y l IH]; simpl; intros Hg Hs.
  - repeat constructor.
  - apply Forall_cons in Hg as [Hy Hg].
    apply StronglySorted_inv in Hs as [Hs Hall].
    destruct (fltb x.1 y.1) eqn:Hlt; simpl.
    + constructor; [by apply IH|].
      assert (Hperm : (insert_desc x l).*1 ≡ₚ x.1 :: l.*1) by (by rewrite insert_desc_perm).
      rewrite Hperm. constructor; [by apply ltb_le|done].
    + pose proof (not_ltb_le _ _ Hx Hy Hlt) as Hyx.
      constructor; [by constructor|]. constructor; [done|].
      eapply Forall_impl; [exact Hall|]. simpl. intros z Hz. by eapply le_trans.
Qed.

Lemma sort_desc_sorted (l : list (F * User F)) :
  Forall good l.*1 → StronglySorted (λ a b, le b a) (sort_desc l).*1.
Proof.
  induction l as [|x l IH]; simpl; intros Hg.
  - constructor.
  - apply Forall_cons in Hg as [Hx Hg]. fold (sort_desc l).
    apply insert_desc_sorted; [done| |by apply IH].
    by rewrite sort_desc_perm.
Qed.

Lemma StronglySorted_take (n : nat) (l : list F) :
  StronglySorted (λ a b, le b a) l → StronglySorted (λ a b, le b a) (take n l).
Proof.
  intros Hs. revert n. induction Hs as [|x l Hs IH Hall]; intros [|n]; simpl;
    try constructor.
  - apply IH.
  - apply Forall_forall. intros y Hy. rewrite Forall_forall in Hall. apply Hall.
    eapply subseteq_take, Hy.
Qed.

End SortedByKey.

(** in exact arithmetic every key is ordered *)

Lemma Rltb_true (x y : R) : Rltb x y = true ↔ (x < y)%R.
Proof. unfold Rltb. destruct (Rlt_dec x y); split; (done || lra). Qed.

Lemma Rltb_false (x y : R) : Rltb x y = false ↔ (y <= x)%R.
Proof. unfold Rltb. destruct (Rlt_dec x y); split; (done || lra). Qed.

Lemma sort_desc_descending (l : list (R * User R)) : descending (sort_desc l).
Proof.
  apply (sort_desc_sorted (λ _, True) Rle).
  - intros x y z Hxy Hyz. lra.
  - intros x y _ _ Hlt%Rltb_true. lra.
  - intros x y _ _ Hlt%Rltb_false. exact Hlt.
  - by apply Forall_forall.
Qed.

Lemma descending_take n (l : list (R * User R)) : descending l → descending (take n l).
Proof. unfold descending. rewrite fmap_take. apply StronglySorted_take. Qed.

(** *** Exact arithmetic: no exception *)

Lemma float_of_int_exact (n : Z) : float_of_int (F:=R) n = Ok (IZR n).
Proof. reflexivity. Qed.

Lemma Reqb_false (x y : R) : x ≠ y → Reqb x y = false.
Proof. unfold Reqb. by destruct (Req_dec_T x y). Qed.

Lemma max_one_pos (m : Z) : (1 <= IZR (Z.max 1 m))%R.
Proof. apply IZR_le. lia. Qed.

(** the divisor [max(1, max_distance_km)] is never zero *)
Lemma py_truediv_guarded (x : R) (m : Z) :
  py_truediv x (IZR (Z.max 1 m)) = Ok (x / IZR (Z.max 1 m))%R.
Proof.
  unfold py_truediv. simpl. rewrite Reqb_false; [done|].
  pose proof (max_one_pos m). lra.
Qed.

Lemma age_term_exact_ok (pref : Preferences) (b_age : option Z) (s : R) :
  ∃ x : R, age_term pref b_age s = Ok x.
Proof.
  unfold age_term. destruct b_age as [n|]; [|by eexists].
  destruct (negb _); [|by eexists].
  destruct (matches_age pref n); [by eexists|].
  destruct (n <? age_min pref)%Z; [by eexists|].
  destruct (age_max pref <? n)%Z; by eexists.
Qed.

Lemma distance_term_exact_ok (pref : Preferences) (pa pb : Profile R) (s : R) :
  ∃ x : R, distance_term pref pa pb s = Ok x.
Proof.
  unfold distance_term.
  destruct (location pa) as [la|]; [|by eexists].
  destruct (location pb) as [lb|]; [|by eexists].
  cbv zeta. destruct (fgt_int (F:=R) _ _); rewrite !float_of_int_exact; simpl;
    [by eexists|].
  rewrite py_truediv_guarded. by eexists.
Qed.

Lemma bind_Ok {A B} (f : A → result B) (a : A) : (Ok a ≫= f) = f a.
Proof. reflexivity. Qed.

Lemma interest_term_exact (pref : Preferences) (b : Profile R) (s : R) :
  interest_term pref b s
  = Ok (s + 5 * IZR (Z.of_nat (size (shared_interests pref b))))%R.
Proof. reflexivity. Qed.

Lemma completeness_term_exact (b : Profile R) (s : R) :
  completeness_term b s = Ok (s + 1 / 10 * IZR (complete_percentage b))%R.
Proof. reflexivity. Qed.

Lemma score_exact_ok (today : date) (rnd : R) (a b : User R) :
  ∃ x : R, score today rnd a b = Ok x.
Proof.
  unfold score. destruct (profile a) as [pa|]; [|by eexists].
  destruct (profile b) as [pb|]; [|by eexists].
  cbv zeta.
  destruct (age_term_exact_ok (preferences pa) (age today pb)
              (gender_term (preferences pa) pb (float_of_Z 0))) as [s1 ->].
  rewrite bind_Ok, interest_term_exact, bind_Ok, completeness_term_exact, bind_Ok.
  match goal with |- context [distance_term ?p ?x ?y ?s] =>
    destruct (distance_term_exact_ok p x y s) as [s2 ->] end.
  rewrite bind_Ok. by eexists.
Qed.

Lemma scored_loop_exact_ok today (rnd : nat → R) i (user : User R) candidates :
  ∃ scored, scored_loop today rnd i user candidates = Ok scored.
Proof.
  revert i. induction candidates as [|cand rest IH]; intros i; simpl; [by eexists|].
  destruct (user_id cand =? user_id user)%N; [apply IH|].
  destruct (score_exact_ok today (rnd i) user cand) as [s ->]. rewrite bind_Ok.
  destruct (IH (S i)) as [tl ->]. rewrite bind_Ok. by eexists.
Qed.



(** *** The score as a sum, in exact arithmetic *)

Lemma age_term_delta (pref : Preferences) (b_age : option Z) (s : R) :
  age_term pref b_age s = Ok (s + age_delta pref b_age)%R.
Proof.
  unfold age_delta, age_term. destruct b_age as [n|]; [|f_equal; lra].
  destruct (negb _); [|f_equal; lra].
  destruct (matches_age pref n); [simpl; f_equal; lra|].
  destruct (n <? age_min pref)%Z;
    [rewrite !float_of_int_exact, !bind_Ok; simpl; f_equal; lra|].
  destruct (age_max pref <? n)%Z;
    [rewrite !float_of_int_exact, !bind_Ok; simpl; f_equal; lra|].
  f_equal; lra.
Qed.

Lemma distance_term_delta (pref : Preferences) (pa pb : Profile R) (s : R) :
  distance_term pref pa pb s = Ok (s + distance_delta pref pa pb)%R.
Proof.
  unfold distance_delta, distance_term.
  destruct (location pa) as [la|]; [|f_equal; lra].
  destruct (location pb) as [lb|]; [|f_equal; lra].
  cbv zeta. rewrite !float_of_int_exact, !bind_Ok, !py_truediv_guarded, !bind_Ok.
  destruct (fgt_int (F:=R) _ _); simpl; f_equal; lra.
Qed.

Lemma gender_term_delta (pref : Preferences) (pb : Profile R) (s : R) :
  gender_term pref pb s = (s + gender_term pref pb 0)%R.
Proof.
  unfold gender_term. destruct (match gender pb with Some _ => _ | None => _ end);
    simpl; lra.
Qed.

(** the score in exact arithmetic is the sum of its six terms *)
Lemma score_exact_sum (today : date) (rnd : R) (a b : User R) (pa pb : Profile R) :
  profile a = Some pa → profile b = Some pb →
  score today rnd a b =
    Ok (gender_term (preferences pa) pb 0
        + age_delta (preferences pa) (age today pb)
        + 5 * IZR (Z.of_nat (size (shared_interests (preferences pa) pb)))
        + 1 / 10 * IZR (complete_percentage pb)
        + distance_delta (preferences pa) pa pb
        + rnd * 2)%R.
Proof.
  intros Ha Hb. unfold score. rewrite Ha, Hb. cbv zeta.
  rewrite age_term_delta, bind_Ok, interest_term_exact, bind_Ok,
    completeness_term_exact, bind_Ok, distance_term_delta, bind_Ok.
  rewrite (gender_term_delta _ _ (float_of_Z 0)).
  change (@float_of_Z R Exact 0) with 0%R. change (@float_of_Z R Exact 2) with 2%R.
  change (@fadd R Exact) with Rplus. change (@fmul R Exact) with Rmult.
  f_equal. lra.
Qed.

(** *** The distance term *)

(** the distance term on an accumulated score [s], in exact arithmetic;
    the [max(0, .)] of the code is idle: the quotient is not negative when
    the distance does not exceed [max_distance_km] *)
Lemma distance_term_exact (pref : Preferences) (pa pb : Profile R)
    (la lb : Location R) (s : R) :
  location pa = Some la → location pb = Some lb →
  let dist := distance_km_to la lb in
  let m := max_distance_km pref in
  ((IZR m < dist)%R →
     distance_term pref pa pb s = Ok (s - (dist - IZR m) * (2 / 10))%R)
  ∧ ((dist <= IZR m)%R →
     distance_term pref pa pb s = Ok (s + (IZR m - dist) / IZR (Z.max 1 m) * 10)%R).
Proof.
  intros Ha Hb dist m.
  unfold distance_term. rewrite Ha, Hb. cbv zeta. fold dist. fold m.
  rewrite !float_of_int_exact, !bind_Ok, py_truediv_guarded, bind_Ok.
  change (fgt_int dist m) with (Rltb (IZR m) dist).
  split; intros Hd.
  - apply Rltb_true in Hd. rewrite Hd. reflexivity.
  - assert (Hq : (0 <= (IZR m - dist) / IZR (Z.max 1 m))%R).
    { pose proof (max_one_pos m). apply Rle_mult_inv_pos; lra. }
    apply Rltb_false in Hd. rewrite Hd. f_equal.
    unfold py_max0. change (fltb (float_of_Z 0) ?x) with (Rltb 0 x).
    change (fsub (IZR m) dist) with (IZR m - dist)%R in *.
    destruct (Rltb 0 _) eqn:Hlt; [reflexivity|].
    apply Rltb_false in Hlt.
    change (@float_of_Z R Exact 0) with 0%R. change (@float_of_Z R Exact 10) with 10%R.
    change (@fadd R Exact) with Rplus. change (@fmul R Exact) with Rmult.
    assert (Hz : ((IZR m - dist) / IZR (Z.max 1 m) = 0)%R) by lra.
    rewrite Hz. reflexivity.
Qed.



(** *** Shared interests *)

Lemma elem_of_shared_interests {F} (pref : Preferences) (b : Profile F) (tag : string) :
  tag ∈ shared_interests pref b ↔ tag ∈ interests pref ∧ tag ∈ interests (preferences b).
Proof. unfold shared_interests. set_solver. Qed.



(** the two candidates of the example in binary64, tie-breaker 0 *)
Example shared_interests_binary64 :
  score today0 0%float viewer64 cand_shared64 = Ok 53.3%float
  ∧ score today0 0%float viewer64 cand_movies64 = Ok 43.3%float.
Proof. vm_compute. split; reflexivity. Qed.

(** *** No exception, and overflow *)


(** in exact arithmetic [score] raises nothing for any pair of users: it
    returns a real number, -1 when a profile is missing; the divisor of
    the proximity bonus is max(1, max_distance_km), at least 1 also for
    max_distance_km = 0, so the division never fails *)
Lemma score_exact_never_raises (today : date) (rnd : R) (a b : User R) :
  (∃ x : R, score today rnd a b = Ok x)
  ∧ (∀ m : Z, (1 <= IZR (Z.max 1 m))%R
       ∧ ∀ x : R, py_truediv x (IZR (Z.max 1 m)) = Ok (x / IZR (Z.max 1 m))%R)
  ∧ py_truediv (0 - 3)%R (IZR (Z.max 1 0)) = Ok (-3)%R.
Proof.
  split; [apply score_exact_ok|]. split.
  - intros m. split; [apply max_one_pos|]. intros x. apply py_truediv_guarded.
  - rewrite py_truediv_guarded. f_equal. change (Z.max 1 0) with 1%Z. lra.
Qed.

(** ** Binary64: magnitudes through the operations *)

Section Binary64Bounds.
Local Open Scope Z_scope.

Lemma digits2_pos_log2 (p : positive) : Zpos (digits2_pos p) = Z.log2 (Zpos p) + 1.
Proof.
  assert (Hs : forall q, digits2_pos q = Pos.size q) by (induction q; simpl; congruence).
  rewrite Hs. destruct p; simpl; lia.
Qed.

Lemma Zdigits2_log2 (m : Z) : 0 < m -> Zdigits2 m = Z.log2 m + 1.
Proof. destruct m; try lia. intros _. apply digits2_pos_log2. Qed.

Lemma Zdigits2_nonneg (m : Z) : 0 <= Zdigits2 m.
Proof. destruct m; simpl; lia. Qed.

(** [Zdigits2 m <= d] says [m < 2 ^ d] *)
Lemma Zdigits2_le_iff (m d : Z) : 0 <= m -> 0 <= d -> (Zdigits2 m <= d <-> m < 2 ^ d).
Proof.
  intros Hm Hd. destruct (Z.eq_dec m 0) as [->|Hne].
  - simpl. split; intros _; [apply Z.pow_pos_nonneg; lia|lia].
  - rewrite Zdigits2_log2 by lia. rewrite Z.log2_lt_pow2 by lia. lia.
Qed.

Lemma shr_1_m (mrs : shr_record) :
  0 <= shr_m mrs -> shr_m (shr_1 mrs) = Z.div2 (shr_m mrs).
Proof.
  destruct mrs as [m r s]. simpl. destruct m as [|p|p]; try lia; intros _.
  - reflexivity.
  - destruct p; reflexivity.
Qed.

Lemma iter_pos_shr_m (p : positive) (mrs : shr_record) :
  0 <= shr_m mrs -> shr_m (SpecFloat.iter_pos shr_1 p mrs) = Z.shiftr (shr_m mrs) (Zpos p).
Proof.
  revert mrs. induction p as [p IH|p IH|]; intros mrs Hm; simpl SpecFloat.iter_pos.
  - assert (H1 : 0 <= shr_m (shr_1 mrs)).
    { rewrite shr_1_m by lia. rewrite Z.div2_spec. apply Z.shiftr_nonneg. lia. }
    rewrite IH.
    + rewrite IH by lia. rewrite shr_1_m by lia. rewrite Z.div2_spec.
      rewrite !Z.shiftr_shiftr by lia. f_equal. lia.
    + rewrite IH by lia. apply Z.shiftr_nonneg. lia.
  - rewrite IH.
    + rewrite IH by lia. rewrite !Z.shiftr_shiftr by lia. f_equal. lia.
    + rewrite IH by lia. apply Z.shiftr_nonneg. lia.
  - rewrite shr_1_m by lia. apply Z.div2_spec.
Qed.

Lemma shr_m_of_loc m l : shr_m (shr_record_of_loc m l) = m.
Proof. destruct l as [|[]]; reflexivity. Qed.

(** the mantissa and the exponent after [shr]: the mantissa is shifted by
    the positive part of [n] *)
Lemma shr_spec (mrs : shr_record) (e n : Z) :
  0 <= shr_m mrs ->
  shr_m (fst (shr mrs e n)) = Z.shiftr (shr_m mrs) (Z.max 0 n)
  /\ snd (shr mrs e n) = e + Z.max 0 n.
Proof.
  intros Hm. destruct n as [|p|p]; simpl.
  - split; [reflexivity|lia].
  - split; [apply iter_pos_shr_m; lia|lia].
  - split; [reflexivity|lia].
Qed.

Lemma Zdigits2_shiftr (m n : Z) :
  0 <= m -> 0 <= n -> Zdigits2 (Z.shiftr m n) = Z.max 0 (Zdigits2 m - n).
Proof.
  intros Hm Hn. destruct (Z.eq_dec m 0) as [->|Hne].
  - rewrite Z.shiftr_0_l. simpl. lia.
  - destruct (Z.eq_dec (Z.shiftr m n) 0) as [H0|H0].
    + rewrite H0. simpl. apply Z.shiftr_eq_0_iff in H0.
      rewrite Zdigits2_log2 by lia. lia.
    + assert (0 <= Z.shiftr m n) by (apply Z.shiftr_nonneg; lia).
      rewrite !Zdigits2_log2 by lia. rewrite Z.log2_shiftr by lia.
      assert (Z.log2 m >= n).
      { destruct (Z_lt_le_dec (Z.log2 m) n); [|lia].
        exfalso. apply H0. apply Z.shiftr_eq_0_iff. right. lia. }
      lia.
Qed.

Lemma Zdigits2_lt_pow (m : Z) : 0 <= m -> m < 2 ^ Zdigits2 m.
Proof. intros Hm. apply Zdigits2_le_iff; [lia|apply Zdigits2_nonneg|lia]. Qed.

Lemma Zdigits2_succ (m : Z) : 0 <= m -> Zdigits2 (m + 1) <= Zdigits2 m + 1.
Proof.
  intros Hm. pose proof (Zdigits2_nonneg m).
  apply Zdigits2_le_iff; [lia|lia|].
  pose proof (Zdigits2_lt_pow m Hm).
  rewrite Z.pow_add_r by lia.
  assert (0 < 2 ^ Zdigits2 m) by (apply Z.pow_pos_nonneg; lia). lia.
Qed.

Lemma Zdigits2_mono (a b : Z) : 0 <= a <= b -> Zdigits2 a <= Zdigits2 b.
Proof.
  intros [Ha Hab]. apply Zdigits2_le_iff; [lia|apply Zdigits2_nonneg|].
  pose proof (Zdigits2_lt_pow b ltac:(lia)). lia.
Qed.

Lemma round_nearest_even_bounds (m : Z) (l : SpecFloat.location) :
  m <= round_nearest_even m l <= m + 1.
Proof. destruct l as [|[]]; simpl; try lia. destruct (Z.even m); lia. Qed.

Lemma fexp64_eq (e : Z) : fexp64 e = Z.max (e - 53) (-1074).
Proof. reflexivity. Qed.

(** the steps of [binary_round_aux] on a mantissa [m >= 0], in terms of
    numbers of digits: [d'], [d1] and [d''] are the numbers of digits of
    the mantissa after the first shift, after rounding and after the
    second shift *)
Lemma binary_round_aux_steps (s : bool) (m e : Z) (l : SpecFloat.location) :
  0 <= m ->
  exists e' d' d1 e'' m'',
    let d := Zdigits2 m in
    let n := Z.max (d + e - 53) (-1074) - e in
    let n2 := Z.max (d1 + e' - 53) (-1074) - e' in
    e' = e + Z.max 0 n
    /\ d' = Z.max 0 (d - Z.max 0 n)
    /\ d' <= d1 <= d' + 1
    /\ e'' = e' + Z.max 0 n2
    /\ Zdigits2 m'' = Z.max 0 (d1 - Z.max 0 n2)
    /\ 0 <= m''
    /\ binary_round_aux prec emax s m e l =
       match m'' with
       | Z0 => S754_zero s
       | Zpos p => if e'' <=? 971 then S754_finite s p e'' else S754_infinity s
       | Zneg _ => S754_nan
       end.
Proof.
  intros Hm. unfold binary_round_aux, shr_fexp.
  fold fexp64.
  set (n := fexp64 (Zdigits2 m + e) - e).
  pose proof (shr_spec (shr_record_of_loc m l) e n) as Hs.
  rewrite shr_m_of_loc in Hs. specialize (Hs Hm).
  destruct (shr (shr_record_of_loc m l) e n) as [mrs' e'] eqn:Hshr. simpl in Hs.
  destruct Hs as [Hm' He'].
  set (m1 := round_nearest_even (shr_m mrs') (loc_of_shr_record mrs')).
  assert (Hm'0 : 0 <= shr_m mrs') by (rewrite Hm'; apply Z.shiftr_nonneg; lia).
  pose proof (round_nearest_even_bounds (shr_m mrs') (loc_of_shr_record mrs')) as Hrne.
  fold m1 in Hrne.
  assert (Hd' : Zdigits2 (shr_m mrs') = Z.max 0 (Zdigits2 m - Z.max 0 n)).
  { rewrite Hm'. apply Zdigits2_shiftr; lia. }
  assert (Hd1 : Zdigits2 (shr_m mrs') <= Zdigits2 m1 <= Zdigits2 (shr_m mrs') + 1).
  { split; [apply Zdigits2_mono; lia|].
    etransitivity; [apply Zdigits2_mono; split; [|apply Hrne]; lia|].
    apply Zdigits2_succ. lia. }
  set (n2 := fexp64 (Zdigits2 m1 + e') - e').
  pose proof (shr_spec (shr_record_of_loc m1 loc_Exact) e' n2) as Hs2.
  rewrite shr_m_of_loc in Hs2. specialize (Hs2 ltac:(lia)).
  destruct (shr (shr_record_of_loc m1 loc_Exact) e' n2) as [mrs'' e''] eqn:Hshr2.
  simpl in Hs2. destruct Hs2 as [Hm'' He''].
  assert (Hm''0 : 0 <= shr_m mrs'') by (rewrite Hm''; apply Z.shiftr_nonneg; lia).
  assert (Hd'' : Zdigits2 (shr_m mrs'') = Z.max 0 (Zdigits2 m1 - Z.max 0 n2)).
  { rewrite Hm''. apply Zdigits2_shiftr; lia. }
  exists e', (Zdigits2 (shr_m mrs')), (Zdigits2 m1), e'', (shr_m mrs'').
  unfold n, n2 in *. rewrite !fexp64_eq in *. cbv zeta.
  repeat split; try assumption; try apply Hd1.
Qed.

(** rounding: a number below [2 ^ k] rounds to a float of magnitude at
    most [k + 1], for any [k] between the smallest and the largest
    exponents *)
Lemma binary_round_aux_mag (s : bool) (m e : Z) (l : SpecFloat.location) (k : Z) :
  0 <= m -> Zdigits2 m + e <= k -> e <= 971 -> -1074 <= k <= 1023 ->
  mag_le (k + 1) (binary_round_aux prec emax s m e l).
Proof.
  intros Hm Hk He Hkr.
  destruct (binary_round_aux_steps s m e l Hm)
    as (e' & d' & d1 & e'' & m'' & He' & Hd' & Hd1 & He'' & Hd'' & Hm'' & ->).
  pose proof (Zdigits2_nonneg m) as Hdm.
  set (d := Zdigits2 m) in *. set (d'' := Zdigits2 m'') in *.
  assert (Hex : e'' <= 971 /\ d'' + e'' <= k + 1) by (clearbody d d''; lia).
  destruct Hex as [Hex Hmag]. unfold d'' in Hmag.
  destruct m'' as [|p|p]; [exact I| |lia].
  destruct (Z.leb_spec e'' 971) as [_|Hbad]; [|lia].
  exact Hmag.
Qed.

(** a mantissa that is long enough for its exponent rounds to a valid
    float *)
Lemma binary_round_aux_valid (s : bool) (m e : Z) (l : SpecFloat.location) :
  0 <= m -> e <= fexp64 (Zdigits2 m + e) ->
  valid_binary (binary_round_aux prec emax s m e l) = true.
Proof.
  intros Hm Hn. rewrite fexp64_eq in Hn.
  destruct (binary_round_aux_steps s m e l Hm)
    as (e' & d' & d1 & e'' & m'' & He' & Hd' & Hd1 & He'' & Hd'' & Hm'' & ->).
  pose proof (Zdigits2_nonneg m) as Hdm.
  destruct m'' as [|p|p]; [reflexivity| |lia].
  destruct (Z.leb_spec e'' 971) as [Hle|_]; [|reflexivity].
  change (valid_binary (S754_finite s p e''))
    with (Z.eqb (fexp64 (Zpos (digits2_pos p) + e'')) e'' && Z.leb e'' (emax - prec))%bool.
  rewrite fexp64_eq.
  change (Zdigits2 (Zpos p)) with (Zpos (digits2_pos p)) in Hd''.
  set (d := Zdigits2 m) in *. set (d'' := Zpos (digits2_pos p)) in *.
  assert (0 < d'') by (unfold d''; lia).
  apply andb_true_intro. split.
  - apply Z.eqb_eq. clearbody d d''. lia.
  - apply Z.leb_le. unfold emax, prec. lia.
Qed.

(** in the normal range rounding does not lower the magnitude *)
Lemma binary_round_aux_lower (s : bool) (m e : Z) (l : SpecFloat.location) :
  0 < m -> -1021 <= Zdigits2 m + e <= 1023 -> e <= 971 ->
  exists p e'', binary_round_aux prec emax s m e l = S754_finite s p e''
    /\ Zdigits2 m + e <= Zpos (digits2_pos p) + e''.
Proof.
  intros Hm Hr He.
  destruct (binary_round_aux_steps s m e l ltac:(lia))
    as (e' & d' & d1 & e'' & m'' & He' & Hd' & Hd1 & He'' & Hd'' & Hm'' & ->).
  assert (Hdm : 1 <= Zdigits2 m) by (rewrite Zdigits2_log2 by lia; pose proof (Z.log2_nonneg m); lia).
  set (d := Zdigits2 m) in *. set (d'' := Zdigits2 m'') in *.
  assert (Hex : e'' <= 971 /\ d + e <= d'' + e'' /\ 1 <= d'') by (clearbody d d''; lia).
  destruct Hex as (Hex & Hlow & Hpos). unfold d'' in *.
  destruct m'' as [|p|p]; [simpl in Hpos; lia| |lia].
  destruct (Z.leb_spec e'' 971) as [_|Hbad]; [|lia].
  exists p, e''. split; [reflexivity|exact Hlow].
Qed.

Lemma mag_le_mono (k k' : Z) (x : spec_float) : mag_le k x -> k <= k' -> mag_le k' x.
Proof. destruct x; simpl; lia. Qed.

Lemma iter_xO (p d : positive) : Zpos (Pos.iter xO p d) = Zpos p * 2 ^ Zpos d.
Proof.
  induction d using Pos.peano_ind.
  - simpl. lia.
  - rewrite Pos.iter_succ, Pos2Z.inj_xO, IHd, Pos2Z.inj_succ, Z.pow_succ_r by lia. lia.
Qed.

Lemma shl_align_spec (mx : positive) (ex ex' : Z) :
  let '(mz, ez) := shl_align mx ex ex' in
  ez = Z.min ex ex' /\ Zpos mz = Zpos mx * 2 ^ (ex - ez)
  /\ Zpos (digits2_pos mz) + ez = Zpos (digits2_pos mx) + ex.
Proof.
  unfold shl_align. destruct (ex' - ex) as [|d|d] eqn:Hd.
  - assert (ex' = ex) by lia. subst. rewrite Z.min_id, Z.sub_diag. simpl. lia.
  - split; [lia|]. replace (ex - ex) with 0 by lia. simpl. lia.
  - assert (Hz : Z.min ex ex' = ex') by lia. split; [lia|].
    assert (Hv : Zpos (Pos.iter xO mx d) = Zpos mx * 2 ^ (ex - ex')).
    { rewrite iter_xO. f_equal. f_equal. lia. }
    split; [exact Hv|].
    rewrite !digits2_pos_log2, Hv, Z.log2_mul_pow2 by lia. lia.
Qed.

Lemma binary_round_mag (s : bool) (mx : positive) (ex k : Z) :
  Zpos (digits2_pos mx) + ex <= k -> -1074 <= k <= 1023 ->
  mag_le (k + 1) (binary_round prec emax s mx ex).
Proof.
  intros Hk Hkr. unfold binary_round.
  pose proof (shl_align_spec mx ex (fexp prec emax (Zpos (digits2_pos mx) + ex))) as Hal.
  destruct (shl_align _ _ _) as [mz ez]. destruct Hal as (Hez & _ & Hd).
  fold fexp64 in Hez. rewrite fexp64_eq in Hez.
  apply binary_round_aux_mag; [lia|unfold Zdigits2; lia|lia|lia].
Qed.

Lemma binary_normalize_mag (m e k : Z) (sz : bool) :
  Zdigits2 m + e <= k -> -1074 <= k <= 1023 ->
  mag_le (k + 1) (binary_normalize prec emax m e sz).
Proof.
  intros Hk Hkr. destruct m as [|p|p]; unfold binary_normalize, Zdigits2 in *.
  - exact I.
  - apply binary_round_mag; lia.
  - apply binary_round_mag; lia.
Qed.

Lemma Zdigits2_abs (m : Z) : Zdigits2 (Z.abs m) = Zdigits2 m.
Proof. destruct m; reflexivity. Qed.

Lemma Zdigits2_le_pow (m d : Z) : 0 <= d -> Z.abs m < 2 ^ d -> Zdigits2 m <= d.
Proof.
  intros Hd Hm. rewrite <- Zdigits2_abs. apply Zdigits2_le_iff; lia.
Qed.

Lemma cond_Zopp_abs (s : bool) (m : Z) : Z.abs (cond_Zopp s m) = Z.abs m.
Proof. destruct s; simpl; lia. Qed.

(** two aligned mantissas below [2 ^ (k - ez)] *)
Lemma aligned_below (mx : positive) (ex ez k : Z) :
  ez <= ex -> Zpos (digits2_pos mx) + ex <= k ->
  Zpos (fst (shl_align mx ex ez)) < 2 ^ (k - ez) /\ ez < k.
Proof.
  intros Hez Hk. pose proof (shl_align_spec mx ex ez) as Hal.
  destruct (shl_align mx ex ez) as [mz ez']. destruct Hal as (He' & _ & Hd). simpl.
  assert (ez' = ez) by lia. subst ez'.
  assert (Hdz : Zdigits2 (Zpos mz) <= k - ez) by (unfold Zdigits2; lia).
  assert (0 < Zpos (digits2_pos mz)) by lia.
  split; [|lia]. apply Zdigits2_le_iff in Hdz; lia.
Qed.

Lemma sum_mag (sx sy : bool) (mx my : positive) (ex ey k : Z) (sub : bool) :
  Zpos (digits2_pos mx) + ex <= k -> Zpos (digits2_pos my) + ey <= k ->
  let ez := Z.min ex ey in
  let a := cond_Zopp sx (Zpos (fst (shl_align mx ex ez))) in
  let b := cond_Zopp sy (Zpos (fst (shl_align my ey ez))) in
  Zdigits2 (if sub then a - b else a + b) + ez <= k + 1.
Proof.
  intros Hx Hy ez a b.
  destruct (aligned_below mx ex ez k ltac:(lia) Hx) as [Ha Hez].
  destruct (aligned_below my ey ez k ltac:(lia) Hy) as [Hb _].
  assert (Habs : Z.abs (if sub then a - b else a + b) < 2 ^ (k - ez + 1)).
  { rewrite Z.pow_add_r by lia.
    assert (Z.abs a < 2 ^ (k - ez)) by (unfold a; rewrite cond_Zopp_abs; lia).
    assert (Z.abs b < 2 ^ (k - ez)) by (unfold b; rewrite cond_Zopp_abs; lia).
    destruct sub; lia. }
  apply Zdigits2_le_pow in Habs; lia.
Qed.

Lemma SFadd_mag (x y : spec_float) (k : Z) :
  mag_le k x -> mag_le k y -> -1074 <= k <= 1021 ->
  mag_le (k + 2) (SFadd prec emax x y).
Proof.
  intros Hx Hy Hk.
  destruct x as [sx|sx| |sx mx ex], y as [sy|sy| |sy my ey]; unfold mag_le in Hx, Hy; try contradiction.
  - simpl. destruct sx, sy; exact I.
  - unfold SFadd, mag_le. lia.
  - unfold SFadd, mag_le. lia.
  - unfold SFadd.
    replace (k + 2) with (k + 1 + 1) by lia. apply binary_normalize_mag; [|lia].
    apply (sum_mag sx sy mx my ex ey k false); assumption.
Qed.

Lemma SFsub_mag (x y : spec_float) (k : Z) :
  mag_le k x -> mag_le k y -> -1074 <= k <= 1021 ->
  mag_le (k + 2) (SFsub prec emax x y).
Proof.
  intros Hx Hy Hk.
  destruct x as [sx|sx| |sx mx ex], y as [sy|sy| |sy my ey]; unfold mag_le in Hx, Hy; try contradiction.
  - simpl. destruct sx, sy; exact I.
  - unfold SFsub, mag_le. lia.
  - unfold SFsub, mag_le. lia.
  - unfold SFsub.
    replace (k + 2) with (k + 1 + 1) by lia. apply binary_normalize_mag; [|lia].
    apply (sum_mag sx sy mx my ex ey k true); assumption.
Qed.

Lemma SFmul_mag (x y : spec_float) (kx ky : Z) :
  mag_le kx x -> mag_le ky y -> -1074 <= kx + ky <= 972 ->
  mag_le (kx + ky + 1) (SFmul prec emax x y).
Proof.
  intros Hx Hy Hk.
  destruct x as [sx|sx| |sx mx ex], y as [sy|sy| |sy my ey]; unfold mag_le in Hx, Hy; try contradiction;
    try exact I.
  unfold SFmul.
  assert (0 < Zpos (digits2_pos mx)) by lia. assert (0 < Zpos (digits2_pos my)) by lia.
  apply binary_round_aux_mag; [lia| |lia|lia].
  assert (Hd : Zdigits2 (Zpos (mx * my)) <= Zpos (digits2_pos mx) + Zpos (digits2_pos my)).
  { apply Zdigits2_le_iff; [lia|lia|].
    rewrite Z.pow_add_r, Pos2Z.inj_mul by lia.
    pose proof (Zdigits2_lt_pow (Zpos mx) ltac:(lia)).
    pose proof (Zdigits2_lt_pow (Zpos my) ltac:(lia)). unfold Zdigits2 in *.
    assert (0 < 2 ^ Zpos (digits2_pos mx)) by (apply Z.pow_pos_nonneg; lia).
    assert (0 < 2 ^ Zpos (digits2_pos my)) by (apply Z.pow_pos_nonneg; lia).
    nia. }
  lia.
Qed.

Lemma digits2_pos_ge_pow (p : positive) : 2 ^ (Zpos (digits2_pos p) - 1) <= Zpos p.
Proof.
  rewrite digits2_pos_log2. replace (Z.log2 (Zpos p) + 1 - 1) with (Z.log2 (Zpos p)) by lia.
  apply Z.log2_spec. lia.
Qed.

Lemma pow2_le_mono (a b : Z) : 0 <= a <= b -> 2 ^ a <= 2 ^ b.
Proof. intros H. apply Z.pow_le_mono_r; lia. Qed.

Lemma SFdiv_core_mag (mx my : positive) (ex ey kx : Z) :
  Zpos (digits2_pos mx) + ex <= kx -> 1 <= Zpos (digits2_pos my) + ey ->
  -1074 <= kx <= 1023 ->
  let '(q, e', _) := SFdiv_core_binary prec emax (Zpos mx) ex (Zpos my) ey in
  0 <= q /\ Zdigits2 q + e' <= kx /\ e' <= 971.
Proof.
  intros Hx Hy Hk. unfold SFdiv_core_binary. fold fexp64. rewrite fexp64_eq.
  change (Zdigits2 (Zpos mx)) with (Zpos (digits2_pos mx)).
  change (Zdigits2 (Zpos my)) with (Zpos (digits2_pos my)).
  set (d1 := Zpos (digits2_pos mx)) in *. set (d2 := Zpos (digits2_pos my)) in *.
  set (e' := Z.min (Z.max (d1 + ex - (d2 + ey) - 53) (-1074)) (ex - ey)).
  set (s := ex - ey - e').
  assert (Hs : 0 <= s) by (unfold s, e'; lia).
  set (m' := match s with Zpos _ => Z.shiftl (Zpos mx) s | Z0 => Zpos mx | Zneg _ => 0 end).
  assert (Hm' : m' = Zpos mx * 2 ^ s).
  { unfold m'. destruct s as [|p|p]; [lia|apply Z.shiftl_mul_pow2; lia|lia]. }
  pose proof (Z_div_mod m' (Zpos my) ltac:(lia)) as Hdm.
  destruct (Z.div_eucl m' (Zpos my)) as [q r]. destruct Hdm as [Hq Hr].
  assert (H2s : 0 < 2 ^ s) by (apply Z.pow_pos_nonneg; lia).
  assert (Hq0 : 0 <= q) by nia.
  split; [exact Hq0|].
  assert (Hd1 : 0 < d1) by (unfold d1; lia). assert (Hd2 : 0 < d2) by (unfold d2; lia).
  set (t := Z.max 0 (d1 + s - d2 + 1)).
  assert (Hqt : q < 2 ^ t).
  { destruct (Z_lt_le_dec q (2 ^ t)) as [|Hge]; [assumption|exfalso].
    pose proof (digits2_pos_ge_pow my) as Hlo. fold d2 in Hlo.
    pose proof (Zdigits2_lt_pow (Zpos mx) ltac:(lia)) as Hhi. unfold Zdigits2 in Hhi. fold d1 in Hhi.
    assert (Hm'lt : m' < 2 ^ (d1 + s)) by (rewrite Hm', Z.pow_add_r by lia; nia).
    assert (Hpow : 2 ^ (d1 + s) <= 2 ^ t * 2 ^ (d2 - 1)).
    { rewrite <- Z.pow_add_r by lia. apply pow2_le_mono. lia. }
    assert (0 < 2 ^ (d2 - 1)) by (apply Z.pow_pos_nonneg; lia).
    assert (0 < 2 ^ t) by (apply Z.pow_pos_nonneg; lia).
    nia. }
  assert (Hdq : Zdigits2 q <= t) by (apply Zdigits2_le_iff; lia).
  clear Hqt Hq Hr Hm' H2s Hq0. clearbody m' d1 d2.
  generalize dependent (Zdigits2 q). intros dq Hdq.
  unfold t, s, e' in *. lia.
Qed.

Lemma SFdiv_mag (x y : spec_float) (kx : Z) :
  mag_le kx x -> mag_ge1 y -> -1074 <= kx <= 1023 ->
  mag_le (kx + 1) (SFdiv prec emax x y).
Proof.
  intros Hx Hy Hk.
  destruct x as [sx|sx| |sx mx ex], y as [sy|sy| |sy my ey];
    unfold mag_le, mag_ge1 in Hx, Hy; try contradiction; try exact I.
  unfold SFdiv.
  pose proof (SFdiv_core_mag mx my ex ey kx Hx Hy Hk) as Hc.
  destruct (SFdiv_core_binary prec emax (Zpos mx) ex (Zpos my) ey) as [[q e'] lz].
  destruct Hc as (Hq & Hd & He).
  apply binary_round_aux_mag; assumption.
Qed.

Lemma SFsqrt_core_mag (mx : positive) (ex kx : Z) :
  Zpos (digits2_pos mx) + ex <= kx -> 1 <= kx <= 1023 ->
  let '(q, e', _) := SFsqrt_core_binary prec emax (Zpos mx) ex in
  0 <= q /\ Zdigits2 q + e' <= kx /\ e' <= 971.
Proof.
  intros Hx Hk. unfold SFsqrt_core_binary. fold fexp64. rewrite fexp64_eq.
  change (Zdigits2 (Zpos mx)) with (Zpos (digits2_pos mx)).
  set (d := Zpos (digits2_pos mx)) in *.
  rewrite !Z.div2_div.
  set (e' := Z.min (Z.max ((d + ex + 1) / 2 - 53) (-1074)) (ex / 2)).
  set (s := ex - 2 * e').
  assert (Hs : 0 <= s).
  { pose proof (Z.mul_div_le ex 2 ltac:(lia)). unfold s, e'. lia. }
  set (m' := match s with Zpos _ => Z.shiftl (Zpos mx) s | Z0 => Zpos mx | Zneg _ => 0 end).
  assert (Hm' : m' = Zpos mx * 2 ^ s).
  { unfold m'. destruct s as [|p|p]; [lia|apply Z.shiftl_mul_pow2; lia|lia]. }
  assert (H2s : 0 < 2 ^ s) by (apply Z.pow_pos_nonneg; lia).
  assert (Hm'0 : 0 <= m') by nia.
  pose proof (Z.sqrtrem_spec m' Hm'0) as Hsq.
  destruct (Z.sqrtrem m') as [q r]. destruct Hsq as [Hq Hr].
  assert (Hq0 : 0 <= q) by lia.
  split; [exact Hq0|].
  assert (Hd : 0 < d) by (unfold d; lia).
  set (t := (d + s + 1) / 2).
  assert (Ht : 0 <= t /\ d + s <= 2 * t).
  { pose proof (Z.div_mod (d + s + 1) 2 ltac:(lia)).
    pose proof (Z.mod_pos_bound (d + s + 1) 2 ltac:(lia)). fold t in H. lia. }
  assert (Hqt : q < 2 ^ t).
  { destruct (Z_lt_le_dec q (2 ^ t)) as [|Hge]; [assumption|exfalso].
    pose proof (Zdigits2_lt_pow (Zpos mx) ltac:(lia)) as Hhi. unfold Zdigits2 in Hhi. fold d in Hhi.
    assert (Hm'lt : m' < 2 ^ (d + s)) by (rewrite Hm', Z.pow_add_r by lia; nia).
    assert (Hpow : 2 ^ (d + s) <= 2 ^ t * 2 ^ t).
    { rewrite <- Z.pow_add_r by lia. apply pow2_le_mono. lia. }
    assert (0 < 2 ^ t) by (apply Z.pow_pos_nonneg; lia).
    nia. }
  assert (Hdq : Zdigits2 q <= t) by (apply Zdigits2_le_iff; lia).
  assert (Hte : t = (d + ex + 1) / 2 - e').
  { unfold t, s. replace (d + (ex - 2 * e') + 1) with (d + ex + 1 + (- e') * 2) by lia.
    rewrite Z.div_add by lia. lia. }
  assert (Ha : (d + ex + 1) / 2 <= kx).
  { apply Z.div_le_upper_bound; lia. }
  clear Hqt Hq Hr Hm' H2s Hq0 Hm'0 Ht Hs. clearbody m'.
  set (dq := Zdigits2 q) in *. set (a := (d + ex + 1) / 2) in *.
  set (b := ex / 2) in *. clearbody dq a b t. subst s. unfold e' in *. lia.
Qed.

Lemma SFsqrt_mag (x : spec_float) (kx : Z) :
  mag_le kx x -> nonneg x -> 1 <= kx <= 1023 ->
  mag_le (kx + 1) (SFsqrt prec emax x).
Proof.
  intros Hx Hs Hk.
  destruct x as [sx|sx| |sx mx ex]; unfold mag_le, nonneg in Hx, Hs; try contradiction.
  - exact I.
  - subst sx. unfold SFsqrt.
    pose proof (SFsqrt_core_mag mx ex kx Hx Hk) as Hc.
    destruct (SFsqrt_core_binary prec emax (Zpos mx) ex) as [[q e'] lz].
    destruct Hc as (Hq & Hd & He).
    apply binary_round_aux_mag; [assumption|assumption|assumption|lia].
Qed.

Lemma binary_round_aux_sign (s : bool) (m e : Z) (l : SpecFloat.location) :
  0 <= m ->
  match binary_round_aux prec emax s m e l with
  | S754_finite s' _ _ => s' = s
  | _ => True
  end.
Proof.
  intros Hm.
  destruct (binary_round_aux_steps s m e l Hm)
    as (e' & d' & d1 & e'' & m'' & _ & _ & _ & _ & _ & _ & ->).
  destruct m''; [exact I| |exact I]. destruct (e'' <=? 971); [reflexivity|exact I].
Qed.

Lemma SFmul_nonneg (x : spec_float) : nonneg (SFmul prec emax x x).
Proof.
  destruct x as [sx|sx| |sx mx ex]; try exact I.
  unfold SFmul.
  pose proof (binary_round_aux_sign (xorb sx sx) (Zpos (mx * mx)) (ex + ex) loc_Exact ltac:(lia)) as Hs.
  destruct (binary_round_aux _ _ _ _ _ _) as [s|s| |s m e]; try exact I.
  unfold nonneg. rewrite Hs. apply xorb_nilpotent.
Qed.

Lemma binary_normalize_nonneg (m e : Z) (sz : bool) :
  0 <= m -> nonneg (binary_normalize prec emax m e sz).
Proof.
  intros Hm. destruct m as [|p|p]; [exact I| |lia].
  unfold binary_normalize, binary_round.
  destruct (shl_align _ _ _) as [mz ez].
  pose proof (binary_round_aux_sign false (Zpos mz) ez loc_Exact ltac:(lia)) as Hs.
  destruct (binary_round_aux _ _ _ _ _ _); try exact I. exact Hs.
Qed.

Lemma SFadd_nonneg (x y : spec_float) :
  nonneg x -> nonneg y -> nonneg (SFadd prec emax x y).
Proof.
  intros Hx Hy.
  destruct x as [sx|sx| |sx mx ex], y as [sy|sy| |sy my ey]; unfold nonneg in Hx, Hy;
    try exact I; try (destruct sx, sy; exact I); try (unfold SFadd, nonneg; assumption).
  subst. unfold SFadd. apply binary_normalize_nonneg. unfold cond_Zopp. lia.
Qed.

Lemma binary_normalize_valid (n : Z) :
  valid_binary (binary_normalize prec emax n 0 false) = true.
Proof.
  assert (H : forall s p, valid_binary (binary_round prec emax s p 0) = true).
  { intros s p. unfold binary_round.
    pose proof (shl_align_spec p 0 (fexp prec emax (Zpos (digits2_pos p) + 0))) as Hal.
    destruct (shl_align _ _ _) as [mz ez]. destruct Hal as (Hez & _ & Hd).
    apply binary_round_aux_valid; [lia|].
    change (Zdigits2 (Zpos mz)) with (Zpos (digits2_pos mz)). rewrite Hd.
    fold fexp64 in Hez. rewrite Hez. lia. }
  destruct n; [reflexivity|apply H|apply H].
Qed.

Lemma Prim2SF_b64_of_Z (n : Z) :
  Prim2SF (b64_of_Z n) = binary_normalize prec emax n 0 false.
Proof. unfold b64_of_Z. apply Prim2SF_SF2Prim, binary_normalize_valid. Qed.

Lemma b64_of_Z_below (n k : Z) :
  Z.abs n < 2 ^ k -> 0 <= k <= 1023 -> b64_below (k + 1) (b64_of_Z n).
Proof.
  intros Hn Hk. unfold b64_below. rewrite Prim2SF_b64_of_Z.
  apply binary_normalize_mag; [|lia].
  pose proof (Zdigits2_le_pow n k ltac:(lia) Hn). lia.
Qed.

Lemma b64_of_Z_ge1 (n : Z) :
  1 <= n < 2 ^ 1022 -> mag_ge1 (Prim2SF (b64_of_Z n)).
Proof.
  intros Hn. rewrite Prim2SF_b64_of_Z.
  destruct n as [|p|p]; try lia.
  unfold binary_normalize, binary_round.
  pose proof (shl_align_spec p 0 (fexp prec emax (Zpos (digits2_pos p) + 0))) as Hal.
  destruct (shl_align _ _ _) as [mz ez]. destruct Hal as (Hez & _ & Hd).
  assert (Hdp : Zdigits2 (Zpos p) <= 1022) by (apply Zdigits2_le_iff; lia).
  change (Zdigits2 (Zpos p)) with (Zpos (digits2_pos p)) in Hdp.
  destruct (binary_round_aux_lower false (Zpos mz) ez loc_Exact) as (q & e'' & -> & Hlow).
  - lia.
  - change (Zdigits2 (Zpos mz)) with (Zpos (digits2_pos mz)). lia.
  - lia.
  - unfold mag_ge1. change (Zdigits2 (Zpos mz)) with (Zpos (digits2_pos mz)) in Hlow. lia.
Qed.

Lemma add_below (x y : float) (k : Z) :
  b64_below k x -> b64_below k y -> -1074 <= k <= 1021 -> b64_below (k + 2) (x + y)%float.
Proof. unfold b64_below. rewrite add_spec. apply SFadd_mag. Qed.

Lemma sub_below (x y : float) (k : Z) :
  b64_below k x -> b64_below k y -> -1074 <= k <= 1021 -> b64_below (k + 2) (x - y)%float.
Proof. unfold b64_below. rewrite sub_spec. apply SFsub_mag. Qed.

Lemma mul_below (x y : float) (kx ky : Z) :
  b64_below kx x -> b64_below ky y -> -1074 <= kx + ky <= 972 ->
  b64_below (kx + ky + 1) (x * y)%float.
Proof. unfold b64_below. rewrite mul_spec. apply SFmul_mag. Qed.

Lemma div_below (x y : float) (kx : Z) :
  b64_below kx x -> mag_ge1 (Prim2SF y) -> -1074 <= kx <= 1023 ->
  b64_below (kx + 1) (x / y)%float.
Proof. unfold b64_below. rewrite div_spec. apply SFdiv_mag. Qed.

Lemma sqrt_sum_squares_below (x y : float) (k : Z) :
  b64_below k (x * x + y * y)%float -> 1 <= k <= 1023 ->
  b64_below (k + 1) (PrimFloat.sqrt (x * x + y * y)%float).
Proof.
  unfold b64_below. intros Hb Hk. rewrite sqrt_spec. apply SFsqrt_mag; [exact Hb| |exact Hk].
  rewrite add_spec, !mul_spec. apply SFadd_nonneg; apply SFmul_nonneg.
Qed.

Lemma below_mono (k k' : Z) (x : float) : b64_below k x -> k <= k' -> b64_below k' x.
Proof. apply mag_le_mono. Qed.

Lemma below_is_finite (k : Z) (x : float) : b64_below k x -> PrimFloat.is_finite x = true.
Proof.
  unfold b64_below, PrimFloat.is_finite, is_nan, is_infinity.
  rewrite !FloatAxioms.eqb_spec, abs_spec.
  change (Prim2SF infinity) with (S754_infinity false).
  destruct (Prim2SF x) as [s|s| |s m e]; simpl; try contradiction; intros _.
  - reflexivity.
  - unfold SFeqb, SFcompare. rewrite Z.compare_refl, Pos.compare_cont_refl.
    destruct s; reflexivity.
Qed.

Lemma ge1_not_zero (y : float) : mag_ge1 (Prim2SF y) -> PrimFloat.eqb y 0%float = false.
Proof.
  rewrite FloatAxioms.eqb_spec. change (Prim2SF 0%float) with (S754_zero false).
  destruct (Prim2SF y) as [s|s| |s m e]; simpl; try contradiction; intros _.
  destruct s; reflexivity.
Qed.

End Binary64Bounds.

(** ** Binary64: the score of moderate profiles is finite *)

Section Binary64Score.
Local Open Scope Z_scope.

Ltac b64_ops :=
  change (@fadd float Binary64) with PrimFloat.add in *;
  change (@fsub float Binary64) with PrimFloat.sub in *;
  change (@fmul float Binary64) with PrimFloat.mul in *;
  change (@fdiv float Binary64) with PrimFloat.div in *;
  change (@fsqrt float Binary64) with PrimFloat.sqrt in *;
  change (@float_of_Z float Binary64) with b64_of_Z in *.

Lemma float_of_int_b64 (n k : Z) :
  Z.abs n < 2 ^ k -> 0 <= k <= 1023 ->
  float_of_int (F:=float) n = Ok (b64_of_Z n) /\ b64_below (k + 1) (b64_of_Z n).
Proof.
  intros Hn Hk. pose proof (b64_of_Z_below n k Hn Hk) as Hb.
  split; [|exact Hb]. unfold float_of_int.
  change (float_fits n) with (PrimFloat.is_finite (b64_of_Z n)).
  rewrite (below_is_finite _ _ Hb). reflexivity.
Qed.

Lemma lit_below (n k k' : Z) :
  Z.abs n < 2 ^ k -> 0 <= k <= 1023 -> k + 1 <= k' -> b64_below k' (b64_of_Z n).
Proof. intros Hn Hk Hk'. eapply below_mono; [apply b64_of_Z_below; eassumption|lia]. Qed.

Lemma add_below' (x y : float) (kx ky k : Z) :
  b64_below kx x -> b64_below ky y -> kx <= k -> ky <= k -> -1074 <= k <= 1021 ->
  b64_below (k + 2) (x + y)%float.
Proof. intros Hx Hy ? ? ?. apply add_below; [eapply below_mono; eassumption..|lia]. Qed.

Lemma sub_below' (x y : float) (kx ky k : Z) :
  b64_below kx x -> b64_below ky y -> kx <= k -> ky <= k -> -1074 <= k <= 1021 ->
  b64_below (k + 2) (x - y)%float.
Proof. intros Hx Hy ? ? ?. apply sub_below; [eapply below_mono; eassumption..|lia]. Qed.

Lemma gender_term_below (pref : Preferences) (pb : Profile float) :
  b64_below 8 (gender_term pref pb (float_of_Z 0)).
Proof.
  unfold gender_term.
  destruct (match gender pb with Some g => _ | None => _ end); b64_ops.
  - apply (add_below' _ _ 6 6 6); try lia; apply (lit_below _ 5); simpl; lia.
  - apply (sub_below' _ _ 6 6 6); try lia; apply (lit_below _ 5); simpl; lia.
Qed.

Lemma age_bounds (today bd : date) :
  date_ok today -> date_ok bd -> Z.abs (age_from_birthdate today bd) <= 9999.
Proof.
  unfold date_ok, age_from_birthdate. intros Ht Hb.
  destruct (tuple_lt _ _); simpl Z.b2z; lia.
Qed.

Lemma age_term_below (pref : Preferences) (today : date) (pb : Profile float) (s : float) :
  moderate_prefs pref -> date_ok today ->
  (forall bd, birthdate pb = Some bd -> date_ok bd) ->
  b64_below 8 s ->
  exists s', age_term pref (age today pb) s = Ok s' /\ b64_below 66 s'.
Proof.
  intros (Hmin & Hmax & _ & _) Ht Hbd Hs. unfold age.
  assert (Hkeep : b64_below 66 s) by (eapply below_mono; [exact Hs|lia]).
  destruct (birthdate pb) as [bd|] eqn:Hb; [|exists s; split; [reflexivity|exact Hkeep]].
  pose proof (age_bounds today bd Ht (Hbd bd eq_refl)) as Hage.
  set (b_age := age_from_birthdate today bd) in *. clearbody b_age.
  assert (H63 : 2 ^ 62 + 9999 < 2 ^ 63) by (vm_compute; reflexivity).
  unfold age_term.
  destruct (negb (b_age =? 0)); [|exists s; split; [reflexivity|exact Hkeep]].
  destruct (matches_age pref b_age).
  { eexists. split; [reflexivity|]. b64_ops.
    apply (add_below' _ _ 8 6 64); try lia; [exact Hs|apply (lit_below _ 5); simpl; lia]. }
  destruct (b_age <? age_min pref).
  { destruct (float_of_int_b64 (age_min pref - b_age) 63 ltac:(lia) ltac:(lia)) as [-> Hx].
    eexists. split; [reflexivity|]. b64_ops.
    apply (sub_below' _ _ 8 64 64); try lia; assumption. }
  destruct (age_max pref <? b_age).
  { destruct (float_of_int_b64 (b_age - age_max pref) 63 ltac:(lia) ltac:(lia)) as [-> Hx].
    eexists. split; [reflexivity|]. b64_ops.
    apply (sub_below' _ _ 8 64 64); try lia; assumption. }
  exists s. split; [reflexivity|exact Hkeep].
Qed.

Lemma size_list_to_set_le (l : list string) : (size (list_to_set l : gset string) <= length l)%nat.
Proof.
  induction l as [|x l IH].
  - change (list_to_set [] : gset string) with (∅ : gset string).
    rewrite size_empty. simpl. lia.
  - change (list_to_set (x :: l) : gset string) with ({[x]} ∪ list_to_set l : gset string).
    rewrite size_union_alt, size_singleton. simpl length.
    assert (size (list_to_set l ∖ {[x]} : gset string) ≤ size (list_to_set l : gset string))%nat
      by (apply subseteq_size, subseteq_difference_l; reflexivity).
    lia.
Qed.

Lemma shared_interests_size (pref : Preferences) (pb : Profile float) :
  (size (shared_interests pref pb) <= length (interests pref))%nat.
Proof.
  etransitivity; [|apply size_list_to_set_le].
  apply subseteq_size. unfold shared_interests. apply intersection_subseteq_l.
Qed.

Lemma interest_term_below (pref : Preferences) (pb : Profile float) (s : float) :
  moderate_prefs pref -> b64_below 66 s ->
  exists s', interest_term pref pb s = Ok s' /\ b64_below 70 s'.
Proof.
  intros (_ & _ & _ & Hlen) Hs. unfold interest_term.
  pose proof (shared_interests_size pref pb) as Hsz.
  apply Nat2Z.inj_le in Hsz.
  set (n := Z.of_nat (size (shared_interests pref pb))) in *.
  assert (Habs : Z.abs n < 2 ^ 62) by (unfold n in *; lia).
  destruct (float_of_int_b64 n 62 Habs ltac:(lia)) as [-> Hn].
  eexists. split; [reflexivity|]. b64_ops.
  apply (add_below' _ _ 66 68 68); try lia; [exact Hs|].
  apply (mul_below _ _ 4 63); [apply (lit_below _ 3); simpl; lia|exact Hn|lia].
Qed.

Lemma complete_percentage_b64 (pb : Profile float) : 0 <= complete_percentage pb <= 100.
Proof.
  unfold complete_percentage.
  destruct (str_truthy (display_name pb)), (opt_truthy (birthdate pb)),
    (opt_truthy (gender pb)), (str_truthy (bio pb)), (list_truthy (photos pb)),
    (opt_truthy (location pb)); cbv zeta;
  match goal with |- _ <= ?x <= _ => let v := eval vm_compute in x in change x with v end;
  lia.
Qed.

Lemma one_tenth_below : b64_below 3 (b64_of_Z 1 / b64_of_Z 10)%float.
Proof.
  apply (div_below _ _ 2); [apply (lit_below _ 1); simpl; lia| |lia].
  apply b64_of_Z_ge1. split; [lia|]. apply Z.ltb_lt. vm_compute. reflexivity.
Qed.

Lemma completeness_term_below (pb : Profile float) (s : float) :
  b64_below 70 s ->
  exists s', completeness_term pb s = Ok s' /\ b64_below 72 s'.
Proof.
  intros Hs. unfold completeness_term.
  pose proof (complete_percentage_b64 pb) as Hc.
  assert (Habs : Z.abs (complete_percentage pb) < 2 ^ 7) by (change (2 ^ 7) with 128; lia).
  destruct (float_of_int_b64 (complete_percentage pb) 7 Habs ltac:(lia)) as [-> Hn].
  eexists. split; [reflexivity|]. b64_ops.
  apply (add_below' _ _ 70 12 70); try lia; [exact Hs|].
  apply (mul_below _ _ 3 8); [apply one_tenth_below|exact Hn|lia].
Qed.

Lemma distance_below (la lb : Location float) :
  b64_below 256 (lat la) -> b64_below 256 (lon la) ->
  b64_below 256 (lat lb) -> b64_below 256 (lon lb) ->
  b64_below 538 (distance_km_to la lb).
Proof.
  intros Ha1 Ha2 Hb1 Hb2. unfold distance_km_to. cbv zeta. b64_ops.
  assert (H111 : b64_below 8 (b64_of_Z 111)) by (apply (lit_below _ 7); simpl; lia).
  assert (Hdx : b64_below 267 ((lat la - lat lb) * b64_of_Z 111)%float).
  { apply (mul_below _ _ 258 8); [|exact H111|lia].
    apply (sub_below' _ _ 256 256 256); try lia; assumption. }
  assert (Hdy : b64_below 267 ((lon la - lon lb) * b64_of_Z 111)%float).
  { apply (mul_below _ _ 258 8); [|exact H111|lia].
    apply (sub_below' _ _ 256 256 256); try lia; assumption. }
  apply (sqrt_sum_squares_below _ _ 537); [|lia].
  apply (add_below' _ _ 535 535 535); try lia.
  - apply (mul_below _ _ 267 267); [exact Hdx|exact Hdx|lia].
  - apply (mul_below _ _ 267 267); [exact Hdy|exact Hdy|lia].
Qed.

Lemma max_one_ge1 (m : Z) :
  Z.abs m < 2 ^ 62 ->
  float_of_int (F:=float) (Z.max 1 m) = Ok (b64_of_Z (Z.max 1 m))
  /\ mag_ge1 (Prim2SF (b64_of_Z (Z.max 1 m))).
Proof.
  intros Hm.
  assert (H62 : 1 < 2 ^ 62) by (vm_compute; reflexivity).
  destruct (float_of_int_b64 (Z.max 1 m) 62 ltac:(lia) ltac:(lia)) as [-> _].
  split; [reflexivity|]. apply b64_of_Z_ge1. split; [lia|].
  assert (2 ^ 62 < 2 ^ 1022) by (apply Z.pow_lt_mono_r; lia). lia.
Qed.

(** in binary64 too the divisor [max(1, max_distance_km)] is not zero *)
Lemma py_truediv_guarded_b64 (x : float) (m : Z) :
  Z.abs m < 2 ^ 62 ->
  py_truediv x (b64_of_Z (Z.max 1 m)) = Ok (x / b64_of_Z (Z.max 1 m))%float.
Proof.
  intros Hm. destruct (max_one_ge1 m Hm) as [_ Hge].
  unfold py_truediv.
  change (fis_zero (b64_of_Z (Z.max 1 m))) with (PrimFloat.eqb (b64_of_Z (Z.max 1 m)) 0%float).
  rewrite (ge1_not_zero _ Hge). reflexivity.
Qed.

Lemma distance_term_below (pref : Preferences) (pa pb : Profile float) (s : float) :
  moderate_prefs pref ->
  (forall l, location pa = Some l -> b64_below 256 (lat l) /\ b64_below 256 (lon l)) ->
  (forall l, location pb = Some l -> b64_below 256 (lat l) /\ b64_below 256 (lon l)) ->
  b64_below 72 s ->
  exists s', distance_term pref pa pb s = Ok s' /\ b64_below 549 s'.
Proof.
  intros (_ & _ & Hm & _) Hla Hlb Hs. unfold distance_term.
  assert (Hkeep : b64_below 549 s) by (eapply below_mono; [exact Hs|lia]).
  destruct (location pa) as [la|]; [|exists s; split; [reflexivity|exact Hkeep]].
  destruct (location pb) as [lb|]; [|exists s; split; [reflexivity|exact Hkeep]].
  destruct (Hla la eq_refl) as [Ha1 Ha2]. destruct (Hlb lb eq_refl) as [Hb1 Hb2].
  pose proof (distance_below la lb Ha1 Ha2 Hb1 Hb2) as Hdist.
  cbv zeta. set (dist := distance_km_to la lb) in *. clearbody dist.
  destruct (float_of_int_b64 (max_distance_km pref) 62 Hm ltac:(lia)) as [-> Hfm].
  destruct (fgt_int dist (max_distance_km pref)).
  - eexists. split; [rewrite bind_Ok; reflexivity|]. b64_ops.
    eapply below_mono; [|apply Z.le_refl].
    replace 549 with (547 + 2) by lia.
    apply (sub_below' _ _ 72 545 547); try lia; [exact Hs|].
    apply (mul_below _ _ 540 4); [| |lia].
    + apply (sub_below' _ _ 538 63 538); try lia; assumption.
    + apply (div_below _ _ 3); [apply (lit_below _ 2); simpl; lia| |lia].
      apply b64_of_Z_ge1. split; [lia|]. apply Z.ltb_lt. vm_compute. reflexivity.
  - destruct (max_one_ge1 (max_distance_km pref) Hm) as [-> Hge].
    eexists. split.
    { rewrite !bind_Ok. b64_ops. rewrite py_truediv_guarded_b64 by exact Hm.
      rewrite bind_Ok. reflexivity. }
    assert (Hq : b64_below 541 ((b64_of_Z (max_distance_km pref) - dist)
                                / b64_of_Z (Z.max 1 (max_distance_km pref)))%float).
    { apply (div_below _ _ 540); [|exact Hge|lia].
      apply (sub_below' _ _ 63 538 538); try lia; assumption. }
    b64_ops.
    apply (add_below' _ _ 72 547 547); try lia; [exact Hs|].
    apply (mul_below _ _ 541 5); [| apply (lit_below _ 4); simpl; lia|lia].
    unfold py_max0. destruct (fltb _ _); [exact Hq|].
    b64_ops. apply (lit_below _ 0); simpl; lia.
Qed.

(** for moderate users [score] returns a number below 2^551 in magnitude *)
Lemma score_below (today : date) (rnd : float) (a b : User float) :
  date_ok today -> b64_below 1 rnd -> moderate_user a -> moderate_user b ->
  exists x : float, score today rnd a b = Ok x /\ b64_below 551 x.
Proof.
  intros Ht Hr Ha Hb. unfold score.
  destruct (profile a) as [pa|] eqn:Hpa;
    [|eexists; split; [reflexivity|]; apply (below_mono 2 551); [|lia]; b64_ops;
      apply (lit_below _ 1); simpl; lia].
  destruct (profile b) as [pb|] eqn:Hpb;
    [|eexists; split; [reflexivity|]; apply (below_mono 2 551); [|lia]; b64_ops;
      apply (lit_below _ 1); simpl; lia].
  destruct (Ha pa Hpa) as (Hprefs & _ & Hla).
  destruct (Hb pb Hpb) as (_ & Hbd & Hlb).
  cbv zeta.
  destruct (age_term_below (preferences pa) today pb _ Hprefs Ht Hbd
              (gender_term_below (preferences pa) pb)) as (s2 & E2 & H2).
  destruct (interest_term_below (preferences pa) pb s2 Hprefs H2) as (s3 & E3 & H3).
  destruct (completeness_term_below pb s3 H3) as (s4 & E4 & H4).
  destruct (distance_term_below (preferences pa) pa pb s4 Hprefs Hla Hlb H4)
    as (s5 & E5 & H5).
  eexists. split.
  { rewrite E2, bind_Ok, E3, bind_Ok, E4, bind_Ok, E5, bind_Ok. reflexivity. }
  b64_ops.
  apply (add_below' _ _ 549 5 549); try lia; [exact H5|].
  apply (mul_below _ _ 1 3); [exact Hr|apply (lit_below _ 2); simpl; lia|lia].
Qed.

Lemma below_not_nan (k : Z) (x : float) :
  b64_below k x -> PrimFloat.is_finite x = true /\ PrimFloat.is_nan x = false.
Proof.
  intros Hx. pose proof (below_is_finite k x Hx) as Hf. split; [exact Hf|].
  unfold PrimFloat.is_finite in Hf. destruct (is_nan x); [discriminate Hf|reflexivity].
Qed.

End Binary64Score.

Lemma moderate_sample :
  date_ok today0 ∧ b64_below 1 0.5%float ∧ moderate_user sf64 ∧ moderate_user oakland64.
Proof.
  assert (Hb : ∀ x : float, (let v := Prim2SF x in
             match v with S754_finite _ m e => (Zpos (digits2_pos m) + e <=? 256)%Z = true
                     | S754_zero _ => True | _ => False end) → b64_below 256 x).
  { intros x. unfold b64_below, mag_le. cbv zeta. destruct (Prim2SF x); try done.
    intros H. by apply Z.leb_le. }
  split; [unfold date_ok; simpl; lia|].
  split; [unfold b64_below; vm_compute; discriminate|].
  split; intros p [= <-]; (split; [|split]).
  - unfold moderate_prefs. simpl. lia.
  - intros bd [= <-]. unfold date_ok. simpl. lia.
  - intros l [= <-]. split; apply Hb; vm_compute; reflexivity.
  - unfold moderate_prefs. simpl. lia.
  - intros bd [= <-]. unfold date_ok. simpl. lia.
  - intros l [= <-]. split; apply Hb; vm_compute; reflexivity.
Qed.


(** the viewer's [max_distance_km] is 0: at a distance above 0 the
    penalty is taken, at the distance 0 the division by max(1, 0) is *)
Example score_max_distance_zero :
  score today0 0.5%float sf64 oakland64 = Ok 32.032311685395157%float
  ∧ score today0 0.5%float sf64 (with_interests ["coffee"] sf64) = Ok 51%float.
Proof. vm_compute. split; reflexivity. Qed.

(** *** The order of binary64 numbers *)

Section Binary64Order.
Local Open Scope Z_scope.

Lemma SFcompare_rank (x y : spec_float) :
  x ≠ S754_nan → y ≠ S754_nan →
  SFcompare x y = Some (lex_compare (sf_rank x) (sf_rank y)).
Proof.
  intros Hx Hy.
  destruct x as [sx|sx| |sx mx ex], y as [sy|sy| |sy my ey]; try done;
    try (destruct sx; try destruct sy; reflexivity).
  destruct sx, sy; try reflexivity; unfold SFcompare, lex_compare, sf_rank;
    cbn [fst snd].
  change (-1 ?= -1) with Eq. cbv iota.
  rewrite Z.compare_opp, (Z.compare_antisym ex ey).
  destruct (ex ?= ey); reflexivity.
Qed.

(** the order on keys as a proposition *)
Lemma lex_compare_not_Gt (t u : Z * Z * Z) :
  lex_compare t u ≠ Gt ↔
  t.1.1 < u.1.1 ∨ (t.1.1 = u.1.1 ∧ (t.1.2 < u.1.2 ∨ (t.1.2 = u.1.2 ∧ t.2 <= u.2))).
Proof.
  destruct t as [[a b] c], u as [[a' b'] c']. unfold lex_compare. cbn [fst snd].
  destruct (Z.compare_spec a a'), (Z.compare_spec b b'), (Z.compare_spec c c');
    split; intros Hle; try done; try lia.
Qed.

Lemma lex_compare_Lt (t u : Z * Z * Z) :
  lex_compare t u = Lt ↔
  t.1.1 < u.1.1 ∨ (t.1.1 = u.1.1 ∧ (t.1.2 < u.1.2 ∨ (t.1.2 = u.1.2 ∧ t.2 < u.2))).
Proof.
  destruct t as [[a b] c], u as [[a' b'] c']. unfold lex_compare. cbn [fst snd].
  destruct (Z.compare_spec a a'), (Z.compare_spec b b'), (Z.compare_spec c c');
    split; intros Hle; try done; try lia.
Qed.

Lemma is_nan_false (x : float) : PrimFloat.is_nan x = false ↔ Prim2SF x ≠ S754_nan.
Proof.
  unfold PrimFloat.is_nan. rewrite FloatAxioms.eqb_spec. unfold SFeqb. split.
  - intros Hn Hx. rewrite Hx in Hn. discriminate Hn.
  - intros Hx. rewrite (SFcompare_rank _ _ Hx Hx).
    assert (Hrefl : lex_compare (sf_rank (Prim2SF x)) (sf_rank (Prim2SF x)) = Eq).
    { unfold lex_compare. by rewrite !Z.compare_refl. }
    by rewrite Hrefl.
Qed.

Lemma b64_leb_rank (x y : float) :
  PrimFloat.is_nan x = false → PrimFloat.is_nan y = false →
  (PrimFloat.leb x y = true ↔ lex_compare (sf_rank (Prim2SF x)) (sf_rank (Prim2SF y)) ≠ Gt).
Proof.
  intros Hx%is_nan_false Hy%is_nan_false.
  rewrite leb_spec. unfold SFleb. rewrite (SFcompare_rank _ _ Hx Hy).
  destruct (lex_compare _ _); split; done.
Qed.

Lemma b64_ltb_rank (x y : float) :
  PrimFloat.is_nan x = false → PrimFloat.is_nan y = false →
  (PrimFloat.ltb x y = true ↔ lex_compare (sf_rank (Prim2SF x)) (sf_rank (Prim2SF y)) = Lt).
Proof.
  intros Hx%is_nan_false Hy%is_nan_false.
  rewrite ltb_spec. unfold SFltb. rewrite (SFcompare_rank _ _ Hx Hy).
  destruct (lex_compare _ _); split; done.
Qed.

(** among the floats other than NaN, [<=] is transitive and [<] total *)
Lemma b64_leb_trans (x y z : float) :
  PrimFloat.is_nan x = false → PrimFloat.is_nan y = false → PrimFloat.is_nan z = false →
  PrimFloat.leb x y = true → PrimFloat.leb y z = true → PrimFloat.leb x z = true.
Proof.
  intros Hx Hy Hz. rewrite !b64_leb_rank, !lex_compare_not_Gt by done. lia.
Qed.

Lemma b64_ltb_leb (x y : float) :
  PrimFloat.is_nan x = false → PrimFloat.is_nan y = false →
  PrimFloat.ltb x y = true → PrimFloat.leb x y = true.
Proof.
  intros Hx Hy. rewrite b64_leb_rank, b64_ltb_rank, lex_compare_not_Gt, lex_compare_Lt by done.
  lia.
Qed.

Lemma b64_not_ltb_leb (x y : float) :
  PrimFloat.is_nan x = false → PrimFloat.is_nan y = false →
  PrimFloat.ltb x y = false → PrimFloat.leb y x = true.
Proof.
  intros Hx Hy Hlt. apply b64_leb_rank; [done..|]. apply lex_compare_not_Gt.
  assert (Hn : ¬ lex_compare (sf_rank (Prim2SF x)) (sf_rank (Prim2SF y)) = Lt).
  { intros Hc. apply b64_ltb_rank in Hc; [congruence|done..]. }
  rewrite lex_compare_Lt in Hn. lia.
Qed.

End Binary64Order.

(** *** The ranking in binary64 *)

(** what [<=] relates is not a NaN *)
Lemma b64_leb_not_nan (x y : float) :
  PrimFloat.leb x y = true → PrimFloat.is_nan x = false ∧ PrimFloat.is_nan y = false.
Proof.
  rewrite leb_spec, !is_nan_false. unfold SFleb. intros Hle.
  split; intros Hn; rewrite Hn in Hle; [|destruct (Prim2SF x) as [| | |[] ? ?]];
    discriminate Hle.
Qed.

Lemma b64_leb_trans' (x y z : float) :
  PrimFloat.leb x y = true → PrimFloat.leb y z = true → PrimFloat.leb x z = true.
Proof.
  intros Hxy Hyz.
  destruct (b64_leb_not_nan _ _ Hxy) as [Hx Hy].
  destruct (b64_leb_not_nan _ _ Hyz) as [_ Hz].
  exact (b64_leb_trans x y z Hx Hy Hz Hxy Hyz).
Qed.

(** the scores of moderate users are numbers *)
Lemma scored_loop_binary64 (today : date) (rnd : nat → float) (i : nat)
    (viewer : User float) (candidates : list (User float)) :
  date_ok today → (∀ j, b64_below 1 (rnd j)) →
  moderate_user viewer → Forall moderate_user candidates →
  ∃ scored, scored_loop today rnd i viewer candidates = Ok scored
            ∧ Forall (λ x, PrimFloat.is_nan x = false) scored.*1.
Proof.
  intros Ht Hr Hv Hc. revert i.
  induction Hc as [|c cs Hc Hcs IH]; intros i; simpl.
  - exists []. split; [reflexivity|constructor].
  - destruct (user_id c =? user_id viewer)%N; [apply IH|].
    destruct (score_below today (rnd i) viewer c Ht (Hr i) Hv Hc) as (x & Hx & Hbel).
    destruct (IH (S i)) as (scored & Hs & Hall).
    exists ((x, c) :: scored). rewrite Hx, bind_Ok, Hs, bind_Ok.
    split; [reflexivity|]. constructor; [|exact Hall].
    exact (proj2 (below_not_nan 551 x Hbel)).
Qed.

(** in binary64, for moderate users, [compute_matches] raises nothing and
    the scores of the users it returns descend, whatever [top_k] is *)
Lemma compute_matches_descending64 (today : date) (rnd : nat → float)
    (viewer : User float) (candidates : list (User float)) (top_k : Z) :
  date_ok today → (∀ j, b64_below 1 (rnd j)) →
  moderate_user viewer → Forall moderate_user candidates →
  ∃ r, ranked today rnd viewer candidates top_k = Ok r
       ∧ compute_matches today rnd viewer candidates (Some top_k) = Ok r.*2
       ∧ descending64 r.
Proof.
  intros Ht Hr Hv Hc.
  destruct (scored_loop_binary64 today rnd 0 viewer candidates Ht Hr Hv Hc)
    as (scored & Hs & Hall).
  exists (slice_to (sort_desc scored) top_k).
  unfold compute_matches, ranked. rewrite Hs, !bind_Ok.
  split; [reflexivity|]. split; [reflexivity|].
  unfold descending64, slice_to.
  destruct (0 <=? top_k)%Z; rewrite fmap_take;
    apply (StronglySorted_take (λ x y : float, PrimFloat.leb x y = true));
    apply (sort_desc_sorted (λ x, PrimFloat.is_nan x = false)
             (λ x y : float, PrimFloat.leb x y = true));
    first [exact b64_leb_trans'|exact b64_ltb_leb|exact b64_not_ltb_leb|exact Hall].
Qed.

(** * Further properties of the code *)

(** ** storage.py: users and their addresses *)

Section Users.
Context {F : Type}.
Implicit Types (db : InMemoryDB F) (u v : User F) (us : list (User F)).

(** the loop returns the first user of the sequence whose address is the
    one looked for, letter case apart *)
Lemma find_user_loop_spec us addr :
  match find_user_by_email us addr with
  | Some u => u ∈ us ∧ lower (email u) = lower addr
  | None => ∀ u, u ∈ us → lower (email u) ≠ lower addr
  end.
Proof.
  induction us as [|u us IH]; simpl.
  - intros u Hu. by apply elem_of_nil in Hu.
  - destruct (String.eqb_spec (lower (email u)) (lower addr)) as [Heq|Hne].
    + split; [left|done].
    + destruct (find_user_by_email us addr) as [v|].
      * destruct IH as [Hin Hv]. split; [by right|done].
      * intros v Hv. apply elem_of_cons in Hv as [->|Hv]; [done|by apply IH].
Qed.

Lemma users_values_elem db us u :
  users_values db us → (u ∈ us ↔ ∃ i, users db !! i = Some u).
Proof. unfold users_values. intros ->. apply elem_of_values. Qed.

End Users.

(** X1. Whatever the order of the dictionary, [find_user_by_email]
    returns a stored user whose address equals the one looked for once
    both are lowered, and returns [None] only when no stored user has
    such an address. *)
Theorem find_user_by_email_sound_complete {F} (db : InMemoryDB F)
    (us : list (User F)) (addr : string) :
  users_values db us →
  match find_user_by_email us addr with
  | Some u => (∃ i, users db !! i = Some u) ∧ lower (email u) = lower addr
  | None => ∀ i u, users db !! i = Some u → lower (email u) ≠ lower addr
  end.
Proof.
  intros Hus. pose proof (find_user_loop_spec us addr) as Hspec.
  destruct (find_user_by_email us addr) as [u|].
  - destruct Hspec as [Hin Hu]. split; [|done]. by apply (users_values_elem db us).
  - intros i u Hi. apply Hspec. apply (users_values_elem db us); [done|]. by exists i.
Qed.

Lemma find_user_by_email_sound_complete_witness :
  match find_user_by_email (values (users (add_user dave (add_user carol new_db))))
          "CAROL@example.com" with
  | Some u => (∃ i, users (add_user dave (add_user carol new_db)) !! i = Some u)
              ∧ lower (email u) = lower "CAROL@example.com"
  | None => ∀ i u, users (add_user dave (add_user carol new_db)) !! i = Some u →
                   lower (email u) ≠ lower "CAROL@example.com"
  end.
Proof.
  apply (find_user_by_email_sound_complete (add_user dave (add_user carol new_db))).
  unfold users_values. reflexivity.
Defined.

(** X2. A user just stored with [add_user] is found by their address in
    any letter case: the search returns some user with that address, and
    returns that very user when no user stored under another identifier
    has the same address, letter case apart. *)
Theorem add_user_then_find {F} (db : InMemoryDB F) (u : User F)
    (us : list (User F)) (addr : string) :
  users_values (add_user u db) us →
  lower addr = lower (email u) →
  (∃ v, find_user_by_email us addr = Some v ∧ lower (email v) = lower (email u))
  ∧ ((∀ i v, users db !! i = Some v → i ≠ user_id u →
        lower (email v) ≠ lower (email u)) →
     find_user_by_email us addr = Some u).
Proof.
  intros Hus Haddr.
  pose proof (find_user_loop_spec us addr) as Hspec.
  assert (Hu : u ∈ us).
  { apply (users_values_elem (add_user u db) us); [done|]. exists (user_id u).
    simpl. apply lookup_insert_eq. }
  destruct (find_user_by_email us addr) as [v|] eqn:Hfind.
  - destruct Hspec as [Hv Hlow].
    split; [exists v; split; [done|congruence]|].
    intros Huniq. f_equal.
    apply (users_values_elem (add_user u db) us) in Hv as [i Hi]; [|done].
    simpl in Hi. destruct (decide (i = user_id u)) as [->|Hne].
    + rewrite lookup_insert_eq in Hi. congruence.
    + rewrite lookup_insert_ne in Hi by done.
      exfalso. apply (Huniq i v Hi Hne). congruence.
  - exfalso. by apply (Hspec u Hu).
Qed.

Lemma add_user_then_find_witness :
  find_user_by_email (values (users (add_user carol (add_user dave new_db))))
    "CAROL@EXAMPLE.COM" = Some carol.
Proof.
  refine (proj2 (add_user_then_find (add_user dave new_db) carol _ "CAROL@EXAMPLE.COM"
                   _ _) _).
  - unfold users_values. reflexivity.
  - vm_compute. reflexivity.
  - intros i v Hi Hne. simpl in Hi.
    destruct (decide (i = 5%N)) as [->|Hne5].
    + rewrite lookup_insert_eq in Hi. injection Hi as <-. vm_compute. discriminate.
    + rewrite lookup_insert_ne in Hi by done. by rewrite lookup_empty in Hi.
Defined.

(** ** storage.py: what a swipe does to the store *)

Section Swipes.
Context {F : Type}.
Implicit Types (db : InMemoryDB F) (m : Match F) (a b u : User F) (swipe : Swipe F).

Lemma existsb_values {V} (f : V → bool) (d : gmap N V) :
  existsb f (values d) = true ↔ ∃ i v, d !! i = Some v ∧ f v = true.
Proof.
  rewrite existsb_exists. split.
  - intros (v & Hin & Hf). apply list_elem_of_In, elem_of_values in Hin as [i Hi].
    by exists i, v.
  - intros (i & v & Hi & Hf). exists v. split; [|done].
    apply list_elem_of_In, elem_of_values. by exists i.
Qed.

Lemma match_between_sym a b m : match_between a b m = match_between b a m.
Proof. unfold match_between. apply orb_comm. Qed.

Lemma match_exists_between_sym db a b :
  _match_exists_between db a b = _match_exists_between db b a.
Proof.
  apply Bool.eq_iff_eq_true. rewrite !match_exists_between_true.
  split; intros (i & m & Hi & Hb); exists i, m; by rewrite match_between_sym.
Qed.

Lemma match_exists_between_logged swipe db a b :
  _match_exists_between (logged swipe db) a b = _match_exists_between db a b.
Proof. reflexivity. Qed.

(** the three ways a call of [add_swipe] ends *)
Lemma add_swipe_cases swipe mid now db :
  let m := mkMatch mid (from_user swipe) (to_user swipe) now true in
  let found := String.eqb (direction swipe) "like"
               && existsb (reverse_like swipe) (values (swipes (logged swipe db)))
               && negb (_match_exists_between db (from_user swipe) (to_user swipe)) in
  add_swipe swipe mid now db =
    if found
    then (Some m, mkDB (users db) (swipes (logged swipe db)) (<[mid := m]> (matches db)))
    else (None, logged swipe db).
Proof.
  cbv zeta. rewrite add_swipe_unfold.
  destruct (String.eqb (direction swipe) "like"); [|done]. simpl andb.
  destruct (_match_exists_between db (from_user swipe) (to_user swipe)) eqn:Hex.
  - rewrite andb_false_r. by apply add_swipe_loop_exists.
  - rewrite andb_true_r. rewrite add_swipe_loop_fresh by exact Hex.
    by destruct (existsb _ _).
Qed.

End Swipes.

(** X3. What [add_swipe] does: it leaves the users alone and logs the
    swipe under its identifier in every case; it returns a match exactly
    when the swipe is a "like" (in these letters), the log, the swipe
    included, holds a like in the reverse direction, and no stored match
    references the pair; the match is then the pair in the order of the
    swipe, active, stored under its identifier, and otherwise the matches
    are left as they were. *)
Theorem add_swipe_outcome {F} (swipe : Swipe F) (mid : UUID) (now : datetime)
    (db : InMemoryDB F) :
  let r := add_swipe swipe mid now db in
  let m := mkMatch mid (from_user swipe) (to_user swipe) now true in
  users r.2 = users db
  ∧ swipes r.2 = <[swipe_id swipe := swipe]> (swipes db)
  ∧ (r.1 = Some m ∧ matches r.2 = <[mid := m]> (matches db)
     ∨ r.1 = None ∧ matches r.2 = matches db)
  ∧ (r.1 = Some m ↔
       direction swipe = "like"
       ∧ (∃ i o, <[swipe_id swipe := swipe]> (swipes db) !! i = Some o
                 ∧ reverse_like swipe o = true)
       ∧ _match_exists_between db (from_user swipe) (to_user swipe) = false).
Proof.
  cbv zeta. rewrite add_swipe_cases. cbv zeta.
  rewrite <- (existsb_values (reverse_like swipe) (<[swipe_id swipe:=swipe]> (swipes db))).
  change (swipes (logged swipe db)) with (<[swipe_id swipe:=swipe]> (swipes db)).
  destruct (String.eqb_spec (direction swipe) "like") as [Hd|Hd];
    destruct (existsb _ _);
    destruct (_match_exists_between db (from_user swipe) (to_user swipe));
    simpl; (split; [reflexivity|]); (split; [reflexivity|]);
    (split; [auto|]); split; try done; try (intros (? & ? & ?); done).
Qed.

(** X4. Two likes, one in each direction, leave a match between the two
    users in the store, whatever it held before, provided the two swipes
    have different identifiers; when no match referenced the pair before,
    exactly one of the two calls returns the match: the first if a
    reverse like was already in the log, the second otherwise. *)
Theorem mutual_likes_match {F} (db : InMemoryDB F) (a b : User F)
    (sid1 sid2 mid1 mid2 : UUID) (t1 t2 now1 now2 : datetime) :
  sid1 ≠ sid2 →
  let s1 := mkSwipe sid1 a b "like" t1 in
  let s2 := mkSwipe sid2 b a "like" t2 in
  let r1 := add_swipe s1 mid1 now1 db in
  let r2 := add_swipe s2 mid2 now2 r1.2 in
  _match_exists_between r2.2 a b = true
  ∧ (_match_exists_between db a b = false →
     (r1.1 = Some (mkMatch mid1 a b now1 true) ∧ r2.1 = None)
     ∨ (r1.1 = None ∧ r2.1 = Some (mkMatch mid2 b a now2 true))).
Proof.
  intros Hsid. cbv zeta.
  rewrite (add_swipe_cases (mkSwipe sid1 a b "like" t1)). cbv zeta. simpl.
  destruct (_match_exists_between db a b) eqn:Hex.
  - rewrite andb_false_r. simpl.
    rewrite (add_swipe_matched (mkSwipe sid2 b a "like" t2)); simpl.
    + split; [|done]. by rewrite match_exists_between_logged.
    + by rewrite match_exists_between_sym.
  - rewrite andb_true_r.
    destruct (existsb _ _) eqn:Hrev; simpl.
    + assert (Hnow : _match_exists_between
                (mkDB (users db) (<[sid1 := mkSwipe sid1 a b "like" t1]> (swipes db))
                      (<[mid1 := mkMatch mid1 a b now1 true]> (matches db))) a b = true).
      { apply match_exists_between_true. exists mid1, (mkMatch mid1 a b now1 true).
        split; [apply lookup_insert_eq|]. unfold match_between. simpl.
        by rewrite !N.eqb_refl. }
      rewrite (add_swipe_matched (mkSwipe sid2 b a "like" t2)); simpl.
      * split; [exact Hnow|]. intros _. by left.
      * by rewrite match_exists_between_sym.
    + rewrite (add_swipe_creates (mkSwipe sid2 b a "like" t2)); simpl.
      * split; [|intros _; by right].
        apply match_exists_between_true. exists mid2, (mkMatch mid2 b a now2 true).
        split; [apply lookup_insert_eq|]. unfold match_between. simpl.
        rewrite !N.eqb_refl. by rewrite orb_true_r.
      * reflexivity.
      * apply existsb_values. exists sid1, (mkSwipe sid1 a b "like" t1). split.
        -- simpl. rewrite lookup_insert_ne by done. apply lookup_insert_eq.
        -- unfold reverse_like. simpl. by rewrite !N.eqb_refl.
      * rewrite match_exists_between_sym. exact Hex.
Qed.

Lemma mutual_likes_match_witness :
  _match_exists_between
    (add_swipe (mkSwipe 12 bob alice "like" 0%Z) 22 2%Z
       (add_swipe (mkSwipe 11 alice bob "like" 0%Z) 21 1%Z new_db).2).2 alice bob = true.
Proof.
  refine (proj1 (mutual_likes_match new_db alice bob 11 12 21 22 0%Z 0%Z 1%Z 2%Z _)).
  discriminate.
Defined.

(** X5. [_match_exists_between] does not depend on the order of its two
    users, reads their identifiers only, answers [True] for the two users
    of a match just stored with [add_match], and [False] on a store
    without matches. *)
Theorem match_exists_between_symmetric {F} (db : InMemoryDB F) :
  (∀ a b, _match_exists_between db a b = _match_exists_between db b a)
  ∧ (∀ a b a' b', user_id a = user_id a' → user_id b = user_id b' →
       _match_exists_between db a b = _match_exists_between db a' b')
  ∧ (∀ m, _match_exists_between (add_match m db) (user_a m) (user_b m) = true
          ∧ _match_exists_between (add_match m db) (user_b m) (user_a m) = true)
  ∧ (matches db = ∅ → ∀ a b, _match_exists_between db a b = false).
Proof.
  split; [apply match_exists_between_sym|]. split; [|split].
  - intros a b a' b' Ha Hb. apply Bool.eq_iff_eq_true.
    rewrite !match_exists_between_true. unfold match_between. by rewrite Ha, Hb.
  - intros m.
    assert (H1 : _match_exists_between (add_match m db) (user_a m) (user_b m) = true).
    { apply match_exists_between_true. exists (match_id m), m.
      split; [apply lookup_insert_eq|]. unfold match_between. by rewrite !N.eqb_refl. }
    split; [exact H1|]. by rewrite match_exists_between_sym.
  - intros Hempty a b. unfold _match_exists_between. by rewrite Hempty, values_empty.
Qed.

(** X6. With a match identifier that the store does not use yet,
    [add_swipe] takes nothing away: every stored match stays as it is
    under its identifier, its active flag included, every logged swipe
    other than one with the identifier of the new swipe stays, and a pair
    that had a match still has one. *)
Theorem add_swipe_keeps_matches {F} (swipe : Swipe F) (mid : UUID) (now : datetime)
    (db : InMemoryDB F) :
  matches db !! mid = None →
  let db' := (add_swipe swipe mid now db).2 in
  (∀ i m, matches db !! i = Some m → matches db' !! i = Some m)
  ∧ (∀ i s, i ≠ swipe_id swipe → swipes db !! i = Some s → swipes db' !! i = Some s)
  ∧ (∀ a b, _match_exists_between db a b = true → _match_exists_between db' a b = true).
Proof.
  intros Hfresh. cbv zeta.
  assert (Hkeep : ∀ i m, matches db !! i = Some m →
            matches (add_swipe swipe mid now db).2 !! i = Some m).
  { intros i m Hi. rewrite add_swipe_cases. cbv zeta.
    destruct (_ && _); simpl; [|done].
    rewrite lookup_insert_ne; [done|]. intros <-. congruence. }
  split; [exact Hkeep|]. split.
  - intros i s Hne Hi. rewrite add_swipe_cases. cbv zeta.
    destruct (_ && _); simpl; by rewrite lookup_insert_ne.
  - intros a b. rewrite !match_exists_between_true.
    intros (i & m & Hi & Hb). exists i, m. split; [by apply Hkeep|done].
Qed.

Lemma add_swipe_keeps_matches_witness :
  matches (add_swipe (mkSwipe 11 bob alice "like" 0%Z) 21 1%Z
             (add_match (mkMatch 7 alice bob 0%Z false) new_db)).2 !! 7%N
  = Some (mkMatch 7 alice bob 0%Z false).
Proof.
  refine (proj1 (add_swipe_keeps_matches (mkSwipe 11 bob alice "like" 0%Z) 21 1%Z
            (add_match (mkMatch 7 alice bob 0%Z false) new_db) _) 7%N _ _);
    reflexivity.
Defined.

(** ** models.py: matches, ages and profiles *)

(** X7. In a match between two users with different identifiers,
    [other] returns, for either of them, the other one, for whom it
    returns a user with the identifier of the first; for anyone else it
    returns [None]. *)
Theorem other_is_partner {F} (m : Match F) (u : User F) :
  user_id (user_a m) ≠ user_id (user_b m) →
  match other m u with
  | Some v =>
      user_id v ≠ user_id u
      ∧ (user_id u = user_id (user_a m) ∧ v = user_b m
         ∨ user_id u = user_id (user_b m) ∧ v = user_a m)
      ∧ ∃ w, other m v = Some w ∧ user_id w = user_id u
  | None => user_id u ≠ user_id (user_a m) ∧ user_id u ≠ user_id (user_b m)
  end.
Proof.
  intros Hne. unfold other.
  destruct (N.eqb_spec (user_id u) (user_id (user_a m))) as [Ha|Ha].
  - split; [congruence|]. split; [by left|].
    destruct (N.eqb_spec (user_id (user_b m)) (user_id (user_a m))) as [Hba|Hba];
      [congruence|].
    rewrite N.eqb_refl. by exists (user_a m).
  - destruct (N.eqb_spec (user_id u) (user_id (user_b m))) as [Hb|Hb]; [|done].
    split; [congruence|]. split; [by right|].
    rewrite N.eqb_refl. by exists (user_b m).
Qed.

Lemma other_is_partner_witness :
  user_id bob ≠ user_id alice
  ∧ (user_id alice = user_id alice ∧ bob = bob
     ∨ user_id alice = user_id bob ∧ bob = alice)
  ∧ ∃ w, other (mkMatch 21 alice bob 0%Z true) bob = Some w ∧ user_id w = user_id alice.
Proof.
  refine (other_is_partner (mkMatch 21 alice bob 0%Z true) alice _). discriminate.
Defined.

(** case analysis on the integer comparisons of a goal *)
Ltac z_compare_cases :=
  repeat match goal with
  | |- context [(?a <? ?b)%Z] => destruct (Z.ltb_spec a b)
  | |- context [(?a =? ?b)%Z] => destruct (Z.eqb_spec a b)
  | H : context [(?a <? ?b)%Z] |- _ => destruct (Z.ltb_spec a b)
  | H : context [(?a =? ?b)%Z] |- _ => destruct (Z.eqb_spec a b)
  end; simpl in *; try done; try lia.

(** X8. [age_from_birthdate] as a function of the two dates: the age is
    not negative exactly when the birthdate is not after today, it never
    decreases as today advances, it is the difference of the years on the
    anniversary of the birthdate, and one less on any earlier day of that
    year. *)
Theorem age_from_birthdate_order (today bd : date) :
  ((0 <= age_from_birthdate today bd)%Z ↔ date_leb bd today = true)
  ∧ (∀ later, date_leb today later = true →
       (age_from_birthdate today bd <= age_from_birthdate later bd)%Z)
  ∧ (month today = month bd → day today = day bd →
       age_from_birthdate today bd = (year today - year bd)%Z)
  ∧ (tuple_lt (month today, day today) (month bd, day bd) = true →
       age_from_birthdate today bd = (year today - year bd - 1)%Z).
Proof.
  unfold age_from_birthdate, date_leb, tuple_lt. cbn [fst snd].
  repeat split; intros; z_compare_cases.
Qed.

Lemma age_from_birthdate_order_witness :
  (age_from_birthdate (mkdate 2024 2 28) (mkdate 2000 2 29)
   <= age_from_birthdate (mkdate 2024 3 1) (mkdate 2000 2 29))%Z.
Proof.
  refine (proj1 (proj2 (age_from_birthdate_order (mkdate 2024 2 28) (mkdate 2000 2 29)))
            (mkdate 2024 3 1) _).
  reflexivity.
Defined.

(** X9. In binary64, [complete_percentage] is the integer quotient of
    100 times the number of filled fields by 6, one of 0, 16, 33, 50, 66,
    83 and 100: the division and the product on floats lose nothing
    that the truncation keeps.  It is 100 exactly when the six fields
    are filled and 0 exactly when none is. *)
Theorem complete_percentage_binary64 (p : Profile float) :
  complete_percentage p = (100 * filled_fields p / 6)%Z
  ∧ (0 <= filled_fields p <= 6)%Z
  ∧ (complete_percentage p = 100%Z ↔ filled_fields p = 6%Z)
  ∧ (complete_percentage p = 0%Z ↔ filled_fields p = 0%Z).
Proof.
  unfold complete_percentage, filled_fields.
  destruct (str_truthy (display_name p)), (opt_truthy (birthdate p)),
    (opt_truthy (gender p)), (str_truthy (bio p)), (list_truthy (photos p)),
    (opt_truthy (location p)); cbv zeta;
  match goal with |- ?x = _ ∧ _ =>
    let v := eval vm_compute in x in change x with v end;
  simpl; repeat split; intros; try done; try lia.
Qed.

(** ** engine.py: what [compute_matches] returns *)

Section RankingContent.
Context {F : Type} `{PyFloat F}.

Lemma scored_loop_candidates today rnd i (viewer : User F) candidates scored :
  scored_loop today rnd i viewer candidates = Ok scored →
  scored.*2 = others_of viewer candidates.
Proof.
  unfold others_of. revert i scored.
  induction candidates as [|c rest IH]; intros i scored; simpl.
  - by intros [= <-].
  - destruct (N.eqb_spec (user_id c) (user_id viewer)) as [Heq|Hne].
    + intros Hrest. rewrite filter_cons_False by (intros Hc; apply Hc, Heq).
      by eapply IH.
    + destruct (score today (rnd i) viewer c) as [s|e]; simpl; [|done].
      destruct (scored_loop today rnd (S i) viewer rest) as [tl|e] eqn:Htl; simpl; [|done].
      intros [= <-]. rewrite filter_cons_True by done. simpl. f_equal. by eapply IH.
Qed.

Lemma slice_to_fmap {A B} (f : A → B) (l : list A) (k : Z) :
  f <$> slice_to l k = slice_to (f <$> l) k.
Proof. unfold slice_to. rewrite length_fmap. destruct (0 <=? k)%Z; apply fmap_take. Qed.

Lemma length_slice_to_any {A} (l : list A) (k : Z) :
  Z.of_nat (length (slice_to l k)) =
    if (0 <=? k)%Z then Z.min k (Z.of_nat (length l))
    else Z.max 0 (Z.of_nat (length l) + k).
Proof.
  unfold slice_to. destruct (Z.leb_spec 0 k); rewrite length_take; lia.
Qed.

(** a list whose keys are all [k], where [k < k] does not hold, is
    sorted as it stands *)
Lemma sort_desc_constant (k : F) (l : list (F * User F)) :
  fltb k k = false → Forall (λ p, p.1 = k) l → sort_desc l = l.
Proof.
  intros Hk. induction 1 as [|x l Hx Hl IH]; [done|].
  simpl. fold (sort_desc l). rewrite IH.
  destruct l as [|y l']; [done|]. simpl.
  apply Forall_cons in Hl as [Hy _]. by rewrite Hx, Hy, Hk.
Qed.

(** what [compute_matches] returns when [score] raises nothing *)
Lemma compute_matches_slice today rnd (viewer : User F) candidates top_k scored :
  scored_loop today rnd 0 viewer candidates = Ok scored →
  compute_matches today rnd viewer candidates (Some top_k)
  = Ok (slice_to (sort_desc scored).*2 top_k)
  ∧ (sort_desc scored).*2 ≡ₚ others_of viewer candidates.
Proof.
  intros Hsc. unfold compute_matches, ranked. rewrite Hsc. simpl.
  rewrite slice_to_fmap. split; [done|].
  rewrite <- (scored_loop_candidates _ _ _ _ _ _ Hsc). by rewrite sort_desc_perm.
Qed.

(** without a profile of the viewer every score is -1.0 *)
Lemma scored_loop_no_profile today rnd i (viewer : User F) candidates :
  profile viewer = None →
  ∃ scored, scored_loop today rnd i viewer candidates = Ok scored
            ∧ Forall (λ p, p.1 = float_of_Z (-1)) scored.
Proof.
  intros Hv. revert i. induction candidates as [|c rest IH]; intros i; simpl.
  - by exists [].
  - destruct (user_id c =? user_id viewer)%N; [apply IH|].
    unfold score at 1. rewrite Hv. simpl.
    destruct (IH (S i)) as (tl & -> & Hall). simpl.
    eexists. split; [reflexivity|]. by constructor.
Qed.

Lemma compute_matches_no_profile today rnd (viewer : User F) candidates top_k :
  fltb (float_of_Z (-1)) (float_of_Z (-1)) = false →
  profile viewer = None →
  compute_matches today rnd viewer candidates (Some top_k)
  = Ok (slice_to (others_of viewer candidates) top_k).
Proof.
  intros Hk Hv.
  destruct (scored_loop_no_profile today rnd 0 viewer candidates Hv) as (scored & Hsc & Hall).
  rewrite (proj1 (compute_matches_slice _ _ _ _ top_k _ Hsc)).
  rewrite (sort_desc_constant _ _ Hk Hall).
  by rewrite (scored_loop_candidates _ _ _ _ _ _ Hsc).
Qed.

End RankingContent.

(** X10. In binary64, for users of moderate size, [compute_matches]
    raises nothing and returns, for every [top_k], a slice [full[:top_k]]
    of a rearrangement [full] of the candidates other than the viewer:
    no candidate is returned more often than the list has it, the length
    is [min(top_k, n)] for [top_k >= 0] and [max(0, n + top_k)] for
    [top_k < 0], where [n] counts the candidates other than the viewer,
    and with [top_k >= n] every such candidate is returned. *)
Theorem compute_matches_content (today : date) (rnd : nat → float)
    (viewer : User float) (candidates : list (User float)) (top_k : Z) :
  date_ok today → (∀ j, b64_below 1 (rnd j)) →
  moderate_user viewer → Forall moderate_user candidates →
  let n := Z.of_nat (length (others_of viewer candidates)) in
  ∃ l full,
    compute_matches today rnd viewer candidates (Some top_k) = Ok l
    ∧ full ≡ₚ others_of viewer candidates
    ∧ l = slice_to full top_k
    ∧ Z.of_nat (length l)
      = (if (0 <=? top_k)%Z then Z.min top_k n else Z.max 0 (n + top_k))
    ∧ ((n <= top_k)%Z → l ≡ₚ others_of viewer candidates).
Proof.
  intros Ht Hr Hv Hc n.
  destruct (scored_loop_binary64 today rnd 0 viewer candidates Ht Hr Hv Hc)
    as (scored & Hsc & _).
  destruct (compute_matches_slice today rnd viewer candidates top_k scored Hsc)
    as [Hcm Hperm].
  exists (slice_to (sort_desc scored).*2 top_k), (sort_desc scored).*2.
  split; [exact Hcm|]. split; [exact Hperm|]. split; [reflexivity|].
  assert (Hn : Z.of_nat (length (sort_desc scored).*2) = n).
  { unfold n. by rewrite Hperm. }
  split.
  - rewrite length_slice_to_any. by rewrite Hn.
  - intros Hk. etrans; [|exact Hperm]. unfold slice_to.
    destruct (Z.leb_spec 0 top_k); [|lia].
    rewrite take_ge; [done|lia].
Qed.

Lemma compute_matches_content_witness :
  ∃ l full,
    compute_matches today0 (λ _, 0.5%float) sf64 [oakland64; sf64; oakland64] (Some (-1)%Z)
      = Ok l
    ∧ full ≡ₚ others_of sf64 [oakland64; sf64; oakland64]
    ∧ l = slice_to full (-1)%Z
    ∧ Z.of_nat (length l)
      = (if (0 <=? -1)%Z
         then Z.min (-1) (Z.of_nat (length (others_of sf64 [oakland64; sf64; oakland64])))
         else Z.max 0 (Z.of_nat (length (others_of sf64 [oakland64; sf64; oakland64])) + -1))
    ∧ ((Z.of_nat (length (others_of sf64 [oakland64; sf64; oakland64])) <= -1)%Z →
       l ≡ₚ others_of sf64 [oakland64; sf64; oakland64]).
Proof.
  destruct moderate_sample as (Ht & Hr & Ha & Hb).
  apply (compute_matches_content today0 (λ _, 0.5%float) sf64
           [oakland64; sf64; oakland64] (-1) Ht (λ _, Hr) Ha).
  apply Forall_cons_2; [exact Hb|]. apply Forall_cons_2; [exact Ha|].
  apply Forall_cons_2; [exact Hb|]. apply Forall_nil_2.
Defined.

(** X11. A viewer without a profile gets the candidates in the order of
    the list: every score is the sentinel -1.0, the sort keeps equal
    scores in their order, and [compute_matches] returns the slice
    [[:top_k]] of the candidates other than the viewer, in binary64 and
    in exact arithmetic alike. *)
Theorem compute_matches_no_profile_order :
  (∀ today rnd (viewer : User float) candidates top_k,
     profile viewer = None →
     compute_matches today rnd viewer candidates (Some top_k)
     = Ok (slice_to (others_of viewer candidates) top_k))
  ∧ (∀ today rnd (viewer : User R) candidates top_k,
     profile viewer = None →
     compute_matches today rnd viewer candidates (Some top_k)
     = Ok (slice_to (others_of viewer candidates) top_k)).
Proof.
  split; intros today rnd viewer candidates top_k Hv;
    apply compute_matches_no_profile; try exact Hv.
  - vm_compute. reflexivity.
  - simpl. unfold Rltb. destruct (Rlt_dec _ _) as [Hlt|]; [lra|done].
Qed.

Lemma compute_matches_no_profile_order_witness :
  compute_matches today0 (λ _, 0.5%float) (bare_user 1) [alice; bare_user 1; bob; sf64]
    (Some 2%Z)
  = Ok (slice_to (others_of (bare_user 1) [alice; bare_user 1; bob; sf64]) 2%Z).
Proof.
  apply (proj1 compute_matches_no_profile_order today0 (λ _, 0.5%float) (bare_user 1)
           [alice; bare_user 1; bob; sf64] 2%Z).
  reflexivity.
Defined.

(** ** engine.py: bounds of the score, in exact arithmetic *)

Lemma Rtrunc_nonneg (x : R) (n : Z) : (IZR n <= x < IZR n + 1)%R → (0 <= n)%Z → Rtrunc x = n.
Proof.
  intros Hx Hn. unfold Rtrunc. apply IZR_le in Hn.
  destruct (Rlt_dec x 0) as [Hlt|_]; [lra|].
  symmetry. apply Int_part_spec. lra.
Qed.

(** in exact arithmetic too, [complete_percentage] is the integer
    quotient of 100 times the number of filled fields by 6 *)
Lemma complete_percentage_exact (p : Profile R) :
  complete_percentage p = (100 * filled_fields p / 6)%Z.
Proof.
  unfold complete_percentage, filled_fields.
  destruct (str_truthy (display_name p)), (opt_truthy (birthdate p)),
    (opt_truthy (gender p)), (str_truthy (bio p)), (list_truthy (photos p)),
    (opt_truthy (location p)); cbv zeta; simpl Z.add;
  match goal with |- _ = ?x => let v := eval vm_compute in x in change x with v end;
  (apply Rtrunc_nonneg; [|lia]); simpl; rewrite ?plus_IZR; lra.
Qed.

Lemma filled_fields_range {F} (p : Profile F) : (0 <= filled_fields p <= 6)%Z.
Proof.
  unfold filled_fields.
  destruct (str_truthy _), (opt_truthy (birthdate p)), (opt_truthy (gender p)),
    (str_truthy _), (list_truthy _), (opt_truthy (location p)); simpl; lia.
Qed.

Lemma gender_term_le (pref : Preferences) (pb : Profile R) :
  (-10 <= gender_term pref pb 0 <= 20)%R.
Proof.
  unfold gender_term. destruct (match gender pb with Some _ => _ | None => _ end);
    simpl; lra.
Qed.

Lemma age_delta_le (pref : Preferences) (b_age : option Z) :
  (age_delta pref b_age <= 15)%R.
Proof.
  unfold age_delta, age_term. destruct b_age as [n|]; [|simpl; lra].
  destruct (negb _); [|simpl; lra].
  destruct (matches_age pref n); [simpl; lra|].
  destruct (Z.ltb_spec n (age_min pref)) as [Hlt|_].
  { rewrite float_of_int_exact, bind_Ok. simpl.
    assert (0 < IZR (age_min pref - n))%R by (apply IZR_lt; lia). lra. }
  destruct (Z.ltb_spec (age_max pref) n) as [Hlt|_]; [|simpl; lra].
  rewrite float_of_int_exact, bind_Ok. simpl.
  assert (0 < IZR (n - age_max pref))%R by (apply IZR_lt; lia). lra.
Qed.

Lemma distance_km_to_nonneg (p q : Location R) : (0 <= distance_km_to p q)%R.
Proof. unfold distance_km_to. cbv zeta. simpl. apply sqrt_pos. Qed.

Lemma distance_delta_le (pref : Preferences) (pa pb : Profile R) :
  (distance_delta pref pa pb <= 10)%R.
Proof.
  unfold distance_delta, distance_term.
  destruct (location pa) as [la|]; [|simpl; lra].
  destruct (location pb) as [lb|]; [|simpl; lra].
  cbv zeta. pose proof (distance_km_to_nonneg la lb) as Hd.
  rewrite !float_of_int_exact, !bind_Ok, !py_truediv_guarded, !bind_Ok.
  set (d := distance_km_to la lb) in *. set (m := max_distance_km pref).
  pose proof (max_one_pos m) as Hmax.
  assert (Hm : (IZR m <= IZR (Z.max 1 m))%R) by (apply IZR_le; lia).
  change (fgt_int d m) with (Rltb (IZR m) d).
  destruct (Rltb (IZR m) d) eqn:Hgt.
  - apply Rltb_true in Hgt. simpl. nra.
  - apply Rltb_false in Hgt. simpl. unfold py_max0. simpl.
    destruct (Rltb 0 _) eqn:Hq; [|lra].
    assert (Hq1 : ((IZR m - d) / IZR (Z.max 1 m) <= 1)%R).
    { apply (Rmult_le_reg_r (IZR (Z.max 1 m))); [lra|].
      unfold Rdiv. rewrite Rmult_assoc, Rinv_l by lra. lra. }
    lra.
Qed.



(** ** models.py: the distance, in exact arithmetic *)

Lemma sqrt_sum_squares_triangle (a b c d : R) :
  (sqrt ((a + c) * (a + c) + (b + d) * (b + d))
   <= sqrt (a * a + b * b) + sqrt (c * c + d * d))%R.
Proof.
  set (u := sqrt (a * a + b * b)). set (v := sqrt (c * c + d * d)).
  assert (Hu : (0 <= u)%R) by apply sqrt_pos.
  assert (Hv : (0 <= v)%R) by apply sqrt_pos.
  assert (Hu2 : (u * u = a * a + b * b)%R) by (apply sqrt_sqrt; nra).
  assert (Hv2 : (v * v = c * c + d * d)%R) by (apply sqrt_sqrt; nra).
  assert (Hcs : (a * c + b * d <= u * v)%R).
  { destruct (Rle_lt_dec (a * c + b * d) 0) as [Hneg|Hpos]; [nra|].
    apply Rsqr_incr_0; [|lra|nra]. unfold Rsqr.
    replace (u * v * (u * v))%R with ((u * u) * (v * v))%R by ring.
    rewrite Hu2, Hv2. pose proof (Rle_0_sqr (a * d - b * c)) as Hsq.
    unfold Rsqr in Hsq. lra. }
  assert (H0 : (0 <= (a + c) * (a + c) + (b + d) * (b + d))%R).
  { pose proof (Rle_0_sqr (a + c)) as H1. pose proof (Rle_0_sqr (b + d)) as H2.
    unfold Rsqr in H1, H2. lra. }
  apply Rsqr_incr_0; [|apply sqrt_pos|lra].
  rewrite Rsqr_sqrt by exact H0. unfold Rsqr.
  replace ((u + v) * (u + v))%R with (u * u + 2 * (u * v) + v * v)%R by ring.
  rewrite Hu2, Hv2. lra.
Qed.


(** ** models.py: the distance, in binary64 *)

Section Binary64Distance.
Local Open Scope Z_scope.

(** rounding to nearest-even treats the two signs alike *)
Lemma binary_round_aux_opp (s : bool) (m e : Z) (l : SpecFloat.location) :
  binary_round_aux prec emax (negb s) m e l = SFopp (binary_round_aux prec emax s m e l).
Proof.
  unfold binary_round_aux.
  destruct (shr_fexp prec emax m e l) as [mrs' e'].
  destruct (shr_fexp prec emax _ e' loc_Exact) as [mrs'' e''].
  destruct (shr_m mrs''); [reflexivity| |reflexivity].
  destruct (e'' <=? emax - prec); reflexivity.
Qed.

Lemma binary_round_opp (s : bool) (m : positive) (e : Z) :
  binary_round prec emax (negb s) m e = SFopp (binary_round prec emax s m e).
Proof.
  unfold binary_round. destruct (shl_align m e _) as [mz ez].
  apply binary_round_aux_opp.
Qed.

Lemma binary_normalize_opp (z e : Z) :
  z ≠ 0 →
  binary_normalize prec emax (- z) e false = SFopp (binary_normalize prec emax z e false).
Proof.
  intros Hz. destruct z as [|p|p]; [done| |]; simpl.
  - apply (binary_round_opp false).
  - apply (binary_round_opp true).
Qed.

(** [y - x] is [x - y] with the other sign, or the same zero *)
Lemma SFsub_swap (x y : spec_float) :
  SFsub prec emax y x = SFopp (SFsub prec emax x y)
  ∨ SFsub prec emax y x = SFsub prec emax x y.
Proof.
  destruct x as [sx|sx| |sx mx ex], y as [sy|sy| |sy my ey];
    try (destruct sx, sy; simpl; auto; fail);
    try (destruct sx; simpl; rewrite ?negb_involutive; auto; fail);
    try (destruct sy; simpl; rewrite ?negb_involutive; auto; fail);
    try (simpl; rewrite ?negb_involutive; auto; fail).
  unfold SFsub. cbv zeta. rewrite (Z.min_comm ey ex).
  set (a := cond_Zopp sx (Z.pos (shl_align mx ex (Z.min ex ey)).1)).
  set (b := cond_Zopp sy (Z.pos (shl_align my ey (Z.min ex ey)).1)).
  destruct (decide (a - b = 0)) as [Hz|Hz].
  - right. replace (b - a) with 0 by lia. by rewrite Hz.
  - left. replace (b - a) with (- (a - b)) by lia. by apply binary_normalize_opp.
Qed.

Lemma SFmul_opp_l (u c : spec_float) :
  SFmul prec emax (SFopp u) c = SFopp (SFmul prec emax u c).
Proof.
  destruct u as [su|su| |su mu eu], c as [sc|sc| |sc mc ec]; simpl;
    try reflexivity; try (by destruct su, sc).
  rewrite <- binary_round_aux_opp. by destruct su, sc.
Qed.

Lemma SFmul_opp_opp (u : spec_float) :
  SFmul prec emax (SFopp u) (SFopp u) = SFmul prec emax u u.
Proof.
  destruct u as [su|su| |su mu eu]; simpl; try reflexivity; by destruct su.
Qed.

(** the square of a scaled difference does not depend on the order of
    the two numbers *)
Lemma b64_square_sub_swap (x y c : float) :
  ((y - x) * c * ((y - x) * c))%float = ((x - y) * c * ((x - y) * c))%float.
Proof.
  apply Prim2SF_inj. rewrite !mul_spec, !sub_spec. unfold SF64mul, SF64sub.
  destruct (SFsub_swap (Prim2SF x) (Prim2SF y)) as [-> | ->]; [|reflexivity].
  by rewrite SFmul_opp_l, SFmul_opp_opp.
Qed.

(** a finite number minus itself is [0.0] *)
Lemma b64_sub_diag (x : float) :
  PrimFloat.is_finite x = true → (x - x)%float = 0%float.
Proof.
  intros Hfin. apply Prim2SF_inj. rewrite sub_spec. unfold SF64sub.
  assert (Hx : match Prim2SF x with S754_zero _ | S754_finite _ _ _ => True | _ => False end).
  { unfold PrimFloat.is_finite in Hfin.
    apply negb_true_iff, orb_false_iff in Hfin as [Hnan Hinf].
    apply is_nan_false in Hnan.
    unfold is_infinity in Hinf. rewrite FloatAxioms.eqb_spec, abs_spec in Hinf.
    destruct (Prim2SF x) as [s|s| |s m e]; try done. }
  change (Prim2SF 0%float) with (S754_zero false).
  destruct (Prim2SF x) as [s|s| |s m e]; try done.
  - by destruct s.
  - unfold SFsub. cbv zeta. by rewrite Z.sub_diag.
Qed.

Lemma SFsqrt_core_nonneg (mx : positive) (ex : Z) :
  let '(q, _, _) := SFsqrt_core_binary prec emax (Zpos mx) ex in 0 <= q.
Proof.
  unfold SFsqrt_core_binary. fold fexp64. rewrite fexp64_eq.
  change (Zdigits2 (Zpos mx)) with (Zpos (digits2_pos mx)).
  set (d := Zpos (digits2_pos mx)) in *.
  rewrite !Z.div2_div.
  set (e' := Z.min (Z.max ((d + ex + 1) / 2 - 53) (-1074)) (ex / 2)).
  set (s := ex - 2 * e').
  assert (Hs : 0 <= s).
  { pose proof (Z.mul_div_le ex 2 ltac:(lia)). unfold s, e'. lia. }
  set (m' := match s with Zpos _ => Z.shiftl (Zpos mx) s | Z0 => Zpos mx | Zneg _ => 0 end).
  assert (Hm' : m' = Zpos mx * 2 ^ s).
  { unfold m'. destruct s as [|p|p]; [lia|apply Z.shiftl_mul_pow2; lia|lia]. }
  assert (H2s : 0 < 2 ^ s) by (apply Z.pow_pos_nonneg; lia).
  assert (Hm'0 : 0 <= m') by nia.
  pose proof (Z.sqrtrem_spec m' Hm'0) as Hsq.
  destruct (Z.sqrtrem m') as [q r]. destruct Hsq as [Hq Hr].
  lia.
Qed.

(** a square root is not below zero, whatever its operand *)
Lemma b64_sqrt_not_negative (z : float) :
  PrimFloat.ltb (PrimFloat.sqrt z) 0%float = false.
Proof.
  rewrite ltb_spec, sqrt_spec. unfold SF64sqrt, SFltb.
  change (Prim2SF 0%float) with (S754_zero false).
  destruct (Prim2SF z) as [s|s| |s m e]; try reflexivity; try (by destruct s).
  destruct s; [reflexivity|]. unfold SFsqrt.
  pose proof (SFsqrt_core_nonneg m e) as Hq.
  destruct (SFsqrt_core_binary prec emax (Z.pos m) e) as [[mz ez] lz].
  destruct (binary_round_aux_steps false mz ez lz Hq)
    as (e' & d' & d1 & e'' & m'' & _ & _ & _ & _ & _ & _ & ->).
  destruct m''; try reflexivity. by destruct (e'' <=? 971).
Qed.

End Binary64Distance.



(** ** models.py: photos *)

Section PhotoUrl.

Lemma list_ascii_of_string_append (s1 s2 : string) :
  String.list_ascii_of_string (String.append s1 s2)
  = String.list_ascii_of_string s1 ++ String.list_ascii_of_string s2.
Proof. induction s1 as [|c s1 IH]; simpl; [done|]. by rewrite IH. Qed.

Lemma length_hex_digits (k : nat) (n : N) : length (hex_digits k n) = k.
Proof.
  revert n. induction k as [|k IH]; intros n; simpl; [done|].
  rewrite length_app, IH. simpl. lia.
Qed.

Lemma hex_digit_inj (a b : N) :
  (a < 16)%N → (b < 16)%N → hex_digit a = hex_digit b → a = b.
Proof.
  intros Ha Hb.
  assert (Hcases : ∀ n, (n < 16)%N → n ∈ (N.of_nat <$> seq 0 16)).
  { intros n Hn. apply list_elem_of_fmap. exists (N.to_nat n). split; [lia|].
    apply elem_of_seq. lia. }
  pose proof (Hcases a Ha) as Ha'. pose proof (Hcases b Hb) as Hb'.
  simpl in Ha', Hb'.
  repeat (apply elem_of_cons in Ha' as [->|Ha']); [..|by apply elem_of_nil in Ha'];
    repeat (apply elem_of_cons in Hb' as [->|Hb']); try (by apply elem_of_nil in Hb');
    try reflexivity; intros Heq; vm_compute in Heq; discriminate Heq.
Qed.

Lemma hex_digits_inj (k : nat) (a b : N) :
  (a < 16 ^ N.of_nat k)%N → (b < 16 ^ N.of_nat k)%N →
  hex_digits k a = hex_digits k b → a = b.
Proof.
  revert a b. induction k as [|k IH]; intros a b Ha Hb Heq.
  - simpl in Ha, Hb. lia.
  - simpl in Heq. apply app_inj_2 in Heq as [Hhi Hlo]; [|done].
    injection Hlo as Hlo.
    assert (Hpow : (16 ^ N.of_nat (S k) = 16 * 16 ^ N.of_nat k)%N).
    { rewrite Nat2N.inj_succ. apply N.pow_succ_r'. }
    rewrite Hpow in Ha, Hb.
    assert (Hdiv : (a / 16 = b / 16)%N).
    { apply IH; [apply N.Div0.div_lt_upper_bound; lia..|exact Hhi]. }
    assert (Hmod : (a mod 16 = b mod 16)%N).
    { apply hex_digit_inj; [apply N.mod_lt; lia..|exact Hlo]. }
    rewrite (N.div_mod a 16), (N.div_mod b 16) by lia. by rewrite Hdiv, Hmod.
Qed.

Lemma hyphenate_inj (x y : list Ascii.ascii) :
  length x = 32 → length y = 32 → hyphenate x = hyphenate y → x = y.
Proof.
  intros Hla Hlb. unfold hyphenate. intros Heq.
  apply app_inj_1 in Heq as [H1 Heq]; [|rewrite !length_take; lia].
  injection Heq as Heq.
  apply app_inj_1 in Heq as [H2 Heq]; [|rewrite !length_take, !length_drop; lia].
  injection Heq as Heq.
  apply app_inj_1 in Heq as [H3 Heq]; [|rewrite !length_take, !length_drop; lia].
  injection Heq as Heq.
  apply app_inj_1 in Heq as [H4 Heq]; [|rewrite !length_take, !length_drop; lia].
  injection Heq as H5.
  assert (Hsplit : ∀ z : list Ascii.ascii,
    z = take 8 z ++ take 4 (drop 8 z) ++ take 4 (drop 12 z) ++ take 4 (drop 16 z) ++ drop 20 z).
  { intros z. rewrite <- (take_drop 8 z) at 1. f_equal.
    rewrite <- (take_drop 4 (drop 8 z)) at 1. f_equal. rewrite drop_drop.
    rewrite <- (take_drop 4 (drop (8 + 4) z)) at 1. f_equal. rewrite drop_drop.
    rewrite <- (take_drop 4 (drop (8 + 4 + 4) z)) at 1. f_equal. by rewrite drop_drop. }
  rewrite (Hsplit x), (Hsplit y). by rewrite H1, H2, H3, H4, H5.
Qed.

Lemma uuid_chars_inj (a b : N) :
  (a < 2 ^ 128)%N → (b < 2 ^ 128)%N → uuid_chars a = uuid_chars b → a = b.
Proof.
  intros Ha Hb Heq. apply (hex_digits_inj 32); [exact Ha|exact Hb|].
  apply hyphenate_inj; [apply length_hex_digits..|exact Heq].
Qed.

End PhotoUrl.

(** X15. [upload] stamps the photo with the time of the call and leaves
    it with a URL that is not empty: a URL already set is kept, an empty
    one is replaced by the address made of the identifier; so a photo
    that was deleted gets that address back whatever its URL was.
    [delete] clears the URL and the time.  Neither changes the identifier
    or the order. *)
Theorem photo_upload_delete (now : datetime) (p : Photo) :
  uploaded_at (upload now p) = Some now
  ∧ str_truthy (url (upload now p)) = true
  ∧ url (upload now p) = (if str_truthy (url p) then url p else default_url (photo_id p))
  ∧ Photo_delete p = mkPhoto (photo_id p) "" (order p) None
  ∧ upload now (Photo_delete p)
    = mkPhoto (photo_id p) (default_url (photo_id p)) (order p) (Some now)
  ∧ photo_id (upload now p) = photo_id p ∧ order (upload now p) = order p
  ∧ url (upload now (upload now p)) = url (upload now p).
Proof.
  unfold upload, Photo_delete. cbv zeta. simpl.
  destruct (str_truthy (url p)) eqn:Hu; simpl; rewrite ?Hu; simpl; repeat split.
Qed.

(** X16. Photos with different identifiers (of 128 bits) get different
    default addresses: the text of an identifier determines it. *)
Theorem default_url_injective (a b : UUID) :
  (a < 2 ^ 128)%N → (b < 2 ^ 128)%N → default_url a = default_url b → a = b.
Proof.
  intros Ha Hb Heq. apply (uuid_chars_inj a b Ha Hb).
  apply (f_equal String.list_ascii_of_string) in Heq. unfold default_url in Heq.
  rewrite !list_ascii_of_string_append in Heq.
  apply app_inv_head, app_inv_tail in Heq.
  unfold uuid_str in Heq. by rewrite !String.list_ascii_of_string_of_list_ascii in Heq.
Qed.

Lemma default_url_injective_witness : 4660%N = (4096 + 564)%N.
Proof.
  apply (default_url_injective 4660 (4096 + 564)); reflexivity.
Defined.

Example default_url_sample :
  default_url 4660 = "https://cdn.example.com/photos/00000000-0000-0000-0000-000000001234.jpg".
Proof. vm_compute. reflexivity. Qed.

(** ** models.py: the photos of a profile *)

Section Album.
Implicit Types (self : ProfilePhotos) (objs : gmap N Photo) (refs : list N) (p : Photo).

Lemma photos_of_Forall2 self :
  (∀ r, r ∈ photo_refs self → is_Some (objects self !! r)) →
  Forall2 (λ r p, objects self !! r = Some p) (photo_refs self) (photos_of self).
Proof.
  unfold photos_of. generalize (objects self) as objs.
  induction (photo_refs self) as [|r refs IH]; intros objs Hok; simpl; [constructor|].
  destruct (Hok r ltac:(left)) as [p Hp]. rewrite Hp. simpl.
  constructor; [done|]. apply IH. intros r' Hr'. apply Hok. by right.
Qed.

Lemma renumber_lookup_notin i refs objs r :
  r ∉ refs → renumber i refs objs !! r = objs !! r.
Proof.
  revert i objs. induction refs as [|r0 rest IH]; intros i objs Hr; simpl; [done|].
  apply not_elem_of_cons in Hr as [Hne Hr].
  rewrite IH by done. by rewrite lookup_alter_ne.
Qed.

Lemma renumber_lookup_in i refs objs k r :
  NoDup refs → refs !! k = Some r →
  renumber i refs objs !! r = set_order (Z.of_nat (i + k)) <$> objs !! r.
Proof.
  revert i objs k. induction refs as [|r0 rest IH]; intros i objs k Hnd Hk; [done|].
  apply NoDup_cons in Hnd as [Hr0 Hnd]. simpl. destruct k as [|k].
  - injection Hk as ->. rewrite renumber_lookup_notin by done.
    rewrite lookup_alter_eq. by rewrite Nat.add_0_r.
  - simpl in Hk. rewrite (IH _ _ k) by done.
    assert (r ≠ r0).
    { intros ->. apply Hr0. by eapply list_elem_of_lookup_2. }
    rewrite lookup_alter_ne by done. do 2 f_equal. lia.
Qed.

Lemma renumber_lookup i refs objs r :
  NoDup refs → ∃ k, renumber i refs objs !! r = set_order k <$> objs !! r
                    ∨ renumber i refs objs !! r = objs !! r.
Proof.
  intros Hnd. destruct (decide (r ∈ refs)) as [Hin|Hout].
  - apply list_elem_of_lookup_1 in Hin as [k Hk].
    exists (Z.of_nat (i + k)). left. by apply renumber_lookup_in.
  - exists 0%Z. right. by apply renumber_lookup_notin.
Qed.

Lemma omap_filter_other objs id refs :
  omap (λ r, objs !! r) (filter (λ r, other_photo objs id r = true) refs)
  = filter (λ p, photo_id p ≠ id) (omap (λ r, objs !! r) refs).
Proof.
  induction refs as [|r refs IH]; [done|]. simpl.
  rewrite filter_cons.
  destruct (decide (other_photo objs id r = true)) as [Hk|Hk];
    unfold other_photo in Hk; destruct (objs !! r) as [p|] eqn:Hp; simpl;
    rewrite ?Hp; simpl; try done.
  - apply negb_true_iff, N.eqb_neq in Hk.
    rewrite filter_cons, decide_True by done. f_equal. exact IH.
  - apply not_true_is_false, negb_false_iff, N.eqb_eq in Hk.
    rewrite filter_cons, decide_False by (intros Hc; by apply Hc). exact IH.
Qed.

Lemma omap_set_order (f f' : N → option Photo) refs :
  (∀ r, r ∈ refs → ∃ k, f' r = set_order k <$> f r ∨ f' r = f r) →
  set_order 0 <$> omap f' refs = set_order 0 <$> omap f refs.
Proof.
  induction refs as [|r refs IH]; intros Hrel; [done|]. simpl.
  assert (IH' := IH (λ r' Hr', Hrel r' (list_elem_of_further _ _ _ Hr'))).
  destruct (Hrel r ltac:(left)) as [k [Hk|Hk]]; rewrite Hk;
    destruct (f r) as [p|]; simpl; first [exact IH' | f_equal; exact IH'].
Qed.

Lemma is_Some_renumber i refs objs r :
  is_Some (objs !! r) → is_Some (renumber i refs objs !! r).
Proof.
  revert i objs. induction refs as [|r0 rest IH]; intros i objs Hr; simpl; [done|].
  apply IH. rewrite lookup_alter. destruct (decide (r0 = r)) as [->|]; [|done].
  by apply fmap_is_Some.
Qed.

Lemma omap_ext_in {A B} (f g : A → option B) (l : list A) :
  (∀ r, r ∈ l → f r = g r) → omap f l = omap g l.
Proof.
  induction l as [|r l IH]; intros Hfg; [done|]. simpl.
  rewrite (Hfg r) by left. destruct (g r); [f_equal|];
    apply IH; intros r' Hr'; apply Hfg; by right.
Qed.

Lemma omap_snoc {A B} (f : A → option B) (l : list A) (l' : list A) :
  omap f (l ++ l') = omap f l ++ omap f l'.
Proof.
  induction l as [|r l IH]; [done|]. simpl. destruct (f r); simpl;
    first [exact IH | f_equal; exact IH].
Qed.

Lemma omap_present {A B} (f : A → option B) (l : list A) (g : A → B) :
  (∀ r, r ∈ l → f r = Some (g r)) → omap f l = g <$> l.
Proof.
  induction l as [|r l IH]; intros Hf; [done|]. simpl.
  rewrite (Hf r) by left. simpl. f_equal. apply IH. intros r' Hr'. apply Hf. by right.
Qed.

End Album.

(** X17. [remove_photo], on a profile whose list refers to each Photo
    object once: no photo with the identifier is left, the others stay,
    in their order and with their URL and time of upload, and each of
    them gets its new index as its order, whatever the orders were
    before. *)
Theorem remove_photo_renumbers (id : UUID) (now : datetime) (self : ProfilePhotos) :
  album_ok self →
  let self' := remove_photo id now self in
  album_ok self'
  ∧ numbered self'
  ∧ Forall (λ p, photo_id p ≠ id) (photos_of self')
  ∧ set_order 0 <$> photos_of self'
    = set_order 0 <$> filter (λ p, photo_id p ≠ id) (photos_of self)
  ∧ album_updated_at self' = now.
Proof.
  intros [Hnd Hok]. cbv zeta. unfold remove_photo. cbv zeta.
  set (refs := filter (λ r, other_photo (objects self) id r = true) (photo_refs self)).
  assert (Hnd' : NoDup refs) by (by apply NoDup_filter).
  assert (Hsub : ∀ r, r ∈ refs → r ∈ photo_refs self).
  { intros r Hr. by apply list_elem_of_filter in Hr as [_ Hr]. }
  assert (Hok' : ∀ r, r ∈ refs → is_Some (renumber 0 refs (objects self) !! r)).
  { intros r Hr. apply is_Some_renumber, Hok, Hsub, Hr. }
  assert (Hsame : set_order 0 <$> omap (λ r, renumber 0 refs (objects self) !! r) refs
                  = set_order 0 <$> filter (λ p, photo_id p ≠ id) (photos_of self)).
  { unfold photos_of. rewrite <- omap_filter_other. fold refs.
    apply omap_set_order. intros r _. by apply renumber_lookup. }
  split; [by split|]. split; [|split; [|split; [exact Hsame|reflexivity]]].
  - intros i p Hi.
    pose proof (photos_of_Forall2 (mkProfilePhotos (renumber 0 refs (objects self)) refs now)
                  Hok') as Hrel.
    destruct (Forall2_lookup_r _ _ _ _ _ Hrel Hi) as (r & Hr & Hp). simpl in Hr, Hp.
    rewrite (renumber_lookup_in 0 refs _ i r Hnd' Hr) in Hp.
    destruct (objects self !! r) as [p0|]; [|done]. by injection Hp as <-.
  - unfold photos_of at 1. simpl. apply Forall_forall. intros p Hp.
    assert (Hin : set_order 0 p
              ∈ set_order 0 <$> omap (λ r, renumber 0 refs (objects self) !! r) refs).
    { apply list_elem_of_fmap. by exists p. }
    rewrite Hsame in Hin. apply list_elem_of_fmap in Hin as (p0 & Heq & Hp0).
    apply list_elem_of_filter in Hp0 as [Hne _].
    apply (f_equal photo_id) in Heq. simpl in Heq. congruence.
Qed.

Lemma remove_photo_renumbers_witness :
  numbered (remove_photo 101 9%Z (add_photo 2 3%Z 4%Z (add_photo 1 1%Z 2%Z two_photos))).
Proof.
  refine (proj1 (proj2 (remove_photo_renumbers 101 9%Z
            (add_photo 2 3%Z 4%Z (add_photo 1 1%Z 2%Z two_photos)) _))).
  split.
  - simpl. apply NoDup_cons. split; [|apply NoDup_singleton].
    intros Hin. apply list_elem_of_singleton in Hin. discriminate Hin.
  - intros r Hr. simpl in Hr.
    apply elem_of_cons in Hr as [->|Hr]; [by eexists|].
    apply list_elem_of_singleton in Hr as ->. by eexists.
Defined.

(** X18. [add_photo], on a profile whose list refers to each Photo
    object once, for a Photo object that the list does not hold yet:
    the photo is appended, uploaded, with the former length of the list
    as its order; the photos already there are left as they were, so a
    list numbered by position stays so. *)
Theorem add_photo_appends (photo : N) (p : Photo) (t_upload t_update : datetime)
    (self : ProfilePhotos) :
  album_ok self → photo ∉ photo_refs self → objects self !! photo = Some p →
  let self' := add_photo photo t_upload t_update self in
  album_ok self'
  ∧ photos_of self'
    = photos_of self
      ++ [upload t_upload (set_order (Z.of_nat (length (photos_of self))) p)]
  ∧ (numbered self → numbered self')
  ∧ album_updated_at self' = t_update.
Proof.
  intros [Hnd Hok] Hnew Hp. cbv zeta.
  assert (Hlen : length (photos_of self) = length (photo_refs self)).
  { symmetry. eapply Forall2_length, photos_of_Forall2, Hok. }
  set (n := Z.of_nat (length (photo_refs self))).
  assert (Hold : ∀ r, r ∈ photo_refs self →
            objects (add_photo photo t_upload t_update self) !! r = objects self !! r).
  { intros r Hr. simpl. rewrite !lookup_alter_ne; [done|intros ->; done..]. }
  assert (Hnewp : objects (add_photo photo t_upload t_update self) !! photo
                  = Some (upload t_upload (set_order n p))).
  { simpl. by rewrite !lookup_alter_eq, Hp. }
  assert (Hphotos : photos_of (add_photo photo t_upload t_update self)
            = photos_of self ++ [upload t_upload (set_order n p)]).
  { unfold photos_of at 1. change (photo_refs (add_photo photo t_upload t_update self))
      with (photo_refs self ++ [photo]).
    rewrite omap_snoc. f_equal.
    - unfold photos_of. apply omap_ext_in, Hold.
    - rewrite (omap_present _ [photo] (λ _, upload t_upload (set_order n p))); [done|].
      intros r Hr. by apply list_elem_of_singleton in Hr as ->. }
  split; [|split; [|split; [|reflexivity]]].
  - split.
    + simpl. apply NoDup_app. split; [done|]. split; [|apply NoDup_singleton].
      intros r Hr Hr'. apply list_elem_of_singleton in Hr' as ->. done.
    + intros r Hr. change (photo_refs (add_photo photo t_upload t_update self))
        with (photo_refs self ++ [photo]) in Hr.
      apply elem_of_app in Hr as [Hr|Hr].
      * rewrite Hold by done. by apply Hok.
      * apply list_elem_of_singleton in Hr as ->. by rewrite Hnewp.
  - rewrite Hphotos, Hlen. reflexivity.
  - intros Hnum i q. rewrite Hphotos. intros Hi.
    apply lookup_app_Some in Hi as [Hi|[Hge Hi]]; [by apply Hnum|].
    apply list_lookup_singleton_Some in Hi as [Hi <-].
    unfold upload, set_order, n. simpl. destruct (negb _); simpl; lia.
Qed.

Lemma add_photo_appends_witness :
  photos_of (add_photo 2 3%Z 4%Z (add_photo 1 1%Z 2%Z two_photos))
  = photos_of (add_photo 1 1%Z 2%Z two_photos)
    ++ [upload 3%Z (set_order (Z.of_nat (length (photos_of (add_photo 1 1%Z 2%Z two_photos))))
                      (mkPhoto 102 "https://example.com/b.jpg" 0 None))].
Proof.
  refine (proj1 (proj2 (add_photo_appends 2 (mkPhoto 102 "https://example.com/b.jpg" 0 None)
            3%Z 4%Z (add_photo 1 1%Z 2%Z two_photos) _ _ _))).
  - split; [apply NoDup_singleton|].
    intros r Hr. simpl in Hr. apply list_elem_of_singleton in Hr as ->. by eexists.
  - simpl. intros Hin. apply list_elem_of_singleton in Hin. discriminate Hin.
  - reflexivity.
Defined.

(** X19. The photos of a profile are shared objects: a Photo object
    added a second time is renumbered where it already sits, so the list
    ends with the same photo twice, both entries with the order of the
    second position, and is no longer numbered by position. *)
Theorem add_photo_twice (photo : N) (p : Photo) (t1 t2 t3 t4 : datetime)
    (self : ProfilePhotos) :
  album_ok self → photo ∉ photo_refs self → objects self !! photo = Some p →
  let self' := add_photo photo t3 t4 (add_photo photo t1 t2 self) in
  let q := upload t3 (set_order (Z.of_nat (length (photos_of self)) + 1)
                        (upload t1 (set_order (Z.of_nat (length (photos_of self))) p))) in
  photos_of self' = photos_of self ++ [q; q] ∧ ¬ numbered self'.
Proof.
  intros [Hnd Hok] Hnew Hp. cbv zeta.
  assert (Hlen : length (photos_of self) = length (photo_refs self)).
  { symmetry. eapply Forall2_length, photos_of_Forall2, Hok. }
  set (q := upload t3 _).
  assert (Hq : objects (add_photo photo t3 t4 (add_photo photo t1 t2 self)) !! photo
               = Some q).
  { simpl. rewrite !lookup_alter_eq, Hp. simpl. unfold q. rewrite Hlen.
    rewrite length_app. simpl. do 3 f_equal. lia. }
  assert (Hold : ∀ r, r ∈ photo_refs self →
            objects (add_photo photo t3 t4 (add_photo photo t1 t2 self)) !! r
            = objects self !! r).
  { intros r Hr. simpl. rewrite !lookup_alter_ne; [done|intros ->; done..]. }
  assert (Hphotos : photos_of (add_photo photo t3 t4 (add_photo photo t1 t2 self))
                    = photos_of self ++ [q; q]).
  { unfold photos_of at 1.
    change (photo_refs (add_photo photo t3 t4 (add_photo photo t1 t2 self)))
      with ((photo_refs self ++ [photo]) ++ [photo]).
    rewrite <- app_assoc, omap_snoc. f_equal.
    - unfold photos_of. apply omap_ext_in, Hold.
    - rewrite (omap_present _ [photo; photo] (λ _, q)); [done|].
      intros r Hr. apply elem_of_cons in Hr as [->|Hr]; [done|].
      by apply list_elem_of_singleton in Hr as ->. }
  split; [exact Hphotos|].
  intros Hnum. specialize (Hnum (length (photos_of self)) q).
  rewrite Hphotos in Hnum. rewrite lookup_app_r in Hnum by lia.
  rewrite Nat.sub_diag in Hnum. specialize (Hnum eq_refl).
  unfold q, upload, set_order in Hnum. simpl in Hnum.
  destruct (negb _) in Hnum; simpl in Hnum; lia.
Qed.

Lemma add_photo_twice_witness :
  ¬ numbered (add_photo 1 3%Z 4%Z (add_photo 1 1%Z 2%Z two_photos)).
Proof.
  refine (proj2 (add_photo_twice 1 (mkPhoto 101 "" 0 None) 1%Z 2%Z 3%Z 4%Z two_photos _ _ _)).
  - split; [apply NoDup_nil_2|]. intros r Hr. by apply elem_of_nil in Hr.
  - apply not_elem_of_nil.
  - reflexivity.
Defined.

(** ** models.py: conversations *)

Section Conversations.
Context {F : Type}.
Implicit Types (self : Conversation F) (m : Message F) (u user : User F).

Lemma any_participant_true self user :
  any_participant self user = true ↔
  ∃ p, p ∈ participants self ∧ user_id p = user_id user.
Proof.
  unfold any_participant. rewrite existsb_exists. split.
  - intros (p & Hin & Hid). exists p. split; [by apply list_elem_of_In|].
    by apply N.eqb_eq.
  - intros (p & Hin & Hid). exists p. split; [by apply list_elem_of_In|].
    by apply N.eqb_eq.
Qed.

Lemma any_participant_add self user u :
  any_participant self u = true → any_participant (add_participant user self) u = true.
Proof.
  unfold add_participant. destruct (negb _); [|done].
  unfold any_participant. simpl. rewrite existsb_app. intros ->. done.
Qed.

Lemma any_participant_added self user :
  any_participant (add_participant user self) user = true.
Proof.
  unfold add_participant. destruct (any_participant self user) eqn:Hany; simpl; [done|].
  unfold any_participant. simpl. rewrite existsb_app. simpl.
  rewrite N.eqb_refl. by rewrite orb_true_r.
Qed.

Lemma conversation_ok_step (c : conversation_call F) self :
  conversation_ok self → conversation_ok (do_conversation_call c self).
Proof.
  intros [Hsent Hlast]. destruct c as [m|user]; simpl.
  - unfold send_message. destruct (any_participant self (sender m)) eqn:Hany; simpl;
      [|by split].
    split; simpl.
    + intros m' Hm'. apply elem_of_app in Hm' as [Hm'|Hm'].
      * by apply Hsent.
      * by apply list_elem_of_singleton in Hm' as ->.
    + by rewrite last_snoc.
  - split.
    + intros m Hm. apply any_participant_add. apply Hsent.
      unfold add_participant in Hm. by destruct (negb _).
    + unfold add_participant. by destruct (negb _).
Qed.

Lemma messages_step (c : conversation_call F) self :
  messages self `prefix_of` messages (do_conversation_call c self)
  ∧ participants self `prefix_of` participants (do_conversation_call c self).
Proof.
  destruct c as [m|user]; simpl.
  - unfold send_message. destruct (negb _); simpl; [done|].
    split; [by apply prefix_app_r|done].
  - unfold add_participant. destruct (negb _); simpl; [|done].
    split; [done|by apply prefix_app_r].
Qed.

Lemma NoDup_ids_step (c : conversation_call F) self :
  NoDup (user_id <$> participants self) →
  NoDup (user_id <$> participants (do_conversation_call c self)).
Proof.
  intros Hnd. destruct c as [m|user]; simpl.
  - unfold send_message. by destruct (negb _).
  - unfold add_participant. destruct (any_participant self user) eqn:Hany; simpl; [done|].
    rewrite fmap_app. apply NoDup_app. split; [done|]. split; [|apply NoDup_singleton].
    intros i Hi Hi'. apply list_elem_of_singleton in Hi' as ->.
    apply list_elem_of_fmap in Hi as (p & Hid & Hp).
    assert (any_participant self user = true); [|congruence].
    apply any_participant_true. by exists p.
Qed.

End Conversations.

(** X20. [send_message] raises [ValueError] exactly when no participant
    has the identifier of the sender, before it changes anything;
    otherwise it returns the message, appends it to the messages and sets
    [last_message_at] to the time the message was sent, and changes
    nothing else. *)
Theorem send_message_outcome {F} (m : Message F) (self : Conversation F) :
  match send_message m self with
  | inl e =>
      e = ValueError "Sender not in conversation participants"
      ∧ ∀ p, p ∈ participants self → user_id p ≠ user_id (sender m)
  | inr (m', self') =>
      m' = m
      ∧ (∃ p, p ∈ participants self ∧ user_id p = user_id (sender m))
      ∧ self' = mkConversation (conversation_id self) (participants self)
                  (conversation_created_at self) (Some (sent_at m))
                  (messages self ++ [m])
  end.
Proof.
  unfold send_message. destruct (any_participant self (sender m)) eqn:Hany; simpl.
  - split; [done|]. split; [|done]. by apply any_participant_true.
  - split; [done|]. intros p Hp Hid.
    assert (any_participant self (sender m) = true); [|congruence].
    apply any_participant_true. by exists p.
Qed.

(** X21. [add_participant] adds a user only when no participant has
    the same identifier: adding a user twice is adding them once,
    identifiers that were distinct stay distinct, and a message of a
    user who was added is never refused, nor is one of the two users of
    a match in the conversation opened for them. *)
Theorem add_participant_once {F} (user : User F) (self : Conversation F) :
  add_participant user (add_participant user self) = add_participant user self
  ∧ (NoDup (user_id <$> participants self) →
     NoDup (user_id <$> participants (add_participant user self)))
  ∧ (∀ m, user_id (sender m) = user_id user →
       ∃ self', send_message m (add_participant user self) = inr (m, self'))
  ∧ (∀ (mt : Match F) cid now m,
       user_id (sender m) = user_id (user_a mt) ∨ user_id (sender m) = user_id (user_b mt) →
       ∃ self', send_message m (new_conversation cid now [user_a mt; user_b mt])
                = inr (m, self')).
Proof.
  split; [|split; [|split]].
  - unfold add_participant at 1. by rewrite any_participant_added.
  - apply (NoDup_ids_step (CallAddParticipant user)).
  - intros m Hm. unfold send_message.
    assert (Hany : any_participant (add_participant user self) (sender m) = true).
    { pose proof (any_participant_added self user) as Hadded.
      apply any_participant_true in Hadded as (p & Hp & Hid).
      apply any_participant_true. exists p. split; [done|congruence]. }
    rewrite Hany. simpl. by eexists.
  - intros mt cid now m Hm. unfold send_message.
    assert (Hany : any_participant (new_conversation cid now [user_a mt; user_b mt])
                     (sender m) = true).
    { apply any_participant_true. simpl. destruct Hm as [Hm|Hm].
      - exists (user_a mt). split; [left|done].
      - exists (user_b mt). split; [right; left|done]. }
    rewrite Hany. simpl. by eexists.
Qed.

Lemma add_participant_once_witness :
  NoDup (user_id <$> participants
           (add_participant alice (new_conversation 1 0%Z [alice; bob]))).
Proof.
  refine (proj1 (proj2 (add_participant_once alice (new_conversation 1 0%Z [alice; bob]))) _).
  simpl. apply NoDup_cons. split; [|apply NoDup_singleton].
  intros Hin. apply list_elem_of_singleton in Hin. discriminate Hin.
Defined.

(** X22. Over any sequence of [send_message] and [add_participant]
    calls on a conversation (a refused message leaves the conversation as
    it was), every message kept was sent by a user who is a participant,
    [last_message_at] is the time of the last message kept, messages and
    participants are only ever appended, and distinct identifiers of the
    participants stay distinct.  A new conversation satisfies what is
    assumed. *)
Theorem conversation_invariant {F} (cs : list (conversation_call F))
    (self : Conversation F) :
  conversation_ok self →
  conversation_ok (run_conversation cs self)
  ∧ messages self `prefix_of` messages (run_conversation cs self)
  ∧ participants self `prefix_of` participants (run_conversation cs self)
  ∧ (NoDup (user_id <$> participants self) →
     NoDup (user_id <$> participants (run_conversation cs self))).
Proof.
  revert self. induction cs as [|c cs IH]; intros self Hok; [done|].
  unfold run_conversation. simpl. fold (run_conversation cs (do_conversation_call c self)).
  destruct (IH (do_conversation_call c self) (conversation_ok_step c self Hok))
    as (Hok' & Hm & Hp & Hnd).
  destruct (messages_step c self) as [Hm1 Hp1].
  split; [exact Hok'|]. split; [by etrans|]. split; [by etrans|].
  intros Hnd0. by apply Hnd, NoDup_ids_step.
Qed.

Lemma conversation_invariant_witness :
  conversation_ok
    (run_conversation
       [CallSendMessage (mkMessage 31 alice "Hi!" 5%Z None false);
        CallSendMessage (mkMessage 32 carol "Hello" 6%Z None false);
        CallAddParticipant carol;
        CallSendMessage (mkMessage 33 carol "Hello again" 7%Z None false)]
       (new_conversation 1 0%Z [alice; bob])).
Proof.
  refine (proj1 (conversation_invariant _ (new_conversation 1 0%Z [alice; bob]) _)).
  split; [|reflexivity]. intros m Hm. by apply elem_of_nil in Hm.
Defined.

Example conversation_sample :
  sender <$> messages
    (run_conversation
       [CallSendMessage (mkMessage 31 alice "Hi!" 5%Z None false);
        CallSendMessage (mkMessage 32 carol "Hello" 6%Z None false);
        CallAddParticipant carol;
        CallSendMessage (mkMessage 33 carol "Hello again" 7%Z None false)]
       (new_conversation 1 0%Z [alice; bob]))
  = [alice; carol].
Proof. vm_compute. reflexivity. Qed.

(** ** models.py: subscriptions *)

(** X23. A subscription of the tier "free" is active at every time,
    whatever its expiry; any other one is active exactly before its
    expiry, never without one, so once it is inactive it stays inactive at
    every later time. *)
Theorem subscription_is_active_over_time {F} (self : Subscription F) (t t' : datetime) :
  (t <= t')%Z →
  (tier self = "free" → Subscription_is_active t self = true)
  ∧ (tier self ≠ "free" →
     (Subscription_is_active t self = true ↔ ∃ e, expires_at self = Some e ∧ (t < e)%Z)
     ∧ (Subscription_is_active t self = false → Subscription_is_active t' self = false)).
Proof.
  intros Hle. unfold Subscription_is_active.
  destruct (String.eqb_spec (tier self) "free") as [Hfree|Hpaid]; [done|].
  split; [done|]. intros _.
  destruct (expires_at self) as [e|]; split.
  - rewrite Z.ltb_lt. split; [intros Hlt; by exists e|].
    by intros (e' & [= <-] & Hlt).
  - rewrite !Z.ltb_ge. lia.
  - split; [done|]. by intros (e & He & _).
  - done.
Qed.

Lemma subscription_is_active_over_time_witness :
  Subscription_is_active 200 (mkSubscription 1 alice "premium" 0%Z (Some 30%Z)) = false.
Proof.
  refine (proj2 (proj2 (subscription_is_active_over_time
            (mkSubscription 1 alice "premium" 0%Z (Some 30%Z)) 100 200 _) _) _).
  - lia.
  - discriminate.
  - reflexivity.
Defined.

(** ** main.py: the demo *)

Example demo_user_sample :
  demo_user sample_hash (sample_env 3) 3
  = Ok (mkUser 4 "user3@example.com" "#password123" 0%Z None true
          (Some (mkProfile 104 "User3" (Some (mkdate 1993 4 4)) (Some MALE)
                   "This is a short bio for user 3. Likes hiking and coffee."
                   [mkPhoto 204
                      "https://cdn.example.com/photos/00000000-0000-0000-0000-0000000000cc.jpg"
                      0 (Some 0%Z)]
                   (Some (mkLocation (37.7749 + 3 * 0.01)%float (-122.4194 + 3 * 0.01)%float
                            "DemoCity" "DemoLand"))
                   (mkPreferences [MALE] 23 43 65 ["movies"; "music"]) 0%Z 0%Z))
          true).
Proof. vm_compute. reflexivity. Qed.

Section Demo.
Variable hash_password : string → string.
Variable envs : nat → DemoEnv.

Local Open Scope Z_scope.

Lemma base_lat_below : b64_below 6 base_lat.
Proof. unfold b64_below. vm_compute. discriminate. Qed.

Lemma base_lon_below : b64_below 7 base_lon.
Proof. unfold b64_below. vm_compute. discriminate. Qed.

Lemma one_hundredth_below : b64_below 0 0.01%float.
Proof. unfold b64_below. vm_compute. discriminate. Qed.

(** the user that a turn of the loop makes *)
Lemma demo_user_ok (env : DemoEnv) (i : Z) :
  0 <= i < 2 ^ 59 →
  ∃ u p,
    demo_user hash_password env i = Ok u
    ∧ user_id u = env_user_id env
    ∧ email u = "user" +:+ pretty i +:+ "@example.com"
    ∧ email_verified u = true
    ∧ verify_password hash_password "password123" u = true
    ∧ profile u = Some p
    ∧ moderate_user u
    ∧ complete_percentage p = 100
    ∧ photos p = [mkPhoto (env_photo_id env) (default_url (env_photo_id env)) 0
                    (Some (env_uploaded_at env))]
    ∧ birthdate p = Some (mkdate (1990 + i `mod` 10) (1 + i `mod` 12) (1 + i `mod` 28))
    ∧ updated_at p = env_profile_set_at env.
Proof.
  intros Hi. unfold demo_user.
  destruct (float_of_int_b64 i 59 ltac:(lia) ltac:(lia)) as [Hx Hbelow].
  rewrite Hx, bind_Ok. cbv zeta.
  eexists _, _. split; [reflexivity|].
  split; [reflexivity|]. split; [reflexivity|]. split; [reflexivity|].
  split; [apply String.eqb_refl|]. split; [reflexivity|].
  split; [|split; [|split; [reflexivity|split; reflexivity]]].
  - intros p [= <-]. split; [|split].
    + unfold moderate_prefs. simpl.
      pose proof (Z.mod_pos_bound i 5 ltac:(lia)).
      pose proof (Z.mod_pos_bound i 10 ltac:(lia)).
      destruct (i `mod` 2 =? 0); simpl; lia.
    + intros bd [= <-]. unfold date_ok. simpl.
      pose proof (Z.mod_pos_bound i 10 ltac:(lia)). lia.
    + intros l [= <-]. simpl.
      assert (Hprod : b64_below 61 (b64_of_Z i * 0.01)%float).
      { apply (mul_below _ _ 60 0); [exact Hbelow|exact one_hundredth_below|lia]. }
      split.
      * apply (below_mono 63); [|lia].
        apply (add_below' _ _ 6 61 61); [exact base_lat_below|exact Hprod|lia..].
      * apply (below_mono 63); [|lia].
        apply (add_below' _ _ 7 61 61); [exact base_lon_below|exact Hprod|lia..].
  - unfold complete_percentage. simpl. reflexivity.
Qed.

Lemma demo_setup_loop_ok (indices : list nat) (db : InMemoryDB float)
    (acc : list (User float)) :
  Forall (λ i, Z.of_nat i < 2 ^ 59) indices →
  ∃ us db',
    demo_setup_loop hash_password envs indices db acc = Ok (acc ++ us, db')
    ∧ Forall2 (λ i u, demo_user hash_password (envs i) (Z.of_nat i) = Ok u) indices us
    ∧ users db' = foldl (λ m u, <[user_id u := u]> m) (users db) us
    ∧ swipes db' = swipes db ∧ matches db' = matches db.
Proof.
  revert db acc. induction indices as [|i rest IH]; intros db acc Hall; simpl.
  - exists [], db. rewrite app_nil_r. repeat split. constructor.
  - apply Forall_cons in Hall as [Hi Hall].
    destruct (demo_user_ok (envs i) (Z.of_nat i) ltac:(lia)) as (u & p & Hu & _).
    rewrite Hu, bind_Ok.
    destruct (IH (add_user u db) (acc ++ [u]) Hall) as (us & db' & Hloop & Hus & Hdb & Hs & Hm).
    exists (u :: us), db'. rewrite Hloop, <- app_assoc. simpl.
    split; [done|]. split; [by constructor|]. by split.
Qed.

Lemma foldl_insert_notin (us : list (User float)) (m : gmap N (User float)) (k : N) :
  k ∉ user_id <$> us → foldl (λ m u, <[user_id u := u]> m) m us !! k = m !! k.
Proof.
  revert m. induction us as [|u us IH]; intros m Hk; [done|]. simpl in *.
  apply not_elem_of_cons in Hk as [Hne Hk]. rewrite IH by done.
  by rewrite lookup_insert_ne.
Qed.

Lemma foldl_insert_in (us : list (User float)) (m : gmap N (User float)) (u : User float) :
  NoDup (user_id <$> us) → u ∈ us →
  foldl (λ m u, <[user_id u := u]> m) m us !! user_id u = Some u.
Proof.
  revert m. induction us as [|u0 us IH]; intros m Hnd Hu.
  - by apply elem_of_nil in Hu.
  - simpl in *. apply NoDup_cons in Hnd as [Hu0 Hnd].
    apply elem_of_cons in Hu as [->|Hu]; [|by apply IH].
    rewrite foldl_insert_notin by done. apply lookup_insert_eq.
Qed.

Lemma foldl_insert_dom (us : list (User float)) (m : gmap N (User float)) (k : N) (v : User float) :
  foldl (λ m u, <[user_id u := u]> m) m us !! k = Some v → v ∈ us ∨ m !! k = Some v.
Proof.
  revert m. induction us as [|u us IH]; intros m Hk; [by right|]. simpl in Hk.
  apply IH in Hk as [Hk|Hk]; [left; by right|].
  destruct (decide (k = user_id u)) as [->|Hne].
  - rewrite lookup_insert_eq in Hk. injection Hk as <-. left. left.
  - rewrite lookup_insert_ne in Hk by done. by right.
Qed.

End Demo.

(** X24. [demo_setup(db, n)] with [n] below 2^59 raises nothing and
    returns [n] users (none for [n <= 0]), in the order of their indices.
    The user of index [i] has the identifier drawn for it, the address
    [user<i>@example.com], a verified address, the password
    "password123", and a profile that is complete (100 percent), of moderate
    size, with one uploaded photo of order 0 and a birthdate in the years
    1990-1999 on a day that every month has.  The store gets the
    users and nothing else; each user is stored under their identifier
    when the identifiers drawn are distinct. *)
Theorem demo_setup_users (hash_password : string → string) (envs : nat → DemoEnv)
    (db : InMemoryDB float) (n : Z) :
  (n < 2 ^ 59)%Z →
  ∃ us db',
    demo_setup hash_password envs db n = Ok (us, db')
    ∧ length us = Z.to_nat n
    ∧ (∀ (i : nat) u, us !! i = Some u →
         user_id u = env_user_id (envs i)
         ∧ email u = "user" +:+ pretty (Z.of_nat i) +:+ "@example.com"
         ∧ email_verified u = true
         ∧ verify_password hash_password "password123" u = true
         ∧ moderate_user u
         ∧ ∃ p, profile u = Some p
                ∧ complete_percentage p = 100%Z
                ∧ photos p = [mkPhoto (env_photo_id (envs i))
                                (default_url (env_photo_id (envs i))) 0
                                (Some (env_uploaded_at (envs i)))]
                ∧ ∃ bd, birthdate p = Some bd
                        ∧ (1990 <= year bd <= 1999)%Z ∧ (1 <= month bd <= 12)%Z
                        ∧ (1 <= day bd <= 28)%Z)
    ∧ swipes db' = swipes db ∧ matches db' = matches db
    ∧ (∀ k v, users db' !! k = Some v → v ∈ us ∨ users db !! k = Some v)
    ∧ (NoDup (user_id <$> us) → ∀ u, u ∈ us → users db' !! user_id u = Some u).
Proof.
  intros Hn. unfold demo_setup.
  assert (Hall : Forall (λ i : nat, (Z.of_nat i < 2 ^ 59)%Z) (seq 0 (Z.to_nat n))).
  { apply Forall_forall. intros i Hi. apply elem_of_seq in Hi. lia. }
  destruct (demo_setup_loop_ok hash_password envs _ db [] Hall)
    as (us & db' & Hloop & Hus & Hdb & Hs & Hm).
  exists us, db'. split; [exact Hloop|].
  split; [by rewrite <- (Forall2_length _ _ _ Hus), length_seq|].
  split; [|split; [exact Hs|split; [exact Hm|split]]].
  - intros i u Hi.
    destruct (Forall2_lookup_r _ _ _ _ _ Hus Hi) as (i' & Hi' & Hu).
    apply lookup_seq in Hi' as [-> Hlt]. simpl in Hu.
    destruct (demo_user_ok hash_password (envs i) (Z.of_nat i) ltac:(lia))
      as (u' & p & Hu' & Hid & Hmail & Hver & Hpw & Hp & Hmod & Hc & Hph & Hbd & _).
    assert (u' = u) as -> by congruence.
    split; [exact Hid|]. split; [exact Hmail|]. split; [exact Hver|].
    split; [exact Hpw|]. split; [exact Hmod|].
    exists p. split; [exact Hp|]. split; [exact Hc|]. split; [exact Hph|].
    eexists. split; [exact Hbd|]. simpl.
    pose proof (Z.mod_pos_bound (Z.of_nat i) 10 ltac:(lia)).
    pose proof (Z.mod_pos_bound (Z.of_nat i) 12 ltac:(lia)).
    pose proof (Z.mod_pos_bound (Z.of_nat i) 28 ltac:(lia)). lia.
  - intros k v. rewrite Hdb. apply foldl_insert_dom.
  - intros Hnd u Hu. rewrite Hdb. by apply foldl_insert_in.
Qed.

Lemma demo_setup_users_witness :
  ∃ us db',
    demo_setup sample_hash sample_env new_db 12 = Ok (us, db') ∧ length us = Z.to_nat 12.
Proof.
  destruct (demo_setup_users sample_hash sample_env new_db 12 ltac:(lia))
    as (us & db' & Hrun & Hlen & _).
  exists us, db'. split; [exact Hrun|exact Hlen].
Defined.

Section DemoAddresses.

Lemma lower_append (s1 s2 : string) : lower (s1 +:+ s2) = lower s1 +:+ lower s2.
Proof. induction s1 as [|c s1 IH]; simpl; [done|]. by rewrite IH. Qed.

Lemma chr_lower_digit (d : N) : chr_lower (pretty_N_char d) = pretty_N_char d.
Proof. unfold pretty_N_char. by repeat case_match. Qed.

Lemma lower_pretty_N_go (x : N) (s : string) :
  lower s = s → lower (pretty_N_go x s) = pretty_N_go x s.
Proof.
  revert s. induction (N.lt_wf_0 x) as [x _ IH]; intros s Hs.
  assert (x = 0 ∨ 0 < x)%N as [->|Hx] by lia.
  - by rewrite pretty_N_go_0.
  - rewrite pretty_N_go_step by done. apply IH.
    + by apply N.div_lt.
    + simpl. by rewrite chr_lower_digit, Hs.
Qed.

Lemma lower_pretty_nat (i : nat) : lower (pretty (Z.of_nat i)) = pretty (Z.of_nat i).
Proof.
  destruct (Z.of_nat i) as [|p|p] eqn:Hi; [done| |lia].
  unfold pretty, pretty_Z, pretty, pretty_positive, pretty, pretty_N.
  rewrite decide_False by done. by apply lower_pretty_N_go.
Qed.

Lemma append_inj_r (s t1 t2 : string) : s +:+ t1 = s +:+ t2 → t1 = t2.
Proof. induction s as [|c s IH]; simpl; [done|]. intros [= Heq]. by apply IH. Qed.

Lemma append_inj_l (s1 s2 t : string) : s1 +:+ t = s2 +:+ t → s1 = s2.
Proof.
  intros Heq. apply (f_equal String.list_ascii_of_string) in Heq.
  rewrite !list_ascii_of_string_append in Heq. apply app_inv_tail in Heq.
  apply (f_equal String.string_of_list_ascii) in Heq.
  by rewrite !String.string_of_list_ascii_of_string in Heq.
Qed.

(** the addresses of the demo users differ, also when lowered *)
Lemma demo_address_inj (i j : nat) :
  lower ("user" +:+ pretty (Z.of_nat i) +:+ "@example.com")
  = lower ("user" +:+ pretty (Z.of_nat j) +:+ "@example.com") → i = j.
Proof.
  rewrite !lower_append, !lower_pretty_nat.
  change (lower "user") with "user". change (lower "@example.com") with "@example.com".
  intros Heq. apply append_inj_r, append_inj_l in Heq.
  apply (inj pretty) in Heq. lia.
Qed.

End DemoAddresses.

(** X25. After [demo_setup] on a new store, with distinct identifiers
    drawn for the users, [find_user_by_email] finds the user of index [i]
    by the address [user<i>@example.com] written in any letter case,
    whatever the order of the dictionary. *)
Theorem demo_users_found (hash_password : string → string) (envs : nat → DemoEnv)
    (n : Z) (us order : list (User float)) (db' : InMemoryDB float)
    (i : nat) (u : User float) (addr : string) :
  (n < 2 ^ 59)%Z →
  demo_setup hash_password envs new_db n = Ok (us, db') →
  NoDup (user_id <$> us) →
  users_values db' order →
  us !! i = Some u →
  lower addr = lower ("user" +:+ pretty (Z.of_nat i) +:+ "@example.com") →
  find_user_by_email order addr = Some u.
Proof.
  intros Hn Hrun Hnd Horder Hi Haddr.
  destruct (demo_setup_loop_ok hash_password envs (seq 0 (Z.to_nat n)) new_db [])
    as (us' & db'' & Hloop & Hus & Hdb & _).
  { apply Forall_forall. intros k Hk. apply elem_of_seq in Hk. lia. }
  unfold demo_setup in Hrun. rewrite Hloop in Hrun. injection Hrun as <- <-.
  assert (Hmail : ∀ (j : nat) v, us' !! j = Some v →
            email v = "user" +:+ pretty (Z.of_nat j) +:+ "@example.com").
  { intros j v Hj.
    destruct (Forall2_lookup_r _ _ _ _ _ Hus Hj) as (j' & Hj' & Hv).
    apply lookup_seq in Hj' as [-> Hlt]. simpl in Hv.
    destruct (demo_user_ok hash_password (envs j) (Z.of_nat j) ltac:(lia))
      as (v' & p & Hv' & _ & Hm & _).
    congruence. }
  assert (Hstored : u ∈ order).
  { apply (users_values_elem db'' order); [done|]. exists (user_id u).
    rewrite Hdb. apply foldl_insert_in; [done|]. by eapply list_elem_of_lookup_2. }
  pose proof (find_user_loop_spec order addr) as Hspec.
  destruct (find_user_by_email order addr) as [v|].
  - destruct Hspec as [Hv Hlow]. f_equal.
    apply (users_values_elem db'' order) in Hv as [k Hk]; [|done].
    rewrite Hdb in Hk. apply foldl_insert_dom in Hk as [Hk|Hk]; [|done].
    apply list_elem_of_lookup_1 in Hk as [j Hj].
    assert (j = i) as ->; [|congruence].
    apply demo_address_inj. rewrite <- (Hmail j v Hj). congruence.
  - exfalso. apply (Hspec u Hstored). rewrite (Hmail i u Hi). by rewrite Haddr.
Qed.

Lemma demo_users_found_witness :
  find_user_by_email (values (users sample_demo.2)) "USER1@Example.com"
  = Some (default (bare_user 0) (sample_demo.1 !! 1%nat)).
Proof.
  apply (demo_users_found sample_hash sample_env 3 sample_demo.1 _ sample_demo.2 1).
  - lia.
  - vm_compute. reflexivity.
  - apply (bool_decide_unpack _). vm_compute. reflexivity.
  - unfold users_values. reflexivity.
  - vm_compute. reflexivity.
  - vm_compute. reflexivity.
Defined.

Example demo_run_sample :
  match demo_run sample_hash sample_env sample_run with
  | inr out =>
      out_viewer_name out = "User0"
      ∧ length (out_names out) = 5%nat
      ∧ out_match out
        = Some (mkMatch 402 (default (bare_user 0) (sample_demo.1 !! 2%nat))
                  (default (bare_user 0) (sample_demo.1 !! 1%nat)) 0%Z true)
      ∧ status (out_payment out) = "succeeded"
  | inl _ => False
  end.
Proof. vm_compute. repeat split. Qed.

Section DemoRun.
Variable hash_password : string → string.
Variable envs : nat → DemoEnv.

(** what the rest of the demo uses of [demo_setup] on a new store *)
Lemma demo_setup_facts (n : Z) :
  (n < 2 ^ 59)%Z →
  ∃ us db',
    demo_setup hash_password envs new_db n = Ok (us, db')
    ∧ length us = Z.to_nat n
    ∧ Forall moderate_user us
    ∧ Forall (λ u, is_Some (profile u)) us
    ∧ (∀ (i : nat) u, us !! i = Some u → user_id u = env_user_id (envs i))
    ∧ swipes db' = ∅ ∧ matches db' = ∅.
Proof.
  intros Hn. unfold demo_setup.
  destruct (demo_setup_loop_ok hash_password envs (seq 0 (Z.to_nat n)) new_db [])
    as (us & db' & Hloop & Hus & Hdb & Hs & Hm).
  { apply Forall_forall. intros k Hk. apply elem_of_seq in Hk. lia. }
  exists us, db'. split; [exact Hloop|].
  split; [by rewrite <- (Forall2_length _ _ _ Hus), length_seq|].
  assert (Hfacts : ∀ (i : nat) u, us !! i = Some u →
            user_id u = env_user_id (envs i) ∧ moderate_user u ∧ is_Some (profile u)).
  { intros i u Hi.
    destruct (Forall2_lookup_r _ _ _ _ _ Hus Hi) as (i' & Hi' & Hu).
    apply lookup_seq in Hi' as [-> Hlt]. simpl in Hu.
    destruct (demo_user_ok hash_password (envs i) (Z.of_nat i) ltac:(lia))
      as (u' & p & Hu' & Hid & _ & _ & _ & Hp & Hmod & _).
    assert (u' = u) as -> by congruence. split; [done|]. split; [done|]. by exists p. }
  split; [|split; [|split; [|by split]]].
  - apply Forall_forall. intros u Hu. apply list_elem_of_lookup_1 in Hu as [i Hi].
    by apply (Hfacts i u Hi).
  - apply Forall_forall. intros u Hu. apply list_elem_of_lookup_1 in Hu as [i Hi].
    by apply (Hfacts i u Hi).
  - intros i u Hi. by apply (Hfacts i u Hi).
Qed.

Lemma display_names_ok (l : list (User float)) :
  Forall (λ u, is_Some (profile u)) l →
  ∃ names, display_names l = inr names ∧ length names = length l.
Proof.
  induction 1 as [|u l [p Hp] _ (names & Hn & Hlen)]; [by exists []|].
  simpl. unfold profile_display_name. rewrite Hp. simpl. rewrite Hn. simpl.
  eexists. split; [reflexivity|]. simpl. by rewrite Hlen.
Qed.

(** the message of the demo is never refused *)
Lemma demo_conversation_ok (run : RunEnv) (m : Match float) (coll : Collections float) :
  let msg := mkMessage (run_message_id run) (user_a m) "Hi! Nice to match with you."
               (run_message_at run) None false in
  let conv := mkConversation (run_conversation_id run) [user_a m; user_b m]
                (run_conversation_at run) (Some (run_message_at run)) [msg] in
  demo_conversation run m coll
  = inr (conv, add_conversation conv
                 (add_conversation
                    (new_conversation (run_conversation_id run) (run_conversation_at run)
                       [user_a m; user_b m]) coll)).
Proof.
  cbv zeta. unfold demo_conversation, send_message, any_participant. simpl.
  by rewrite N.eqb_refl.
Qed.

(** on a store without swipes and matches, a like between two users
    creates no match, and the like that answers it creates one *)
Lemma first_like (db : InMemoryDB float) (a b : User float) (sid mid : UUID)
    (t now : datetime) :
  swipes db = ∅ → matches db = ∅ → user_id a ≠ user_id b →
  add_swipe (mkSwipe sid a b "like" t) mid now db
  = (None, logged (mkSwipe sid a b "like" t) db).
Proof.
  intros Hs Hm Hne. rewrite add_swipe_cases. cbv zeta. simpl.
  rewrite Hs, values_singleton. simpl. unfold reverse_like. simpl.
  apply N.eqb_neq in Hne. rewrite Hne. reflexivity.
Qed.

Lemma second_like (db : InMemoryDB float) (a b : User float) (sid1 sid2 mid : UUID)
    (t1 t2 now : datetime) :
  matches db = ∅ → sid1 ≠ sid2 →
  (add_swipe (mkSwipe sid2 b a "like" t2) mid now
     (logged (mkSwipe sid1 a b "like" t1) db)).1
  = Some (mkMatch mid b a now true).
Proof.
  intros Hm Hsid. rewrite add_swipe_creates; [done|done| |].
  - apply existsb_values. exists sid1, (mkSwipe sid1 a b "like" t1). split.
    + simpl. rewrite lookup_insert_ne by done. apply lookup_insert_eq.
    + unfold reverse_like. simpl. by rewrite !N.eqb_refl.
  - unfold _match_exists_between. simpl. by rewrite Hm, values_empty.
Qed.

End DemoRun.

(** X26. [demo_run] raises nothing, whatever identifiers, times and
    random values it draws, provided today is a date, the draws of the
    scores are in [0, 1) and the expiry of the subscription is a time
    that exists: the ranking of the eleven candidates succeeds and at
    most 5 names are printed, each read from a profile that is there.  When
    the users of index 1 and 2 and the two swipes got different
    identifiers, the second swipe returns the match of user 2 with user 1,
    and the conversation stored for it holds the one message, sent by
    user 2.  The payment is stored with the status that [charge] left, and
    there is a subscription exactly when the payment succeeded. *)
Theorem demo_run_succeeds (hash_password : string → string) (envs : nat → DemoEnv)
    (run : RunEnv) :
  date_ok (run_today run) →
  (∀ j, b64_below 1 (run_rnd run j)) →
  (0 <= run_expiry_from run <= datetime_max - 30 * 86400000000)%Z →
  ∃ out,
    demo_run hash_password envs run = inr out
    ∧ length (out_names out) ≤ 5
    ∧ (env_user_id (envs 1%nat) ≠ env_user_id (envs 2%nat) →
       run_swipe1_id run ≠ run_swipe2_id run →
       ∃ u1 u2 conv,
         out_match out
         = Some (mkMatch (run_match2_id run) u2 u1 (run_match2_at run) true)
         ∧ user_id u1 = env_user_id (envs 1%nat)
         ∧ user_id u2 = env_user_id (envs 2%nat)
         ∧ out_conversation out = Some conv
         ∧ sender <$> messages conv = [u2]
         ∧ conversations (out_collections out) !! run_conversation_id run = Some conv)
    ∧ (is_Some (out_subscription out) ↔ status (out_payment out) = "succeeded")
    ∧ payments (out_collections out) !! run_payment_id run = Some (out_payment out).
Proof.
  intros Ht Hr Hexp.
  destruct (demo_setup_facts hash_password envs 12 ltac:(lia))
    as (us & db' & Hsetup & Hlen & Hmod & Hprof & Hids & Hsw & Hmt).
  unfold demo_run. rewrite Hsetup. cbn [of_result demo_bind fst snd].
  do 12 (destruct us as [|? us]; [discriminate Hlen|]).
  destruct us; [|discriminate Hlen]. clear Hlen.
  cbn [item lookup list_lookup demo_bind drop].
  apply Forall_cons in Hmod as [Hme Hcands].
  apply Forall_cons in Hprof as [[pme Hpme] Hpcands].
  match goal with |- context [compute_matches _ _ ?me ?cands _] =>
    destruct (scored_loop_binary64 (run_today run) (run_rnd run) 0 me cands Ht Hr Hme Hcands)
      as (scored & Hsc & _);
    destruct (compute_matches_slice (run_today run) (run_rnd run) me cands 5 scored Hsc)
      as [Hcm Hperm]
  end.
  rewrite Hcm. cbn [of_result demo_bind].
  unfold profile_display_name at 1. rewrite Hpme. cbn [demo_bind].
  destruct (display_names_ok (slice_to (sort_desc scored).*2 5)) as (names & Hnames & Hnlen).
  { apply Forall_forall. intros c Hc. apply slice_to_subseteq in Hc.
    rewrite Hperm in Hc. unfold others_of in Hc.
    apply list_elem_of_filter in Hc as [_ Hc].
    rewrite Forall_forall in Hpcands. by apply Hpcands. }
  rewrite Hnames. cbn [demo_bind].
  match goal with |- context [add_swipe ?s2 ?mid2 ?at2 (add_swipe ?s1 ?mid1 ?at1 db').2] =>
    set (r1 := add_swipe s1 mid1 at1 db');
    set (r2 := add_swipe s2 mid2 at2 r1.2)
  end.
  set (pay0 := mkPayment _ _ _ _ "pending" _).
  assert (Hlen5 : length names ≤ 5).
  { rewrite Hnlen.
    destruct (length_slice_to (sort_desc scored).*2 5 ltac:(lia)) as [Hl _]. lia. }
  assert (Hmatch : env_user_id (envs 1%nat) ≠ env_user_id (envs 2%nat) →
            run_swipe1_id run ≠ run_swipe2_id run →
            r2.1 = Some (mkMatch (run_match2_id run) u1 u0 (run_match2_at run) true)).
  { intros Hu Hs. unfold r2, r1.
    rewrite (first_like db' u0 u1 (run_swipe1_id run) (run_match1_id run)
               (run_swipe1_at run) (run_match1_at run)); [|exact Hsw|exact Hmt|].
    - apply second_like; [exact Hmt|exact Hs].
    - rewrite (Hids 1%nat u0 eq_refl), (Hids 2%nat u1 eq_refl). exact Hu. }
  unfold charge. change (is_number (amount pay0)) with true. cbn [negb].
  set (ok := fltb _ (run_charge_draw run)).
  assert (Hdays : add_days (run_expiry_from run) 30
                  = Ok (run_expiry_from run + 30 * 86400000000)%Z).
  { unfold add_days. cbv zeta.
    destruct (Z.leb_spec 0 (run_expiry_from run + 30 * 86400000000)); [|lia].
    destruct (Z.leb_spec (run_expiry_from run + 30 * 86400000000) datetime_max); [done|lia]. }
  destruct (r2.1) as [m|] eqn:Hm.
  - rewrite demo_conversation_ok. cbn [demo_bind of_model fst snd].
    destruct ok eqn:Hok.
    + rewrite Hdays. cbn [of_result demo_bind fst snd].
      eexists. split; [reflexivity|]. cbn [out_names out_match out_conversation
        out_subscription out_payment out_collections].
      split; [exact Hlen5|]. split; [|split].
      * intros Hu Hs. specialize (Hmatch Hu Hs). injection Hmatch as ->.
        eexists u0, u1, _. split; [reflexivity|].
        split; [exact (Hids 1%nat u0 eq_refl)|]. split; [exact (Hids 2%nat u1 eq_refl)|].
        split; [reflexivity|]. split; [reflexivity|]. simpl. apply lookup_insert_eq.
      * split; [reflexivity|by eexists].
      * simpl. apply lookup_insert_eq.
    + cbn [of_result demo_bind fst snd].
      eexists. split; [reflexivity|]. cbn [out_names out_match out_conversation
        out_subscription out_payment out_collections].
      split; [exact Hlen5|]. split; [|split].
      * intros Hu Hs. specialize (Hmatch Hu Hs). injection Hmatch as ->.
        eexists u0, u1, _. split; [reflexivity|].
        split; [exact (Hids 1%nat u0 eq_refl)|]. split; [exact (Hids 2%nat u1 eq_refl)|].
        split; [reflexivity|]. split; [reflexivity|]. simpl. apply lookup_insert_eq.
      * split; [by intros [? ?]|discriminate].
      * simpl. apply lookup_insert_eq.
  - cbn [demo_bind of_model fst snd].
    destruct ok eqn:Hok.
    + rewrite Hdays. cbn [of_result demo_bind fst snd].
      eexists. split; [reflexivity|]. cbn [out_names out_match out_conversation
        out_subscription out_payment out_collections].
      split; [exact Hlen5|]. split; [|split].
      * intros Hu Hs. specialize (Hmatch Hu Hs). discriminate Hmatch.
      * split; [reflexivity|by eexists].
      * simpl. apply lookup_insert_eq.
    + cbn [of_result demo_bind fst snd].
      eexists. split; [reflexivity|]. cbn [out_names out_match out_conversation
        out_subscription out_payment out_collections].
      split; [exact Hlen5|]. split; [|split].
      * intros Hu Hs. specialize (Hmatch Hu Hs). discriminate Hmatch.
      * split; [by intros [? ?]|discriminate].
      * simpl. apply lookup_insert_eq.
Qed.

Lemma demo_run_succeeds_witness :
  ∃ out, demo_run sample_hash sample_env sample_run = inr out
         ∧ length (out_names out) ≤ 5.
Proof.
  destruct (demo_run_succeeds sample_hash sample_env sample_run) as (out & Hrun & Hlen & _).
  - unfold date_ok. simpl. lia.
  - intros j. unfold b64_below. vm_compute. discriminate.
  - vm_compute. split; discriminate.
  - exists out. split; [exact Hrun|exact Hlen].
Defined.

(** ** models.py: payments *)

(** X27. [charge] raises [TypeError] exactly when the amount is neither
    an [int] (a [bool] included) nor a [float], and nothing else about the
    amount is checked: for any number, negative, infinite or NaN, it
    returns [True] exactly when the draw is above 0.1 and leaves the status
    "succeeded" or "failed" accordingly, whatever the status was; so a
    payment charged again ends with the status of the last charge. *)
Theorem charge_outcome {F} `{PyFloat F} (rnd : F) (self : Payment F) :
  match charge rnd self with
  | inl e => e = TypeError "amount must be a number" ∧ is_number (amount self) = false
  | inr (ok, self') =>
      is_number (amount self) = true
      ∧ ok = fltb (fdiv (float_of_Z 1) (float_of_Z 10)) rnd
      ∧ self' = mkPayment (payment_id self) (payment_user self) (amount self)
                  (currency self) (if ok then "succeeded" else "failed")
                  (payment_created_at self)
      ∧ ∀ rnd', charge rnd' self' = charge rnd' self
  end.
Proof.
  unfold charge. destruct (is_number (amount self)) eqn:Hnum; simpl; [|done].
  repeat split. intros rnd'. simpl. by rewrite Hnum.
Qed.

(** a negative amount is charged like any other; the draw 0.1 is not
    above 0.1, and the payment that had succeeded ends failed *)
Example charge_binary64 :
  charge 0.1%float (mkPayment 1 alice (PyFloatValue (-5)%float) "USD" "succeeded" 0%Z)
  = inr (false, mkPayment 1 alice (PyFloatValue (-5)%float) "USD" "failed" 0%Z).
Proof. vm_compute. reflexivity. Qed.
